(** * SettingsDialog: a verification development

    A shallow embedding of [src/SettingsDialog.cpp] (the Nedrysoft settings
    dialog) and of the toolkit operations it relies on, followed by the
    properties of the dialog that the specification states.

    The source is compiled in one of two configurations, selected by
    [Q_OS_MACOS]: the toolbar layout (module [Mac]) and the tree-list layout
    (module [Tree]).  Each configuration is embedded as the preprocessor
    leaves it. *)

From Stdlib Require Import String Ascii ZArith QArith Qcanon Lia.
From stdpp Require Import base option list gmap strings sorting.

Local Open Scope Z_scope.

(** ** The toolkit's strings *)

Module QString.

(** A [QString] is a sequence of characters; the literals of the source are
    ASCII. *)
Definition QString := list ascii.

Definition fromLatin1 (s : string) : QString := list_ascii_of_string s.

(** [startsWith s p]: [p] is a prefix of [s]. *)
Fixpoint startsWith (s p : QString) : bool :=
  match p, s with
  | [], _ => true
  | _ :: _, [] => false
  | b :: p', c :: s' => if Ascii.eqb b c then startsWith s' p' else false
  end.

(** [contains s p]: [p] occurs in [s] at some index. *)
Fixpoint contains (s p : QString) : bool :=
  startsWith s p ||
  match s with
  | [] => false
  | _ :: s' => contains s' p
  end.

(** [QString::replace(before, after)]: the occurrences of [before] are
    searched from the left, each search resuming after the previous
    occurrence (one index further when [before] is empty), and every one
    found is replaced by [after]; the text put in is not searched again.
    [skip] counts the characters of the occurrence that is being replaced and
    that are still to be dropped. *)
Fixpoint replace_from (skip : nat) (before after s : QString) : QString :=
  match skip, s with
  | S k, [] => []
  | S k, _ :: s' => replace_from k before after s'
  | O, [] => match before with [] => after | _ :: _ => [] end
  | O, c :: s' =>
      if startsWith s before then
        match before with
        | [] => after ++ c :: replace_from 0 before after s'
        | _ :: b' => after ++ replace_from (length b') before after s'
        end
      else c :: replace_from 0 before after s'
  end.

Definition replace (before after s : QString) : QString :=
  replace_from 0 before after s.

End QString.

(** ** Toolkit values *)

Module Qt.

Record QSize := mkQSize { width : Z; height : Z }.

(** A [QWidget *] handed out by a page, and a [QIcon], are opaque handles. *)
Definition QWidgetPtr := nat.
Definition QIcon := nat.

(** [QCloseEvent]: only its accepted flag matters here.  The toolkit creates
    the event with the flag set. *)
Record QCloseEvent := { isAccepted : bool }.

Definition accept (_ : QCloseEvent) : QCloseEvent := {| isAccepted := true |}.
Definition ignore (_ : QCloseEvent) : QCloseEvent := {| isAccepted := false |}.

End Qt.

Import Qt.

(** ** The page contract *)

(** [ISettingsPage] is the interface of the externally supplied pages; its
    methods are the ones the dialog calls.  [P] is the type of the state of
    a page object; the query methods read it, and [acceptSettings] (which
    commits the edited values) changes it.  [createWidget] hands out the
    widget that shows the page. *)
Class ISettingsPage (P : Type) := {
  section : P -> string;
  category : P -> string;
  description : P -> string;
  icon : P -> bool -> QIcon;
  createWidget : P -> QWidgetPtr;
  canAcceptSettings : P -> bool;
  acceptSettings : P -> P
}.

(** An [ISettingsPage *] is an address into the heap of page objects. *)
Definition PagePtr := nat.

(** What lies outside the dialog object: the page objects, the calls of
    [ISettingsPage::acceptSettings] made so far (oldest first), the number of
    [closed] notifications emitted, and the theme service's current mode. *)
Record World (P : Type) := {
  heap : PagePtr -> P;
  acceptCalls : list PagePtr;
  closedEmitted : nat;
  isDarkMode : bool
}.

Arguments heap {P} _ _.
Arguments acceptCalls {P} _.
Arguments closedEmitted {P} _.
Arguments isDarkMode {P} _.

Section PageCalls.
Context {P : Type} `{ISettingsPage P}.

(** [page->canAcceptSettings()] *)
Definition callCanAcceptSettings (page : PagePtr) (w : World P) : bool :=
  canAcceptSettings (heap w page).

(** [page->acceptSettings()]: the page object is updated in place. *)
Definition callAcceptSettings (page : PagePtr) (w : World P) : World P :=
  {| heap := fun q => if decide (q = page) then acceptSettings (heap w page) else heap w q;
     acceptCalls := acceptCalls w ++ [page];
     closedEmitted := closedEmitted w;
     isDarkMode := isDarkMode w |}.

(** [Q_EMIT closed()] *)
Definition emitClosed (w : World P) : World P :=
  {| heap := heap w;
     acceptCalls := acceptCalls w;
     closedEmitted := S (closedEmitted w);
     isDarkMode := isDarkMode w |}.

End PageCalls.

(** ** Style sheets *)

Definition ThemeStylesheet : QString.QString := QString.fromLatin1 "
    QStackedWidget {
        [base-background-colour];
    }

    QTabWidget::pane {
        [base-background-colour];
    }

    QTabWidget::tab-bar {
        [base-background-colour];
    }

    QTabBar::tab:selected {
        [background-colour];
    }

    QTabBar::tab:selected {
        [background-colour];
    }

    QTabBar::tab:!selected {
        [base-background-colour];
    }
".

Definition ThemeSubStylesheet : QString.QString := QString.fromLatin1 "
    QStackedWidget {
        [background-colour];
    }
".

Definition backgroundColour : QString.QString :=
  QString.fromLatin1 "[background-colour]".
Definition baseBackgroundColour : QString.QString :=
  QString.fromLatin1 "[base-background-colour]".

(** [SettingsDialog::updateStyleSheet] *)
Definition updateStyleSheet (styleSheet : QString.QString) (isDarkMode : bool)
  : QString.QString :=
  let modifiedStyleSheet := styleSheet in
  if isDarkMode then
    let modifiedStyleSheet :=
      QString.replace backgroundColour
        (QString.fromLatin1 "background-color: #282c29;") modifiedStyleSheet in
    QString.replace baseBackgroundColour
      (QString.fromLatin1 "background-color: #202421;") modifiedStyleSheet
  else
    let modifiedStyleSheet :=
      QString.replace backgroundColour (QString.fromLatin1 "") modifiedStyleSheet in
    QString.replace baseBackgroundColour (QString.fromLatin1 "") modifiedStyleSheet.

(** ** The tree-list layout (every platform but macOS) *)

Module Tree.
Section TreeLayout.
Context {P : Type} `{ISettingsPage P}.

(** The [SettingsPage] structure of this layout, with the fields that the
    source uses: one per registered page. *)
Record SettingsPage := {
  m_name : string;
  m_widget : QWidgetPtr;
  m_pageSettings : PagePtr;
  m_icon : QIcon;
  m_description : string
}.

(** A [QTabWidget]: its tabs in order (the page widget each tab wraps, and the
    tab's label) and its style sheet. *)
Record QTabWidget := {
  tabs : list (QWidgetPtr * string);
  tabStyleSheet : QString.QString
}.

(** A top-level [QTreeWidgetItem].  Its [Qt::UserRole] data is the section's
    tab widget, which nothing else owns, so the item holds it by value;
    [itemPage] is the page captured by the item's theme handler. *)
Record QTreeWidgetItem := {
  text : string;
  itemIcon : QIcon;
  toolTip : string;
  userData : QTabWidget;
  itemPage : PagePtr
}.

(** The dialog object.  [m_treeWidget] lists the top-level items in order;
    [m_stackedWidget] lists the tab widgets it holds, each named by the index
    of its tree item; [m_applyButton] is the enabled state of the Apply
    button; [settingsChangedConnections] are the pages whose [settingsChanged]
    signal is connected to the dialog; [isVisible] tells whether the window
    is shown.  Geometry (sizes, margins, font metrics) is left out. *)
Record SettingsDialog := {
  m_treeWidget : list QTreeWidgetItem;
  m_stackedWidget : list nat;
  m_pages : list SettingsPage;
  m_currentPage : option SettingsPage;
  m_applyButton : bool;
  settingsChangedConnections : list PagePtr;
  styleSheet : QString.QString;
  isVisible : bool
}.

Definition setTreeWidget (t : list QTreeWidgetItem) (d : SettingsDialog) :=
  {| m_treeWidget := t; m_stackedWidget := m_stackedWidget d;
     m_pages := m_pages d; m_currentPage := m_currentPage d;
     m_applyButton := m_applyButton d;
     settingsChangedConnections := settingsChangedConnections d;
     styleSheet := styleSheet d; isVisible := isVisible d |}.

Definition setStackedWidget (s : list nat) (d : SettingsDialog) :=
  {| m_treeWidget := m_treeWidget d; m_stackedWidget := s;
     m_pages := m_pages d; m_currentPage := m_currentPage d;
     m_applyButton := m_applyButton d;
     settingsChangedConnections := settingsChangedConnections d;
     styleSheet := styleSheet d; isVisible := isVisible d |}.

Definition setPages (ps : list SettingsPage) (d : SettingsDialog) :=
  {| m_treeWidget := m_treeWidget d; m_stackedWidget := m_stackedWidget d;
     m_pages := ps; m_currentPage := m_currentPage d;
     m_applyButton := m_applyButton d;
     settingsChangedConnections := settingsChangedConnections d;
     styleSheet := styleSheet d; isVisible := isVisible d |}.

(** [m_applyButton->setDisabled(!enabled)] *)
Definition setApplyEnabled (enabled : bool) (d : SettingsDialog) :=
  {| m_treeWidget := m_treeWidget d; m_stackedWidget := m_stackedWidget d;
     m_pages := m_pages d; m_currentPage := m_currentPage d;
     m_applyButton := enabled;
     settingsChangedConnections := settingsChangedConnections d;
     styleSheet := styleSheet d; isVisible := isVisible d |}.

Definition setConnections (c : list PagePtr) (d : SettingsDialog) :=
  {| m_treeWidget := m_treeWidget d; m_stackedWidget := m_stackedWidget d;
     m_pages := m_pages d; m_currentPage := m_currentPage d;
     m_applyButton := m_applyButton d;
     settingsChangedConnections := c;
     styleSheet := styleSheet d; isVisible := isVisible d |}.

Definition setStyleSheet (s : QString.QString) (d : SettingsDialog) :=
  {| m_treeWidget := m_treeWidget d; m_stackedWidget := m_stackedWidget d;
     m_pages := m_pages d; m_currentPage := m_currentPage d;
     m_applyButton := m_applyButton d;
     settingsChangedConnections := settingsChangedConnections d;
     styleSheet := s; isVisible := isVisible d |}.

Definition setVisible (v : bool) (d : SettingsDialog) :=
  {| m_treeWidget := m_treeWidget d; m_stackedWidget := m_stackedWidget d;
     m_pages := m_pages d; m_currentPage := m_currentPage d;
     m_applyButton := m_applyButton d;
     settingsChangedConnections := settingsChangedConnections d;
     styleSheet := styleSheet d; isVisible := v |}.

(** [tabWidget->addTab(widget, label)], [widget] wrapping [pageWidget]. *)
Definition addTab (pageWidget : QWidgetPtr) (label : string)
    (item : QTreeWidgetItem) : QTreeWidgetItem :=
  {| text := text item; itemIcon := itemIcon item; toolTip := toolTip item;
     userData := {| tabs := tabs (userData item) ++ [(pageWidget, label)];
                    tabStyleSheet := tabStyleSheet (userData item) |};
     itemPage := itemPage item |}.

(** [QStackedWidget::addWidget]: a widget that is already in the stack is
    taken out of it and put at its end. *)
Definition stackAddWidget (tabWidget : nat) (stack : list nat) : list nat :=
  filter (fun t => t <> tabWidget) stack ++ [tabWidget].

(** [SettingsDialog::addPage], tree-list branch.  The loop over the top-level
    items stops at the first one whose text is the page's section.  When
    there is none, [new QTreeWidgetItem(m_treeWidget)] puts a new item at the
    end of the tree; the later [addTopLevelItem] of that same item changes
    nothing, since the toolkit does not insert an item that already belongs
    to a view.  [page->icon()] is called without its argument there; the
    default it then takes is declared in a header that is not at hand and is
    taken to be the light mode. *)
Definition addPage (page : PagePtr) (d : SettingsDialog) (w : World P)
  : SettingsPage * SettingsDialog :=
  let pg := heap w page in
  let '(tabWidget, d) :=
    match list_find (fun item => section pg = text item) (m_treeWidget d) with
    | Some (currentItem, _) => (currentItem, d)
    | None =>
        let treeItem :=
          {| text := section pg;
             itemIcon := icon pg (isDarkMode w);
             toolTip := description pg;
             userData :=
               {| tabs := [];
                  tabStyleSheet := updateStyleSheet ThemeSubStylesheet (isDarkMode w) |};
             itemPage := page |} in
        (length (m_treeWidget d), setTreeWidget (m_treeWidget d ++ [treeItem]) d)
    end in
  let pageWidget := createWidget pg in
  let d := setTreeWidget (alter (addTab pageWidget (category pg)) tabWidget (m_treeWidget d)) d in
  let d := setStackedWidget (stackAddWidget tabWidget (m_stackedWidget d)) d in
  let settingsPage :=
    {| m_name := section pg;
       m_widget := pageWidget;
       m_pageSettings := page;
       m_icon := icon pg false;
       m_description := description pg |} in
  (settingsPage, d).

(** The constructor's loop over the pages, tree-list branch: every page is
    connected, added and recorded in turn. *)
Definition addPages (pages : list PagePtr) (d : SettingsDialog) (w : World P)
  : SettingsDialog :=
  foldl (fun d page =>
           let d := setConnections (settingsChangedConnections d ++ [page]) d in
           let '(settingsPage, d) := addPage page d w in
           setPages (m_pages d ++ [settingsPage]) d)
        d pages.

(** The constructor, tree-list branch: the Apply button starts disabled.  A
    widget is hidden until its host shows it. *)
Definition construct (pages : list PagePtr) (w : World P) : SettingsDialog :=
  let d :=
    {| m_treeWidget := []; m_stackedWidget := []; m_pages := [];
       m_currentPage := None;
       m_applyButton := false;
       settingsChangedConnections := [];
       styleSheet := updateStyleSheet ThemeStylesheet (isDarkMode w);
       isVisible := false |} in
  addPages pages d w.

(** [QWidget::show()], called by the host. *)
Definition show (d : SettingsDialog) : SettingsDialog := setVisible true d.

(** The handler of a page's [settingsChanged] signal: it runs once for each
    connection made to that page. *)
Definition settingsChanged (page : PagePtr) (d : SettingsDialog) : SettingsDialog :=
  foldl (fun d connected =>
           if decide (connected = page) then setApplyEnabled true d else d)
        d (settingsChangedConnections d).

(** The handlers of the theme service's [themeChanged] signal: the dialog's
    own, and one for each tree item. *)
Definition themeChanged (d : SettingsDialog) (w : World P) : SettingsDialog :=
  let d := setStyleSheet (updateStyleSheet ThemeStylesheet (isDarkMode w)) d in
  setTreeWidget
    (map (fun item =>
            {| text := text item;
               itemIcon := icon (heap w (itemPage item)) (isDarkMode w);
               toolTip := toolTip item;
               userData :=
                 {| tabs := tabs (userData item);
                    tabStyleSheet := updateStyleSheet ThemeSubStylesheet (isDarkMode w) |};
               itemPage := itemPage item |})
         (m_treeWidget d)) d.

(** [SettingsDialog::okToClose], tree-list branch. *)
Fixpoint okToClose_loop (pages : list SettingsPage) (w : World P) : bool :=
  match pages with
  | [] => true
  | page :: rest =>
      if negb (callCanAcceptSettings (m_pageSettings page) w) then false
      else okToClose_loop rest w
  end.

Definition okToClose (d : SettingsDialog) (w : World P) : bool :=
  okToClose_loop (m_pages d) w.

(** [SettingsDialog::closeEvent] *)
Definition closeEvent (event : QCloseEvent) (d : SettingsDialog) (w : World P)
  : QCloseEvent * World P :=
  if okToClose d w then (accept event, emitClosed w)
  else (ignore event, w).

(** [QWidget::close()]: the toolkit sends the widget a close event and hides
    the widget when the event comes back accepted. *)
Definition close (d : SettingsDialog) (w : World P) : SettingsDialog * World P :=
  let '(event, w) := closeEvent {| isAccepted := true |} d w in
  if isAccepted event then (setVisible false d, w) else (d, w).

(** [SettingsDialog::acceptSettings], tree-list branch: the first loop, which
    leaves at the first page that cannot accept, and the second loop. *)
Fixpoint settingsValid_loop (pages : list SettingsPage) (settingsValid : bool)
    (w : World P) : bool :=
  match pages with
  | [] => settingsValid
  | page :: rest =>
      if negb (callCanAcceptSettings (m_pageSettings page) w) then false
      else settingsValid_loop rest settingsValid w
  end.

Fixpoint acceptSettings_loop (pages : list SettingsPage) (w : World P) : World P :=
  match pages with
  | [] => w
  | page :: rest => acceptSettings_loop rest (callAcceptSettings (m_pageSettings page) w)
  end.

Definition acceptSettings (d : SettingsDialog) (w : World P)
  : bool * SettingsDialog * World P :=
  let settingsValid := settingsValid_loop (m_pages d) true w in
  if negb settingsValid then
    (false, d, w)
  else
    let w := acceptSettings_loop (m_pages d) w in
    let d := setApplyEnabled false d in
    (true, d, w).

(** The [clicked] handlers of the OK, Apply and Cancel buttons. *)
Definition okClicked (d : SettingsDialog) (w : World P) : SettingsDialog * World P :=
  let '(_, d, w) := acceptSettings d w in
  close d w.

Definition applyClicked (d : SettingsDialog) (w : World P) : SettingsDialog * World P :=
  let '(_, d, w) := acceptSettings d w in
  (d, w).

Definition cancelClicked (d : SettingsDialog) (w : World P) : SettingsDialog * World P :=
  close d w.

(** [SettingsDialog::sizeHint]; [widgetSizeHint] is the toolkit's size hint of
    a page widget and [baseSizeHint] is [QWidget::sizeHint()] of the dialog. *)
Definition sizeHint (widgetSizeHint : QWidgetPtr -> QSize) (baseSizeHint : QSize)
    (d : SettingsDialog) : QSize :=
  match m_currentPage d with
  | Some currentPage => widgetSizeHint (m_widget currentPage)
  | None => baseSizeHint
  end.

(** What can happen to a dialog that has been constructed. *)
Inductive Event :=
| ShowRequested
| SettingsChanged (page : PagePtr)
| OkClicked
| ApplyClicked
| CancelClicked
| CloseRequested
| ThemeChanged (isDarkMode : bool).

Definition handle (e : Event) (d : SettingsDialog) (w : World P)
  : SettingsDialog * World P :=
  match e with
  | ShowRequested => (show d, w)
  | SettingsChanged page => (settingsChanged page d, w)
  | OkClicked => okClicked d w
  | ApplyClicked => applyClicked d w
  | CancelClicked => cancelClicked d w
  | CloseRequested => close d w
  | ThemeChanged isDarkMode =>
      let w := {| heap := heap w; acceptCalls := acceptCalls w;
                  closedEmitted := closedEmitted w; isDarkMode := isDarkMode |} in
      (themeChanged d w, w)
  end.

Definition run (events : list Event) (d : SettingsDialog) (w : World P)
  : SettingsDialog * World P :=
  foldl (fun s e => handle e s.1 s.2) (d, w) events.

End TreeLayout.
End Tree.

(** ** The toolbar layout (macOS) *)

Module Mac.

(** What a section's container holds: separators and page widgets. *)
Inductive Child :=
| SeparatorWidget
| PageWidget (widget : QWidgetPtr).

(** Modelled from the spec: the [TransparentWidget] class of this repository,
    whose source is not at hand.  It is the container of a section's page
    widgets on the toolbar layout: a widget with an opacity effect (used by
    the cross-fade) and a layout whose items are kept in the order added.
    [address] is the address of the object; two containers are the same
    object when their addresses are equal. *)
Record TransparentWidget := {
  address : nat;
  opacity : Qc;
  size : QSize;
  children : list Child
}.

(** Modelled from the spec: [new TransparentWidget(opacity, parent)], the
    constructor of the missing class, at a given address: a container that
    holds nothing yet. *)
Definition newTransparentWidget (address : nat) (opacity : Qc) : TransparentWidget :=
  {| address := address; opacity := opacity;
     size := mkQSize 0 0; children := [] |}.

(** Modelled from the spec: [TransparentWidget::count] of the missing class,
    the number of items in the container's layout. *)
Definition count (c : TransparentWidget) : nat := length (children c).

(** Modelled from the spec: [TransparentWidget::addWidget] of the missing
    class, which puts a widget at the end of the container's layout. *)
Definition addWidget (child : Child) (c : TransparentWidget) : TransparentWidget :=
  {| address := address c; opacity := opacity c; size := size c;
     children := children c ++ [child] |}.

(** Modelled from the spec: [TransparentWidget::setOpacity] of the missing
    class, which sets the opacity of the container's effect. *)
Definition setOpacity (value : Qc) (c : TransparentWidget) : TransparentWidget :=
  {| address := address c; opacity := value; size := size c;
     children := children c |}.

(** [QWidget::resize] of a container *)
Definition resizeContainer (s : QSize) (c : TransparentWidget) : TransparentWidget :=
  {| address := address c; opacity := opacity c; size := s;
     children := children c |}.

(** A [MacToolbarItem *] is the address of a toolbar item. *)
Definition ItemPtr := nat.

Record MacToolbarItem := {
  toolbarIcon : QIcon;
  toolbarLabel : string
}.

(** What the toolkit and the platform helper decide: [itemAddress n] is the
    address of the [n]-th item that [MacToolbar::addItem] allocates,
    [layoutSizeHint] is the size hint that a container's layout computes from
    its children, and [baseSizeHint] is [QWidget::sizeHint()] of the dialog. *)
Class Toolkit := {
  itemAddress : nat -> ItemPtr;
  layoutSizeHint : list Child -> QSize;
  baseSizeHint : QSize
}.

(** The constants of the source *)
Definition TransisionDuration : Z := 100.
Definition AlphaTransparent : Qc := 0%Qc.
Definition AlphaOpaque : Qc := 1%Qc.
Definition DefaultMinimumWidth : Z := 300.

(** Property animations, as data: what is animated, for how long, from which
    value to which value.  The values in between belong to real time and are
    not modelled. *)
Inductive AnimatedProperty :=
| DialogProperty (name : string)
| EffectOpacity (container : nat).

Inductive QVariant :=
| SizeValue (s : QSize)
| RealValue (q : Qc).

Record QPropertyAnimation := {
  target : AnimatedProperty;
  duration : Z;
  startValue : QVariant;
  endValue : QVariant
}.

(** A [QParallelAnimationGroup] with the page that the handler of its
    [finished] signal captured. *)
Record QParallelAnimationGroup := {
  animations : list QPropertyAnimation;
  finishedPage : ItemPtr
}.

(** Calls made on animation groups, oldest first. *)
Inductive AnimationCall :=
| GroupStopped (g : QParallelAnimationGroup)
| GroupStarted (g : QParallelAnimationGroup).

(** The [SettingsPage] structure of this layout, with the fields that the
    source uses: one per section. *)
Record SettingsPage := {
  m_name : string;
  m_widget : TransparentWidget;
  m_pageSettings : list PagePtr;
  m_toolbarItem : ItemPtr;
  m_icon : QIcon;
  m_description : string
}.

Definition setWidget (c : TransparentWidget) (p : SettingsPage) : SettingsPage :=
  {| m_name := m_name p; m_widget := c; m_pageSettings := m_pageSettings p;
     m_toolbarItem := m_toolbarItem p; m_icon := m_icon p;
     m_description := m_description p |}.

Definition appendPageSettings (page : PagePtr) (p : SettingsPage) : SettingsPage :=
  {| m_name := m_name p; m_widget := m_widget p;
     m_pageSettings := m_pageSettings p ++ [page];
     m_toolbarItem := m_toolbarItem p; m_icon := m_icon p;
     m_description := m_description p |}.

(** The dialog object.  [m_pages] is the [QMap] from toolbar items to
    [SettingsPage] objects.  Each [SettingsPage] object, with the container it
    points to, is reachable through [m_pages] only, so the map holds it by
    value and a [SettingsPage *] is kept as the key of its entry
    ([m_currentPage], and the page captured by a handler).  [m_toolbar] lists
    the toolbar's items with their addresses in the order added;
    [containersCreated] counts the containers allocated, the next one getting
    that number as its address.  Window geometry is kept as the sizes asked
    for. *)
Record SettingsDialog := {
  m_toolbar : list (ItemPtr * MacToolbarItem);
  m_pages : gmap ItemPtr SettingsPage;
  m_currentPage : option ItemPtr;
  m_animationGroup : option QParallelAnimationGroup;
  m_maximumWidth : Z;
  containersCreated : nat;
  dialogSize : QSize;
  minimumSize : QSize;
  maximumSize : QSize;
  windowTitle : string;
  styleSheet : QString.QString;
  animationCalls : list AnimationCall
}.

Definition setToolbar (t : list (ItemPtr * MacToolbarItem)) (d : SettingsDialog) : SettingsDialog :=
  {| m_toolbar := t;
     m_pages := m_pages d;
     m_currentPage := m_currentPage d;
     m_animationGroup := m_animationGroup d;
     m_maximumWidth := m_maximumWidth d;
     containersCreated := containersCreated d;
     dialogSize := dialogSize d;
     minimumSize := minimumSize d;
     maximumSize := maximumSize d;
     windowTitle := windowTitle d;
     styleSheet := styleSheet d;
     animationCalls := animationCalls d |}.

Definition setPages (m : gmap ItemPtr SettingsPage) (d : SettingsDialog) : SettingsDialog :=
  {| m_toolbar := m_toolbar d;
     m_pages := m;
     m_currentPage := m_currentPage d;
     m_animationGroup := m_animationGroup d;
     m_maximumWidth := m_maximumWidth d;
     containersCreated := containersCreated d;
     dialogSize := dialogSize d;
     minimumSize := minimumSize d;
     maximumSize := maximumSize d;
     windowTitle := windowTitle d;
     styleSheet := styleSheet d;
     animationCalls := animationCalls d |}.

Definition setCurrentPage (p : option ItemPtr) (d : SettingsDialog) : SettingsDialog :=
  {| m_toolbar := m_toolbar d;
     m_pages := m_pages d;
     m_currentPage := p;
     m_animationGroup := m_animationGroup d;
     m_maximumWidth := m_maximumWidth d;
     containersCreated := containersCreated d;
     dialogSize := dialogSize d;
     minimumSize := minimumSize d;
     maximumSize := maximumSize d;
     windowTitle := windowTitle d;
     styleSheet := styleSheet d;
     animationCalls := animationCalls d |}.

Definition setAnimationGroup (g : option QParallelAnimationGroup) (d : SettingsDialog) : SettingsDialog :=
  {| m_toolbar := m_toolbar d;
     m_pages := m_pages d;
     m_currentPage := m_currentPage d;
     m_animationGroup := g;
     m_maximumWidth := m_maximumWidth d;
     containersCreated := containersCreated d;
     dialogSize := dialogSize d;
     minimumSize := minimumSize d;
     maximumSize := maximumSize d;
     windowTitle := windowTitle d;
     styleSheet := styleSheet d;
     animationCalls := animationCalls d |}.

Definition setMaximumWidth (x : Z) (d : SettingsDialog) : SettingsDialog :=
  {| m_toolbar := m_toolbar d;
     m_pages := m_pages d;
     m_currentPage := m_currentPage d;
     m_animationGroup := m_animationGroup d;
     m_maximumWidth := x;
     containersCreated := containersCreated d;
     dialogSize := dialogSize d;
     minimumSize := minimumSize d;
     maximumSize := maximumSize d;
     windowTitle := windowTitle d;
     styleSheet := styleSheet d;
     animationCalls := animationCalls d |}.

Definition setContainersCreated (n : nat) (d : SettingsDialog) : SettingsDialog :=
  {| m_toolbar := m_toolbar d;
     m_pages := m_pages d;
     m_currentPage := m_currentPage d;
     m_animationGroup := m_animationGroup d;
     m_maximumWidth := m_maximumWidth d;
     containersCreated := n;
     dialogSize := dialogSize d;
     minimumSize := minimumSize d;
     maximumSize := maximumSize d;
     windowTitle := windowTitle d;
     styleSheet := styleSheet d;
     animationCalls := animationCalls d |}.

Definition resize (s : QSize) (d : SettingsDialog) : SettingsDialog :=
  {| m_toolbar := m_toolbar d;
     m_pages := m_pages d;
     m_currentPage := m_currentPage d;
     m_animationGroup := m_animationGroup d;
     m_maximumWidth := m_maximumWidth d;
     containersCreated := containersCreated d;
     dialogSize := s;
     minimumSize := minimumSize d;
     maximumSize := maximumSize d;
     windowTitle := windowTitle d;
     styleSheet := styleSheet d;
     animationCalls := animationCalls d |}.

Definition setMinimumSize (s : QSize) (d : SettingsDialog) : SettingsDialog :=
  {| m_toolbar := m_toolbar d;
     m_pages := m_pages d;
     m_currentPage := m_currentPage d;
     m_animationGroup := m_animationGroup d;
     m_maximumWidth := m_maximumWidth d;
     containersCreated := containersCreated d;
     dialogSize := dialogSize d;
     minimumSize := s;
     maximumSize := maximumSize d;
     windowTitle := windowTitle d;
     styleSheet := styleSheet d;
     animationCalls := animationCalls d |}.

Definition setMaximumSize (s : QSize) (d : SettingsDialog) : SettingsDialog :=
  {| m_toolbar := m_toolbar d;
     m_pages := m_pages d;
     m_currentPage := m_currentPage d;
     m_animationGroup := m_animationGroup d;
     m_maximumWidth := m_maximumWidth d;
     containersCreated := containersCreated d;
     dialogSize := dialogSize d;
     minimumSize := minimumSize d;
     maximumSize := s;
     windowTitle := windowTitle d;
     styleSheet := styleSheet d;
     animationCalls := animationCalls d |}.

Definition setWindowTitle (t : string) (d : SettingsDialog) : SettingsDialog :=
  {| m_toolbar := m_toolbar d;
     m_pages := m_pages d;
     m_currentPage := m_currentPage d;
     m_animationGroup := m_animationGroup d;
     m_maximumWidth := m_maximumWidth d;
     containersCreated := containersCreated d;
     dialogSize := dialogSize d;
     minimumSize := minimumSize d;
     maximumSize := maximumSize d;
     windowTitle := t;
     styleSheet := styleSheet d;
     animationCalls := animationCalls d |}.

Definition setStyleSheet (s : QString.QString) (d : SettingsDialog) : SettingsDialog :=
  {| m_toolbar := m_toolbar d;
     m_pages := m_pages d;
     m_currentPage := m_currentPage d;
     m_animationGroup := m_animationGroup d;
     m_maximumWidth := m_maximumWidth d;
     containersCreated := containersCreated d;
     dialogSize := dialogSize d;
     minimumSize := minimumSize d;
     maximumSize := maximumSize d;
     windowTitle := windowTitle d;
     styleSheet := s;
     animationCalls := animationCalls d |}.

Definition logAnimationCall (c : AnimationCall) (d : SettingsDialog) : SettingsDialog :=
  {| m_toolbar := m_toolbar d;
     m_pages := m_pages d;
     m_currentPage := m_currentPage d;
     m_animationGroup := m_animationGroup d;
     m_maximumWidth := m_maximumWidth d;
     containersCreated := containersCreated d;
     dialogSize := dialogSize d;
     minimumSize := minimumSize d;
     maximumSize := maximumSize d;
     windowTitle := windowTitle d;
     styleSheet := styleSheet d;
     animationCalls := animationCalls d ++ [c] |}.

(** Iterating over a [QMap] visits its entries by ascending key. *)
Definition keyLe (a b : ItemPtr * SettingsPage) : Prop := (a.1 <= b.1)%nat.

#[global] Instance keyLe_dec a b : Decision (keyLe a b).
Proof. unfold keyLe. apply _. Defined.

Definition entries (m : gmap ItemPtr SettingsPage) : list (ItemPtr * SettingsPage) :=
  merge_sort keyLe (map_to_list m).

Definition values (m : gmap ItemPtr SettingsPage) : list SettingsPage :=
  (entries m).*2.

Section MacLayout.
Context {P : Type} `{ISettingsPage P} `{Toolkit}.

(** [QWidget::sizeHint] of a container: that of its layout. *)
Definition containerSizeHint (c : TransparentWidget) : QSize :=
  layoutSizeHint (children c).

(** [MacToolbar::addItem] *)
Definition addItem (icon : QIcon) (label : string)
    (toolbar : list (ItemPtr * MacToolbarItem))
  : ItemPtr * list (ItemPtr * MacToolbarItem) :=
  let item := itemAddress (length toolbar) in
  (item, toolbar ++ [(item, {| toolbarIcon := icon; toolbarLabel := label |})]).

(** [SettingsDialog::addPage], toolbar branch.  The loop over [m_pages] stops
    at the first page whose name is the page's section.  A page found there
    is changed in place, through the pointer; a new one is returned to the
    caller, who stores it. *)
Definition addPage (page : PagePtr) (d : SettingsDialog) (w : World P)
  : SettingsPage * SettingsDialog :=
  let pg := heap w page in
  let found :=
    find (fun entry => bool_decide (m_name entry.2 = section pg)) (entries (m_pages d)) in
  let '(widgetContainer, d) :=
    match found with
    | Some (_, currentPage) => (m_widget currentPage, d)
    | None =>
        (newTransparentWidget (containersCreated d) 0,
         setContainersCreated (S (containersCreated d)) d)
    end in
  let widgetContainer :=
    if decide (count widgetContainer <> 0%nat)
    then addWidget SeparatorWidget widgetContainer
    else widgetContainer in
  let pageWidget := createWidget pg in
  let widgetContainer := addWidget (PageWidget pageWidget) widgetContainer in
  match found with
  | Some (key, settingsPage) =>
      let settingsPage := appendPageSettings page (setWidget widgetContainer settingsPage) in
      (settingsPage, setPages (<[key := settingsPage]> (m_pages d)) d)
  | None =>
      let '(item, toolbar) :=
        addItem (icon pg (isDarkMode w)) (section pg) (m_toolbar d) in
      let settingsPage :=
        {| m_name := section pg;
           m_widget := widgetContainer;
           m_pageSettings := [page];
           m_toolbarItem := item;
           m_icon := icon pg (isDarkMode w);
           m_description := description pg |} in
      (settingsPage, setToolbar toolbar d)
  end.

(** The constructor's loop over the pages, toolbar branch. *)
Definition addPages (pages : list PagePtr) (d : SettingsDialog) (w : World P)
  : SettingsDialog :=
  foldl (fun d page =>
           let '(settingsPage, d) := addPage page d w in
           setPages (<[m_toolbarItem settingsPage := settingsPage]> (m_pages d)) d)
        d pages.

Definition emptyDialog (w : World P) : SettingsDialog :=
  {| m_toolbar := []; m_pages := ∅; m_currentPage := None;
     m_animationGroup := None; m_maximumWidth := 0; containersCreated := 0;
     dialogSize := mkQSize 0 0; minimumSize := mkQSize 0 0;
     maximumSize := mkQSize 0 0; windowTitle := "";
     styleSheet := updateStyleSheet ThemeStylesheet (isDarkMode w);
     animationCalls := [] |}.

(** The constructor, toolbar branch.  [m_pages.first()] of an empty map is
    undefined, so the constructor gives no dialog for an empty list. *)
Definition construct (pages : list PagePtr) (w : World P) : option SettingsDialog :=
  let d := addPages pages (emptyDialog w) w in
  let size :=
    foldl (fun size page =>
             mkQSize (Z.max (width (containerSizeHint (m_widget page))) (width size))
                     (Z.max (height (containerSizeHint (m_widget page))) (height size)))
          (mkQSize DefaultMinimumWidth 0) (values (m_pages d)) in
  let d := setMaximumWidth (width size) d in
  let maximumHeight := 0 in
  match entries (m_pages d) with
  | [] => None
  | (key, first) :: _ =>
      let d := setCurrentPage (Some key) d in
      let d := setPages (<[key := setWidget (setOpacity 1 (m_widget first)) first]> (m_pages d)) d in
      let hint := containerSizeHint (m_widget first) in
      let d := setMinimumSize (mkQSize (m_maximumWidth d) (height hint)) d in
      let d := setMaximumSize (mkQSize (m_maximumWidth d) (height hint)) d in
      let maximumHeight :=
        if height hint >? maximumHeight then height hint else maximumHeight in
      let d := setWindowTitle (m_name first) d in
      Some (resize (mkQSize (m_maximumWidth d) maximumHeight) d)
  end.

(** The handler of a toolbar item's [activated] signal.  An item that is no
    key of [m_pages] has no handler.  [None] stands for the dereference of a
    pointer that [m_pages] does not hold. *)
Definition activated (item : ItemPtr) (d : SettingsDialog) : option SettingsDialog :=
  match m_pages d !! item with
  | None => Some d
  | Some settingsPage =>
      match m_currentPage d with
      | None =>
          let container := setOpacity 1 (m_widget settingsPage) in
          let d := setCurrentPage (Some item) d in
          let d := setPages (<[item := setWidget container settingsPage]> (m_pages d)) d in
          let d := resize (containerSizeHint container) d in
          Some (setWindowTitle (m_name settingsPage) d)
      | Some current =>
          currentPage ← m_pages d !! current;
          currentEntry ← m_pages d !! m_toolbarItem currentPage;
          let currentItem := m_widget currentEntry in
          let nextItem := m_widget settingsPage in
          if decide (address currentItem = address nextItem) then Some d
          else
            let d :=
              match m_animationGroup d with
              | Some running => logAnimationCall (GroupStopped running) d
              | None => d
              end in
            let minSize := mkQSize (m_maximumWidth d) (height (containerSizeHint nextItem)) in
            let sizeAnimations :=
              map (fun property =>
                     {| target := DialogProperty property;
                        duration := TransisionDuration;
                        startValue := SizeValue (size currentItem);
                        endValue := SizeValue minSize |})
                  ["size"; "minimumSize"; "maximumSize"]%string in
            let outgoingAnimation :=
              {| target := EffectOpacity (address currentItem);
                 duration := TransisionDuration;
                 startValue := RealValue (opacity currentItem);
                 endValue := RealValue AlphaTransparent |} in
            let incomingAnimation :=
              {| target := EffectOpacity (address nextItem);
                 duration := TransisionDuration;
                 startValue := RealValue (opacity nextItem);
                 endValue := RealValue AlphaOpaque |} in
            let group :=
              {| animations := sizeAnimations ++ [outgoingAnimation; incomingAnimation];
                 finishedPage := item |} in
            let d := setAnimationGroup (Some group) d in
            let d := logAnimationCall (GroupStarted group) d in
            Some (setCurrentPage (Some item) d)
      end
  end.

(** An animation that runs to its end leaves its property at the end
    value. *)
Definition setContainerOpacity (container : nat) (value : Qc) (d : SettingsDialog)
  : SettingsDialog :=
  setPages ((fun page =>
               if decide (address (m_widget page) = container)
               then setWidget (setOpacity value (m_widget page)) page
               else page) <$> m_pages d) d.

Definition finishAnimation (d : SettingsDialog) (animation : QPropertyAnimation)
  : SettingsDialog :=
  match target animation, endValue animation with
  | DialogProperty name, SizeValue s =>
      if decide (name = "size"%string) then resize s d
      else if decide (name = "minimumSize"%string) then setMinimumSize s d
      else if decide (name = "maximumSize"%string) then setMaximumSize s d
      else d
  | EffectOpacity container, RealValue value => setContainerOpacity container value d
  | _, _ => d
  end.

(** The running group comes to its end: its animations leave their end
    values, and the handler of its [finished] signal runs.  (A group that is
    stopped before its end leaves the properties where they are; the values
    in between are not modelled.) *)
Definition animationFinished (d : SettingsDialog) : option SettingsDialog :=
  match m_animationGroup d with
  | None => Some d
  | Some group =>
      let d := foldl finishAnimation d (animations group) in
      settingsPage ← m_pages d !! finishedPage group;
      let d := setAnimationGroup None d in
      Some (setWindowTitle (m_name settingsPage) d)
  end.

(** [MacToolbarItem::setIcon] on the item at an address *)
Definition setIcon (item : ItemPtr) (icon : QIcon)
    (toolbar : list (ItemPtr * MacToolbarItem)) : list (ItemPtr * MacToolbarItem) :=
  (fun entry =>
     if decide (entry.1 = item)
     then (entry.1, {| toolbarIcon := icon; toolbarLabel := toolbarLabel entry.2 |})
     else entry) <$> toolbar.

(** The handler of the theme service's [themeChanged] signal, toolbar
    branch.  The colour of the title bar belongs to the platform helper and
    is left out. *)
Definition themeChanged (d : SettingsDialog) (w : World P) : SettingsDialog :=
  let d := setStyleSheet (updateStyleSheet ThemeStylesheet (isDarkMode w)) d in
  foldl (fun d settingsPage =>
           match m_pageSettings settingsPage with
           | [] => d
           | first :: _ =>
               setToolbar (setIcon (m_toolbarItem settingsPage)
                                   (icon (heap w first) (isDarkMode w))
                                   (m_toolbar d)) d
           end)
        d (values (m_pages d)).

(** [SettingsDialog::resizeEvent], toolbar branch *)
Definition resizeEvent (s : QSize) (d : SettingsDialog) : SettingsDialog :=
  setPages ((fun page => setWidget (resizeContainer s (m_widget page)) page) <$> m_pages d) d.

(** [SettingsDialog::okToClose], toolbar branch: the loop over the pages is
    compiled out. *)
Definition okToClose (d : SettingsDialog) (w : World P) : bool := true.

(** [SettingsDialog::closeEvent] *)
Definition closeEvent (event : QCloseEvent) (d : SettingsDialog) (w : World P)
  : QCloseEvent * World P :=
  if okToClose d w then (accept event, emitClosed w)
  else (ignore event, w).

(** [SettingsDialog::acceptSettings], toolbar branch.  In the first pair of
    loops [break] leaves the inner loop only. *)
Fixpoint sectionsValid_loop (sections : list PagePtr) (settingsValid : bool)
    (w : World P) : bool :=
  match sections with
  | [] => settingsValid
  | section :: rest =>
      if negb (callCanAcceptSettings section w) then false
      else sectionsValid_loop rest settingsValid w
  end.

Fixpoint settingsValid_loop (pages : list SettingsPage) (settingsValid : bool)
    (w : World P) : bool :=
  match pages with
  | [] => settingsValid
  | page :: rest =>
      settingsValid_loop rest (sectionsValid_loop (m_pageSettings page) settingsValid w) w
  end.

Fixpoint acceptSections_loop (sections : list PagePtr) (w : World P) : World P :=
  match sections with
  | [] => w
  | section :: rest => acceptSections_loop rest (callAcceptSettings section w)
  end.

Fixpoint acceptSettings_loop (pages : list SettingsPage) (w : World P) : World P :=
  match pages with
  | [] => w
  | page :: rest => acceptSettings_loop rest (acceptSections_loop (m_pageSettings page) w)
  end.

Definition acceptSettings (d : SettingsDialog) (w : World P) : bool * World P :=
  let settingsValid := settingsValid_loop (values (m_pages d)) true w in
  if negb settingsValid then
    (false, w)
  else
    (true, acceptSettings_loop (values (m_pages d)) w).

(** [SettingsDialog::sizeHint] *)
Definition sizeHint (d : SettingsDialog) : option QSize :=
  match m_currentPage d with
  | Some current =>
      currentPage ← m_pages d !! current;
      Some (containerSizeHint (m_widget currentPage))
  | None => Some baseSizeHint
  end.

(** What can happen to a dialog that has been constructed. *)
Inductive Event :=
| Activated (item : ItemPtr)
| AnimationFinished
| Resized (s : QSize)
| ThemeChanged (isDarkMode : bool)
| CloseRequested.

Definition handle (e : Event) (d : SettingsDialog) (w : World P)
  : option (SettingsDialog * World P) :=
  match e with
  | Activated item => d ← activated item d; Some (d, w)
  | AnimationFinished => d ← animationFinished d; Some (d, w)
  | Resized s => Some (resizeEvent s d, w)
  | ThemeChanged isDarkMode =>
      let w := {| heap := heap w; acceptCalls := acceptCalls w;
                  closedEmitted := closedEmitted w; isDarkMode := isDarkMode |} in
      Some (themeChanged d w, w)
  | CloseRequested =>
      Some (d, (closeEvent {| isAccepted := true |} d w).2)
  end.

Definition run (events : list Event) (d : SettingsDialog) (w : World P)
  : option (SettingsDialog * World P) :=
  foldl (fun s e => s ← s; handle e s.1 s.2) (Some (d, w)) events.

End MacLayout.
End Mac.

(** ** A sample page implementation and toolkit

    Used to evaluate the dialog on concrete inputs. *)

Record SamplePage := {
  sampleSection : string;
  sampleCategory : string;
  sampleWidget : QWidgetPtr;
  sampleValid : bool;
  sampleEdited : Z;
  sampleSaved : Z
}.

#[global] Instance SamplePage_page : ISettingsPage SamplePage := {|
  section := sampleSection;
  category := sampleCategory;
  description := sampleSection;
  icon := fun _ dark => if dark then 1%nat else 0%nat;
  createWidget := sampleWidget;
  canAcceptSettings := sampleValid;
  acceptSettings := fun p =>
    {| sampleSection := sampleSection p; sampleCategory := sampleCategory p;
       sampleWidget := sampleWidget p; sampleValid := sampleValid p;
       sampleEdited := sampleEdited p; sampleSaved := sampleEdited p |}
|}.

Definition samplePage (sec cat : string) (widget : QWidgetPtr) (valid : bool) : SamplePage :=
  {| sampleSection := sec; sampleCategory := cat; sampleWidget := widget;
     sampleValid := valid; sampleEdited := 1; sampleSaved := 0 |}.

(** A world whose page objects are those of a list, a page's address being
    its index. *)
Definition sampleWorld (pages : list SamplePage) : World SamplePage :=
  {| heap := fun p => nth p pages (samplePage "" "" 0%nat true);
     acceptCalls := [];
     closedEmitted := 0%nat;
     isDarkMode := false |}.

(** A toolkit in which the page widget [n] asks for the size [100 n] by [50],
    a separator for no room, and a container for the width of its widest
    child and the sum of the heights. *)
Definition sampleChildHint (c : Mac.Child) : QSize :=
  match c with
  | Mac.SeparatorWidget => mkQSize 0 0
  | Mac.PageWidget n => mkQSize (100 * Z.of_nat n) 50
  end.

#[global] Instance sampleToolkit : Mac.Toolkit := {|
  Mac.itemAddress := fun n => n;
  Mac.layoutSizeHint := fun children =>
    foldr (fun c s => mkQSize (Z.max (width (sampleChildHint c)) (width s))
                              (height (sampleChildHint c) + height s))
          (mkQSize 0 0) children;
  Mac.baseSizeHint := mkQSize 640 480
|}.

(** Three valid pages in two sections, one page that cannot accept its
    values, and the toolbar dialog built from the three. *)
Definition samplePages : list SamplePage :=
  [samplePage "General" "a" 5%nat true; samplePage "Net" "b" 2%nat true;
   samplePage "General" "c" 3%nat true].

Definition invalidPages : list SamplePage :=
  [samplePage "General" "a" 5%nat false].

Definition sampleMacDialog : Mac.SettingsDialog :=
  default (Mac.emptyDialog (sampleWorld samplePages))
          (Mac.construct [0; 1; 2]%nat (sampleWorld samplePages)).

(** ** Vocabulary of the statements *)

(** [separates a q]: no occurrence of [q] can end inside a copy of [a] or
    run over one, because [a] lacks the last character of [q] and has a
    character that [q] lacks. *)
Definition separates (a q : QString.QString) : Prop :=
  (forall x, last q = Some x -> x ∉ a) /\ exists c, c ∈ a /\ c ∉ q.

Definition darkBackground : QString.QString :=
  QString.fromLatin1 "background-color: #282c29;".
Definition darkBaseBackground : QString.QString :=
  QString.fromLatin1 "background-color: #202421;".

(** A container's children when it shows the given page widgets: the
    widgets in order, with a separator between neighbours. *)
Fixpoint withSeparators (widgets : list QWidgetPtr) : list Mac.Child :=
  match widgets with
  | [] => []
  | widget :: rest =>
      Mac.PageWidget widget ::
      match rest with
      | [] => []
      | _ :: _ => Mac.SeparatorWidget :: withSeparators rest
      end
  end.


Section Vocabulary.
Context {P : Type} `{ISettingsPage P} `{Mac.Toolkit}.

(** The section of the page object at an address. *)
Definition sectionOf (w : World P) (page : PagePtr) : string := section (heap w page).

(** Every page of the list reports that it can accept its values. *)
Definition allCanAccept (w : World P) (pages : list PagePtr) : bool :=
  forallb (fun page => callCanAcceptSettings page w) pages.

(** [acceptSettings()] is invoked on the pages of the list, in that order. *)
Definition acceptAll (w : World P) (pages : list PagePtr) : World P :=
  foldl (fun w page => callAcceptSettings page w) w pages.

(** The widgets that the pages of a list hand out. *)
Definition pageWidgets (w : World P) (pages : list PagePtr) : list QWidgetPtr :=
  (fun page => createWidget (heap w page)) <$> pages.

(** The texts of the tree's top-level items, and the labels of the
    toolbar's items, in order. *)
Definition texts (d : Tree.SettingsDialog) : list string := Tree.text <$> Tree.m_treeWidget d.

Definition labels (d : Mac.SettingsDialog) : list string :=
  (fun item => Mac.toolbarLabel item.2) <$> Mac.m_toolbar d.

(** The first page's container made opaque. *)
Definition shown (sp : Mac.SettingsPage) : Mac.SettingsPage :=
  Mac.setWidget (Mac.setOpacity 1 (Mac.m_widget sp)) sp.

(** The pointers that the dialog holds point into [m_pages]. *)
Definition mac_wf (d : Mac.SettingsDialog) : Prop :=
  (forall k sp, Mac.m_pages d !! k = Some sp -> Mac.m_toolbarItem sp = k)
  /\ (forall current, Mac.m_currentPage d = Some current ->
        is_Some (Mac.m_pages d !! current))
  /\ (forall group, Mac.m_animationGroup d = Some group ->
        is_Some (Mac.m_pages d !! Mac.finishedPage group)).

(** The animation group that a switch from [currentItem] to [nextItem]
    starts. *)
Definition crossFade (d : Mac.SettingsDialog) (item : Mac.ItemPtr)
    (currentItem nextItem : Mac.TransparentWidget) : Mac.QParallelAnimationGroup :=
  let minSize :=
    mkQSize (Mac.m_maximumWidth d) (height (Mac.containerSizeHint nextItem)) in
  {| Mac.animations :=
       [ {| Mac.target := Mac.DialogProperty "size";
            Mac.duration := Mac.TransisionDuration;
            Mac.startValue := Mac.SizeValue (Mac.size currentItem);
            Mac.endValue := Mac.SizeValue minSize |};
         {| Mac.target := Mac.DialogProperty "minimumSize";
            Mac.duration := Mac.TransisionDuration;
            Mac.startValue := Mac.SizeValue (Mac.size currentItem);
            Mac.endValue := Mac.SizeValue minSize |};
         {| Mac.target := Mac.DialogProperty "maximumSize";
            Mac.duration := Mac.TransisionDuration;
            Mac.startValue := Mac.SizeValue (Mac.size currentItem);
            Mac.endValue := Mac.SizeValue minSize |};
         {| Mac.target := Mac.EffectOpacity (Mac.address currentItem);
            Mac.duration := Mac.TransisionDuration;
            Mac.startValue := Mac.RealValue (Mac.opacity currentItem);
            Mac.endValue := Mac.RealValue Mac.AlphaTransparent |};
         {| Mac.target := Mac.EffectOpacity (Mac.address nextItem);
            Mac.duration := Mac.TransisionDuration;
            Mac.startValue := Mac.RealValue (Mac.opacity nextItem);
            Mac.endValue := Mac.RealValue Mac.AlphaOpaque |} ];
     Mac.finishedPage := item |}.

(** The values at which the animations of the dialog's size, minimum size
    and maximum size end. *)
Definition sizeAnimationEnds (group : Mac.QParallelAnimationGroup) : list Mac.QVariant :=
  omap (fun animation =>
          match Mac.target animation with
          | Mac.DialogProperty _ => Some (Mac.endValue animation)
          | Mac.EffectOpacity _ => None
          end)
       (Mac.animations group).

(** *** What the constructors' loops keep true *)

(** What the constructor's loop keeps true of the pages taken so far. *)
Definition tree_grouped (w : World P) (pages : list PagePtr)
    (d : Tree.SettingsDialog) : Prop :=
  NoDup (texts d)
  /\ (forall s, s ∈ texts d <-> exists page, page ∈ pages /\ sectionOf w page = s)
  /\ (forall page, page ∈ pages ->
        exists item, item ∈ Tree.m_treeWidget d
          /\ Tree.text item = sectionOf w page
          /\ (createWidget (heap w page), category (heap w page))
               ∈ Tree.tabs (Tree.userData item)).

(** One turn of the toolbar constructor's loop, the container after a page
    widget has been put in, and the [SettingsPage] objects that a turn
    leaves. *)
Definition mac_step (w : World P) (d : Mac.SettingsDialog) (page : PagePtr) : Mac.SettingsDialog :=
  let '(settingsPage, d) := Mac.addPage page d w in
  Mac.setPages (<[Mac.m_toolbarItem settingsPage := settingsPage]> (Mac.m_pages d)) d.

Definition withPage (widget : QWidgetPtr) (c : Mac.TransparentWidget)
  : Mac.TransparentWidget :=
  Mac.addWidget (Mac.PageWidget widget)
    (if decide (Mac.count c <> 0%nat) then Mac.addWidget Mac.SeparatorWidget c else c).

Definition extended (w : World P) (page : PagePtr) (sp : Mac.SettingsPage) : Mac.SettingsPage :=
  Mac.appendPageSettings page
    (Mac.setWidget (withPage (createWidget (heap w page)) (Mac.m_widget sp)) sp).

Definition created (w : World P) (page : PagePtr) (d : Mac.SettingsDialog) : Mac.SettingsPage :=
  {| Mac.m_name := sectionOf w page;
     Mac.m_widget :=
       withPage (createWidget (heap w page))
         (Mac.newTransparentWidget (Mac.containersCreated d) 0);
     Mac.m_pageSettings := [page];
     Mac.m_toolbarItem := Mac.itemAddress (length (Mac.m_toolbar d));
     Mac.m_icon := icon (heap w page) (isDarkMode w);
     Mac.m_description := description (heap w page) |}.

Record mac_grouped (w : World P) (pages : list PagePtr)
    (d : Mac.SettingsDialog) : Prop := {
  mg_nodup : NoDup (labels d);
  mg_labels : forall s,
    s ∈ labels d <-> exists page, page ∈ pages /\ sectionOf w page = s;
  mg_toolbar : forall i k item,
    Mac.m_toolbar d !! i = Some (k, item) ->
    k = Mac.itemAddress i
    /\ exists sp, Mac.m_pages d !! k = Some sp /\ Mac.m_name sp = Mac.toolbarLabel item;
  mg_pages : forall k sp,
    Mac.m_pages d !! k = Some sp ->
    Mac.m_toolbarItem sp = k
    /\ exists i item, Mac.m_toolbar d !! i = Some (k, item)
         /\ Mac.toolbarLabel item = Mac.m_name sp;
  mg_group : forall k sp,
    Mac.m_pages d !! k = Some sp ->
    Mac.m_pageSettings sp <> []
    /\ (forall page, page ∈ Mac.m_pageSettings sp ->
          page ∈ pages /\ sectionOf w page = Mac.m_name sp)
    /\ Mac.children (Mac.m_widget sp)
       = withSeparators (pageWidgets w (Mac.m_pageSettings sp));
  mg_placed : forall page,
    page ∈ pages ->
    exists k sp, Mac.m_pages d !! k = Some sp
      /\ Mac.m_name sp = sectionOf w page /\ page ∈ Mac.m_pageSettings sp;
  mg_all : concat (Mac.m_pageSettings <$> Mac.values (Mac.m_pages d)) ≡ₚ pages
}.

End Vocabulary.

(** ** The separator widget *)

Module Separator.

(** The toolkit's rectangle: its four edges, [right] and [bottom] being the
    last column and row inside. *)
Record QRect := { left : Z; top : Z; right : Z; bottom : Z }.

(** [QWidget::rect()] of a widget of the given size *)
Definition rect (width height : Z) : QRect :=
  {| left := 0; top := 0; right := width - 1; bottom := height - 1 |}.

(** [QRect::center()]; the division of the language rounds towards zero. *)
Definition center (r : QRect) : Z * Z :=
  (Z.quot (left r + right r) 2, Z.quot (top r + bottom r) 2).

(** [qRgb(r, g, b)]: an opaque colour as [0xffRRGGBB]. *)
Definition qRgb (r g b : Z) : Z :=
  Z.lor (Z.shiftl 255 24)
    (Z.lor (Z.shiftl (Z.land r 255) 16)
       (Z.lor (Z.shiftl (Z.land g 255) 8) (Z.land b 255))).

Definition LineMargin : Z := 25.
Definition LineColour : Z := qRgb 96 96 96.

(** What the painter is asked to draw. *)
Record Line := {
  pen : Z;
  x1 : Z; y1 : Z;
  x2 : Z; y2 : Z
}.

(** [SeparatorWidget::paintEvent] on a widget of the given size *)
Definition paintEvent (width height : Z) : Line :=
  let centrePoint := center (rect width height) in
  {| pen := LineColour;
     x1 := left (rect width height) + LineMargin;
     y1 := centrePoint.2;
     x2 := right (rect width height) - LineMargin;
     y2 := centrePoint.2 |}.

End Separator.

(** ** The width of the tree (tree-list constructor) *)

Definition SettingsIconSize : Z := 32.

(** The constructor's loop over the top-level items, once the pages are in.
    [boundingWidth] is the width of [QFontMetrics::boundingRect] of a text in
    the tree's font.  The source computes in [int]; the sums here are those
    of the source as long as they stay within its range. *)
Definition listWidth (boundingWidth : string -> Z) (d : Tree.SettingsDialog) : Z :=
  foldl (fun listWidth item =>
           let width := boundingWidth (Tree.text item) in
           if width >? listWidth then width else listWidth)
        0 (Tree.m_treeWidget d).

(** The value given to both [setMinimumWidth] and [setMaximumWidth] of the
    tree. *)
Definition treeWidgetWidth (boundingWidth : string -> Z) (d : Tree.SettingsDialog) : Z :=
  listWidth boundingWidth d + SettingsIconSize * 2.

(** ** Further vocabulary *)

(** The values of a list, each once, in the order in which they first
    appear. *)
Fixpoint firstOccurrences (l : list string) : list string :=
  match l with
  | [] => []
  | x :: rest => x :: filter (fun y => y <> x) (firstOccurrences rest)
  end.

Section Vocabulary2.
Context {P : Type} `{ISettingsPage P} `{Mac.Toolkit}.

(** The pages of a list that belong to a section, in the order of the
    list. *)
Definition pagesOfSection (w : World P) (s : string) (pages : list PagePtr)
  : list PagePtr :=
  filter (fun page => sectionOf w page = s) pages.

(** The [SettingsPage] that the tree-list layout keeps for a page, and the
    tab it gives the page. *)
Definition treePage (w : World P) (page : PagePtr) : Tree.SettingsPage :=
  {| Tree.m_name := section (heap w page);
     Tree.m_widget := createWidget (heap w page);
     Tree.m_pageSettings := page;
     Tree.m_icon := icon (heap w page) false;
     Tree.m_description := description (heap w page) |}.

Definition tabOf (w : World P) (page : PagePtr) : QWidgetPtr * string :=
  (createWidget (heap w page), category (heap w page)).

(** What the tree-list constructor's loop keeps true of every item. *)
Definition tree_items_ok (w : World P) (pages : list PagePtr)
    (d : Tree.SettingsDialog) : Prop :=
  forall item, item ∈ Tree.m_treeWidget d ->
    Tree.tabs (Tree.userData item) = tabOf w <$> pagesOfSection w (Tree.text item) pages
    /\ head (pagesOfSection w (Tree.text item) pages) = Some (Tree.itemPage item)
    /\ Tree.itemIcon item = icon (heap w (Tree.itemPage item)) (isDarkMode w)
    /\ Tree.toolTip item = description (heap w (Tree.itemPage item))
    /\ Tree.tabStyleSheet (Tree.userData item)
       = updateStyleSheet ThemeSubStylesheet (isDarkMode w).

(** The parts of a tree item that no event changes. *)
Definition itemStructure (item : Tree.QTreeWidgetItem)
  : string * list (QWidgetPtr * string) * string * PagePtr :=
  (Tree.text item, Tree.tabs (Tree.userData item), Tree.toolTip item,
   Tree.itemPage item).

(** The parts of a tree-list dialog that no event changes. *)
Definition treeStructure (d : Tree.SettingsDialog) :=
  (Tree.m_pages d, Tree.settingsChangedConnections d, Tree.m_currentPage d,
   Tree.m_stackedWidget d, itemStructure <$> Tree.m_treeWidget d).

End Vocabulary2.

(** ** Vocabulary of the toolbar layout, further *)

(** The parts of a section's page that no event changes. *)
Definition pageStructure (sp : Mac.SettingsPage) :=
  (Mac.m_name sp, Mac.address (Mac.m_widget sp), Mac.children (Mac.m_widget sp),
   Mac.m_pageSettings sp, Mac.m_toolbarItem sp, Mac.m_icon sp, Mac.m_description sp).

(** The parts of a toolbar dialog that no event changes. *)
Definition macStructure (d : Mac.SettingsDialog) :=
  ((fun item : Mac.ItemPtr * Mac.MacToolbarItem => (item.1, Mac.toolbarLabel item.2))
     <$> Mac.m_toolbar d,
   pageStructure <$> Mac.m_pages d, Mac.m_maximumWidth d, Mac.containersCreated d).

(** No two sections share a container. *)
Definition mac_distinct (d : Mac.SettingsDialog) : Prop :=
  forall k1 k2 sp1 sp2,
    Mac.m_pages d !! k1 = Some sp1 -> Mac.m_pages d !! k2 = Some sp2 ->
    Mac.address (Mac.m_widget sp1) = Mac.address (Mac.m_widget sp2) -> k1 = k2.

(** Every container is transparent and has not been given a size. *)
Definition mac_hidden (d : Mac.SettingsDialog) : Prop :=
  forall k sp, Mac.m_pages d !! k = Some sp ->
    Mac.opacity (Mac.m_widget sp) = 0%Qc /\ Mac.size (Mac.m_widget sp) = mkQSize 0 0.

Section Vocabulary3.
Context {P : Type} `{ISettingsPage P} `{Mac.Toolkit}.

(** What the toolbar constructor's loop keeps true of the sections. *)
Record mac_sections (w : World P) (pages : list PagePtr)
    (d : Mac.SettingsDialog) : Prop := {
  ms_labels : labels d = firstOccurrences (sectionOf w <$> pages);
  ms_icons : forall item, item ∈ Mac.m_toolbar d ->
    exists first,
      head (pagesOfSection w (Mac.toolbarLabel item.2) pages) = Some first
      /\ Mac.toolbarIcon item.2 = icon (heap w first) (isDarkMode w);
  ms_settings : forall k sp, Mac.m_pages d !! k = Some sp ->
    Mac.m_pageSettings sp = pagesOfSection w (Mac.m_name sp) pages
    /\ exists first, head (Mac.m_pageSettings sp) = Some first
         /\ Mac.m_icon sp = icon (heap w first) (isDarkMode w)
         /\ Mac.m_description sp = description (heap w first);
  ms_address : forall k sp, Mac.m_pages d !! k = Some sp ->
    (Mac.address (Mac.m_widget sp) < Mac.containersCreated d)%nat;
  ms_distinct : mac_distinct d
}.

End Vocabulary3.

(** * Properties *)

(** ** Replacement in strings *)

Section QStringFacts.
Import QString.
Implicit Types s p q a b t : QString.

Lemma startsWith_nil s : startsWith s [] = true.
Proof. by destruct s. Qed.

Lemma startsWith_cons c s y q :
  startsWith (c :: s) (y :: q) = true <-> y = c /\ startsWith s q = true.
Proof.
  simpl. destruct (Ascii.eqb y c) eqn:E.
  - apply Ascii.eqb_eq in E. split; [by intros | by intros [_ ?]].
  - apply Ascii.eqb_neq in E. split; [done | by intros [? _]].
Qed.

Lemma startsWith_app p r : startsWith (p ++ r) p = true.
Proof.
  induction p as [|y p IH]; simpl; [apply startsWith_nil|].
  by rewrite Ascii.eqb_refl.
Qed.

Lemma startsWith_prefix s p : startsWith s p = true <-> p `prefix_of` s.
Proof.
  revert s. induction p as [|y p IH]; intros s.
  - rewrite startsWith_nil. split; [intros _; apply prefix_nil | done].
  - destruct s as [|c s].
    + split; [done | intros Hp; by apply prefix_nil_inv in Hp].
    + rewrite startsWith_cons, IH. split.
      * intros [-> Hp]. by apply prefix_cons.
      * intros Hp. split; [by apply prefix_cons_inv_1 in Hp | by apply prefix_cons_inv_2 in Hp].
Qed.

Lemma contains_cons c s p :
  contains (c :: s) p = startsWith (c :: s) p || contains s p.
Proof. done. Qed.

Lemma contains_here s p : startsWith s p = true -> contains s p = true.
Proof. intros Hp. destruct s; simpl in *; rewrite Hp; done. Qed.

Lemma contains_later c s p : contains s p = true -> contains (c :: s) p = true.
Proof. intros Hp. rewrite contains_cons, Hp. apply orb_true_r. Qed.

Lemma contains_drop k s p : contains (drop k s) p = true -> contains s p = true.
Proof.
  revert s. induction k as [|k IH]; intros s; [by rewrite drop_0|].
  destruct s as [|c s]; [done|]. simpl. intros Hp. by apply contains_later, IH.
Qed.

(** An occurrence is a place where the pattern sits between two pieces. *)
Lemma contains_occurrence s p :
  contains s p = true <-> exists l r, s = l ++ p ++ r.
Proof.
  split.
  - induction s as [|c s IH].
    + cbn [contains]. rewrite orb_false_r. intros Hp.
      apply startsWith_prefix in Hp as [r Hr]. by exists [], r.
    + rewrite contains_cons. intros [Hp|Hp]%orb_true_iff.
      * apply startsWith_prefix in Hp as [r Hr]. by exists [], r.
      * destruct (IH Hp) as (l & r & ->). by exists (c :: l), r.
  - intros (l & r & ->). induction l as [|c l IH].
    + apply contains_here. simpl. apply startsWith_app.
    + by apply contains_later.
Qed.

(** Inside an occurrence that is being replaced, the characters are dropped. *)
Lemma replace_from_drop k b a s :
  b <> [] -> replace_from k b a s = replace b a (drop k s).
Proof.
  intros Hb. revert s. induction k as [|k IH]; intros s.
  - by rewrite drop_0.
  - destruct s as [|c s]; simpl.
    + unfold replace. simpl. by destruct b.
    + apply IH.
Qed.

Lemma replace_nil b a : b <> [] -> replace b a [] = [].
Proof. by destruct b. Qed.

Lemma replace_match c s y b a :
  startsWith (c :: s) (y :: b) = true ->
  replace (y :: b) a (c :: s) = a ++ replace (y :: b) a (drop (length b) s).
Proof.
  intros Hm. unfold replace at 1. cbn [replace_from]. rewrite Hm.
  by rewrite replace_from_drop.
Qed.

Lemma replace_skip c s b a :
  startsWith (c :: s) b = false ->
  replace b a (c :: s) = c :: replace b a s.
Proof. intros Hm. unfold replace. cbn [replace_from]. by rewrite Hm. Qed.

(** A string without occurrence of the pattern is left as it is. *)
Lemma replace_absent b a s :
  b <> [] -> contains s b = false -> replace b a s = s.
Proof.
  intros Hb. induction s as [|c s IH]; [intros _; by apply replace_nil|].
  rewrite contains_cons. intros [Hm Hs]%orb_false_iff.
  rewrite replace_skip by done. by rewrite IH.
Qed.


Lemma separates_tail a y q : separates a (y :: q) -> separates a q.
Proof.
  intros [Hl (c & Hc & Hq)]. split.
  - intros x Hx. apply Hl. destruct q; [done | by rewrite last_cons, Hx].
  - exists c. split; [done|]. intros ?. apply Hq. by right.
Qed.

Lemma separates_startsWith a q t :
  separates a q -> q <> [] -> startsWith (a ++ t) q = false.
Proof.
  revert q. induction a as [|x a IH]; intros q Hsep Hq.
  - destruct Hsep as [_ (c & Hc & _)]. by apply elem_of_nil in Hc.
  - destruct q as [|y q]; [done|].
    apply not_true_is_false. intros [-> Hm]%startsWith_cons.
    destruct (decide (q = [])) as [->|Hq'].
    + destruct Hsep as [Hl _]. apply (Hl x); [done | by left].
    + rewrite IH in Hm; [done| |done].
      destruct Hsep as [Hl (c & Hc & Hcq)]. split.
      * intros z Hz. intros Hza. apply (Hl z); [|by right].
        destruct q; [done | by rewrite last_cons, Hz].
      * exists c. split.
        -- apply elem_of_cons in Hc as [->|Hc]; [|done]. exfalso. apply Hcq. by left.
        -- intros ?. apply Hcq. by right.
Qed.

(** A prefix of the result that the replacement text separates is a prefix
    of the input. *)
Lemma replace_startsWith b a q s :
  b <> [] -> separates a q ->
  startsWith (replace b a s) q = true -> startsWith s q = true.
Proof.
  intros Hb. revert q. induction s as [|c s IH]; intros q Hsep.
  - by rewrite replace_nil.
  - destruct q as [|y q]; [done|].
    destruct (startsWith (c :: s) b) eqn:Hm.
    + destruct b as [|b0 b]; [done|]. rewrite replace_match by done.
      by rewrite separates_startsWith.
    + rewrite replace_skip by done. rewrite !startsWith_cons.
      intros [-> Hq]. split; [done|]. apply IH; [|done].
      by eapply separates_tail.
Qed.

Lemma contains_after a t p :
  p <> [] -> (forall x, head p = Some x -> x ∉ a) ->
  contains (a ++ t) p = true -> contains t p = true.
Proof.
  intros Hp Hh. induction a as [|x a IH]; [done|].
  rewrite <-app_comm_cons, contains_cons. intros [Hm|Hm]%orb_true_iff.
  - destruct p as [|y p]; [done|]. apply startsWith_cons in Hm as [-> _].
    exfalso. apply (Hh x); [done | by left].
  - apply IH; [|done]. intros z Hz Hza. apply (Hh z); [done | by right].
Qed.

Section Separated.
Variables (b a p : QString).
Hypothesis Hb : b <> [].
Hypothesis Hp : p <> [].
Hypothesis Hhead : forall x, head p = Some x -> x ∉ a.
Hypothesis Hsep : separates a p.

(** The replacement brings no new occurrence of [p]. *)
Lemma replace_contains_len n s :
  (length s <= n)%nat ->
  contains (replace b a s) p = true -> contains s p = true.
Proof.
  revert s. induction n as [|n IH]; intros s Hn.
  - destruct s; [|simpl in Hn; lia]. by rewrite replace_nil.
  - destruct s as [|c s]; [by rewrite replace_nil|]. simpl in Hn.
    destruct (startsWith (c :: s) b) eqn:Hm.
    + destruct b as [|b0 b']; [done|]. rewrite replace_match by done.
      intros Hc%contains_after; [|done..].
      apply contains_later, (contains_drop (length b')), IH; [|done].
      rewrite length_drop. lia.
    + rewrite replace_skip by done. rewrite contains_cons.
      intros [Hc|Hc]%orb_true_iff.
      * apply contains_here, (replace_startsWith b a); [done..|].
        by rewrite replace_skip.
      * apply contains_later, IH; [lia | done].
Qed.

Lemma replace_contains s :
  contains (replace b a s) p = true -> contains s p = true.
Proof. by apply (replace_contains_len (length s)). Qed.

End Separated.

(** After the replacement the pattern itself occurs no more. *)
Lemma replace_removes b a s :
  b <> [] -> (forall x, head b = Some x -> x ∉ a) -> separates a b ->
  contains (replace b a s) b = false.
Proof.
  intros Hb Hh Hsep. remember (length s) as n eqn:Hn.
  assert (length s <= n)%nat as Hle by lia. clear Hn.
  revert s Hle. induction n as [|n IH]; intros s Hn.
  - destruct s; [|simpl in Hn; lia]. rewrite replace_nil by done.
    simpl. destruct b; [done | by rewrite orb_false_r].
  - destruct s as [|c s].
    { rewrite replace_nil by done. simpl. destruct b; [done | by rewrite orb_false_r]. }
    simpl in Hn. apply not_true_is_false. destruct (startsWith (c :: s) b) eqn:Hm.
    + destruct b as [|b0 b']; [done|]. rewrite replace_match by done.
      intros Hc%contains_after; [|done..].
      rewrite IH in Hc; [done|]. rewrite length_drop. lia.
    + rewrite replace_skip by done. rewrite contains_cons.
      intros [Hc|Hc]%orb_true_iff.
      * rewrite <-replace_skip with (a := a) in Hc by done.
        apply replace_startsWith in Hc; [|done..]. congruence.
      * rewrite IH in Hc; [done | lia].
Qed.

End QStringFacts.

(** ** updateStyleSheet *)

Section StyleSheetFacts.
Import QString.


Lemma placeholder_separated (a p : QString) (x y c : ascii) :
  head p = Some x -> last p = Some y ->
  x ∉ a -> y ∉ a -> c ∈ a -> c ∉ p ->
  (forall z, head p = Some z -> z ∉ a) /\ separates a p.
Proof.
  intros Hx Hy Hxa Hya Hca Hcp. split; [|split].
  - intros z Hz. congruence.
  - intros z Hz. congruence.
  - by exists c.
Qed.

Lemma dark_background_separated :
  (forall z, head backgroundColour = Some z -> z ∉ darkBackground)
  /\ separates darkBackground backgroundColour.
Proof.
  apply (placeholder_separated _ _ "["%char "]"%char ":"%char);
    first [reflexivity | apply (bool_decide_unpack _); vm_compute; exact I].
Qed.

Lemma dark_base_separated :
  (forall z, head baseBackgroundColour = Some z -> z ∉ darkBaseBackground)
  /\ separates darkBaseBackground baseBackgroundColour.
Proof.
  apply (placeholder_separated _ _ "["%char "]"%char ":"%char);
    first [reflexivity | apply (bool_decide_unpack _); vm_compute; exact I].
Qed.

Lemma dark_base_background_separated :
  (forall z, head backgroundColour = Some z -> z ∉ darkBaseBackground)
  /\ separates darkBaseBackground backgroundColour.
Proof.
  apply (placeholder_separated _ _ "["%char "]"%char ":"%char);
    first [reflexivity | apply (bool_decide_unpack _); vm_compute; exact I].
Qed.

Lemma updateStyleSheet_dark_clean styleSheet :
  contains (updateStyleSheet styleSheet true) backgroundColour = false
  /\ contains (updateStyleSheet styleSheet true) baseBackgroundColour = false.
Proof.
  unfold updateStyleSheet. split.
  - apply not_true_is_false. intros Hc.
    destruct dark_base_background_separated as [Hh Hs].
    apply (replace_contains baseBackgroundColour darkBaseBackground backgroundColour)
      in Hc; [|done..].
    destruct dark_background_separated as [Hh' Hs'].
    by rewrite (replace_removes backgroundColour darkBackground) in Hc.
  - destruct dark_base_separated as [Hh Hs].
    by apply (replace_removes baseBackgroundColour darkBaseBackground).
Qed.

(** A style sheet without placeholder is a fixed point, whatever the mode. *)
Lemma updateStyleSheet_fixed styleSheet isDarkMode :
  contains styleSheet backgroundColour = false ->
  contains styleSheet baseBackgroundColour = false ->
  updateStyleSheet styleSheet isDarkMode = styleSheet.
Proof.
  intros H1 H2. unfold updateStyleSheet.
  destruct isDarkMode; rewrite (replace_absent backgroundColour) by done;
    by rewrite (replace_absent baseBackgroundColour).
Qed.

End StyleSheetFacts.

(** ** Calls on the pages *)

Section PageCallFacts.
Context {P : Type} `{ISettingsPage P}.


Lemma allCanAccept_app w pages1 pages2 :
  allCanAccept w (pages1 ++ pages2) = allCanAccept w pages1 && allCanAccept w pages2.
Proof. apply forallb_app. Qed.

Lemma allCanAccept_Forall w pages :
  allCanAccept w pages = true
  <-> Forall (fun page => canAcceptSettings (heap w page) = true) pages.
Proof. unfold allCanAccept. rewrite forallb_forall, Forall_forall.
  split; intros Hall page Hp; apply Hall; by apply list_elem_of_In. Qed.

Lemma allCanAccept_perm w pages1 pages2 :
  pages1 ≡ₚ pages2 -> allCanAccept w pages1 = allCanAccept w pages2.
Proof.
  intros Hp. apply eq_true_iff_eq. rewrite !allCanAccept_Forall. by rewrite Hp.
Qed.

Lemma acceptAll_app w pages1 pages2 :
  acceptAll w (pages1 ++ pages2) = acceptAll (acceptAll w pages1) pages2.
Proof. apply foldl_app. Qed.

Lemma acceptAll_calls w pages :
  acceptCalls (acceptAll w pages) = acceptCalls w ++ pages
  /\ closedEmitted (acceptAll w pages) = closedEmitted w
  /\ isDarkMode (acceptAll w pages) = isDarkMode w.
Proof.
  revert w. induction pages as [|page pages IH]; intros w; simpl.
  - by rewrite app_nil_r.
  - destruct (IH (callAcceptSettings page w)) as (-> & -> & ->).
    simpl. by rewrite <-app_assoc.
Qed.

End PageCallFacts.

(** ** The tree-list layout *)

Section TreeFacts.
Context {P : Type} `{ISettingsPage P}.
Implicit Types (d : Tree.SettingsDialog) (w : World P) (page : PagePtr).


Lemma texts_setPages ps d : texts (Tree.setPages ps d) = texts d.
Proof. done. Qed.

Lemma tree_addPage_fields page d w :
  let d' := (Tree.addPage page d w).2 in
  Tree.m_pages d' = Tree.m_pages d
  /\ Tree.m_applyButton d' = Tree.m_applyButton d
  /\ Tree.settingsChangedConnections d' = Tree.settingsChangedConnections d
  /\ Tree.m_currentPage d' = Tree.m_currentPage d
  /\ Tree.isVisible d' = Tree.isVisible d.
Proof.
  unfold Tree.addPage.
  destruct (list_find _ _) as [[i item]|]; simpl; done.
Qed.

Lemma tree_addPage_page page d w :
  Tree.m_pageSettings (Tree.addPage page d w).1 = page.
Proof.
  unfold Tree.addPage.
  destruct (list_find _ _) as [[i item]|]; simpl; done.
Qed.

Lemma tree_addPages_snoc pages page d w :
  Tree.addPages (pages ++ [page]) d w =
  let d1 := Tree.addPages pages d w in
  let d2 := Tree.setConnections (Tree.settingsChangedConnections d1 ++ [page]) d1 in
  Tree.setPages (Tree.m_pages (Tree.addPage page d2 w).2 ++ [(Tree.addPage page d2 w).1])
    (Tree.addPage page d2 w).2.
Proof.
  unfold Tree.addPages. rewrite foldl_app. simpl.
  by destruct (Tree.addPage _ _ _).
Qed.

Lemma tree_addPages_fields pages d w :
  let d' := Tree.addPages pages d w in
  Tree.m_pageSettings <$> Tree.m_pages d' = (Tree.m_pageSettings <$> Tree.m_pages d) ++ pages
  /\ Tree.m_applyButton d' = Tree.m_applyButton d
  /\ Tree.settingsChangedConnections d' = Tree.settingsChangedConnections d ++ pages
  /\ Tree.m_currentPage d' = Tree.m_currentPage d
  /\ Tree.isVisible d' = Tree.isVisible d.
Proof.
  induction pages as [|page pages IH] using rev_ind.
  - simpl. by rewrite !app_nil_r.
  - rewrite tree_addPages_snoc. simpl in *.
    destruct IH as (IH1 & IH2 & IH3 & IH4 & IH5).
    match goal with |- context [Tree.addPage page ?d2 w] =>
      destruct (tree_addPage_fields page d2 w) as (A1 & A2 & A3 & A4 & A5);
      pose proof (tree_addPage_page page d2 w) as A6 end.
    simpl in *. rewrite A1, A2, A3, A4, A5. simpl.
    rewrite fmap_app, list_fmap_singleton, A6, IH1, IH2, IH3, IH4, IH5.
    by rewrite !app_assoc.
Qed.

Lemma tree_construct_fields pages w :
  let d := Tree.construct pages w in
  Tree.m_pageSettings <$> Tree.m_pages d = pages
  /\ Tree.m_applyButton d = false
  /\ Tree.settingsChangedConnections d = pages
  /\ Tree.m_currentPage d = None
  /\ Tree.isVisible d = false.
Proof. apply (tree_addPages_fields pages). Qed.


(** *** Grouping by section *)

Lemma tree_addPage_cases page d w :
  let pg := heap w page in
  let tree := Tree.m_treeWidget d in
  let tree' := Tree.m_treeWidget (Tree.addPage page d w).2 in
  (exists i item, tree !! i = Some item /\ Tree.text item = section pg
     /\ tree' = alter (Tree.addTab (createWidget pg) (category pg)) i tree)
  \/ ((section pg ∉ texts d)
      /\ exists item, Tree.text item = section pg
           /\ Tree.tabs (Tree.userData item) = [(createWidget pg, category pg)]
           /\ tree' = tree ++ [item]).
Proof.
  unfold Tree.addPage. destruct (list_find _ _) as [[i item]|] eqn:E; simpl.
  - apply list_find_Some in E as (Hi & Ht & _). left. by exists i, item.
  - apply list_find_None in E. right. split.
    + intros (item & Ht & Hitem)%list_elem_of_fmap.
      rewrite Forall_forall in E. by apply (E item).
    + eexists. split_and!; [| |rewrite alter_app_r_alt by done;
        rewrite Nat.sub_diag; simpl; reflexivity]; done.
Qed.

Lemma tree_addTab_text widget label item :
  Tree.text (Tree.addTab widget label item) = Tree.text item.
Proof. done. Qed.

Lemma tree_addPage_texts page d w :
  texts (Tree.addPage page d w).2 =
  if decide (sectionOf w page ∈ texts d) then texts d
  else texts d ++ [sectionOf w page].
Proof.
  unfold texts at 1, sectionOf.
  destruct (tree_addPage_cases page d w) as
    [(i & item & Hi & Ht & ->)|(Hnew & item & Ht & _ & ->)].
  - rewrite decide_True.
    + rewrite (list_fmap_alter _ _ id) by by apply Forall_true.
      by apply list_alter_id.
    + rewrite <-Ht. apply list_elem_of_fmap_2. by eapply list_elem_of_lookup_2.
  - rewrite decide_False by done. by rewrite fmap_app, list_fmap_singleton, Ht.
Qed.

Lemma tree_addPage_placed page d w :
  exists item, item ∈ Tree.m_treeWidget (Tree.addPage page d w).2
    /\ Tree.text item = sectionOf w page
    /\ (createWidget (heap w page), category (heap w page))
         ∈ Tree.tabs (Tree.userData item).
Proof.
  destruct (tree_addPage_cases page d w) as
    [(i & item & Hi & Ht & ->)|(Hnew & item & Ht & Htabs & ->)].
  - eexists. split_and!.
    + eapply list_elem_of_lookup_2. by rewrite list_lookup_alter_eq, Hi.
    + done.
    + simpl. apply elem_of_app. right. by left.
  - exists item. split_and!; [apply elem_of_app; right; by left | done |].
    rewrite Htabs. by left.
Qed.

Lemma tree_addPage_kept page d w item :
  item ∈ Tree.m_treeWidget d ->
  exists item', item' ∈ Tree.m_treeWidget (Tree.addPage page d w).2
    /\ Tree.text item' = Tree.text item
    /\ forall tab, tab ∈ Tree.tabs (Tree.userData item)
               -> tab ∈ Tree.tabs (Tree.userData item').
Proof.
  intros [j Hj]%list_elem_of_lookup_1.
  destruct (tree_addPage_cases page d w) as
    [(i & it & Hi & Ht & ->)|(Hnew & it & Ht & Htabs & ->)].
  - destruct (decide (i = j)) as [->|Hne].
    + eexists. split_and!.
      * eapply list_elem_of_lookup_2. by rewrite list_lookup_alter_eq, Hj.
      * done.
      * intros tab Htab. simpl. apply elem_of_app. by left.
    + exists item. split_and!; [|done..].
      eapply list_elem_of_lookup_2. by rewrite list_lookup_alter_ne.
  - exists item. split_and!; [|done..].
    apply elem_of_app. left. by eapply list_elem_of_lookup_2.
Qed.


Lemma tree_grouped_tree w pages d d' :
  Tree.m_treeWidget d' = Tree.m_treeWidget d ->
  tree_grouped w pages d -> tree_grouped w pages d'.
Proof. unfold tree_grouped, texts. by intros ->. Qed.

Lemma tree_grouped_addPage w pages page d :
  tree_grouped w pages d ->
  tree_grouped w (pages ++ [page]) (Tree.addPage page d w).2.
Proof.
  intros (Hnd & Hin & Hpl). split_and!.
  - rewrite tree_addPage_texts. case_decide; [done|].
    apply NoDup_app. split_and!; [done| |apply NoDup_singleton].
    intros s Hs Hs'%list_elem_of_singleton. by subst.
  - intros s. rewrite tree_addPage_texts. split.
    + intros Hs.
      assert (s ∈ texts d \/ s = sectionOf w page) as [Hs' | ->].
      { case_decide; [by left|].
        apply elem_of_app in Hs as [?|?%list_elem_of_singleton]; auto. }
      * apply Hin in Hs' as (p & Hp & <-). exists p. split; [|done].
        apply elem_of_app. by left.
      * exists page. split; [|done]. apply elem_of_app. right. by left.
    + intros (p & [Hp|Hp%list_elem_of_singleton]%elem_of_app & <-); [|subst p].
      * assert (sectionOf w p ∈ texts d) by (apply Hin; eauto).
        case_decide; [done|]. apply elem_of_app. by left.
      * case_decide; [done|]. apply elem_of_app. right. by left.
  - intros p [Hp|Hp%list_elem_of_singleton]%elem_of_app; [|subst p].
    + destruct (Hpl p Hp) as (item & Hitem & Ht & Htab).
      destruct (tree_addPage_kept page d w item Hitem) as (item' & ? & Ht' & Hk).
      exists item'. split_and!; [done|congruence|by apply Hk].
    + apply tree_addPage_placed.
Qed.

Lemma tree_addPages_grouped w pages0 pages d :
  tree_grouped w pages0 d ->
  tree_grouped w (pages0 ++ pages) (Tree.addPages pages d w).
Proof.
  intros Hd. induction pages as [|page pages IH] using rev_ind.
  - by rewrite app_nil_r.
  - rewrite tree_addPages_snoc, app_assoc. cbv zeta.
    eapply tree_grouped_tree; [|apply tree_grouped_addPage].
    + done.
    + eapply tree_grouped_tree; [|exact IH]. done.
Qed.

Lemma tree_construct_grouped w pages :
  tree_grouped w pages (Tree.construct pages w).
Proof.
  apply (tree_addPages_grouped w [] pages). split_and!.
  - apply NoDup_nil_2.
  - intros s. split; [by intros ?%elem_of_nil | by intros (? & ?%elem_of_nil & _)].
  - by intros ? ?%elem_of_nil.
Qed.

Lemma tree_construct_snoc_texts w pages page :
  texts (Tree.construct (pages ++ [page]) w) =
  if decide (sectionOf w page ∈ texts (Tree.construct pages w))
  then texts (Tree.construct pages w)
  else texts (Tree.construct pages w) ++ [sectionOf w page].
Proof.
  unfold Tree.construct. rewrite tree_addPages_snoc. cbv zeta.
  rewrite texts_setPages. by rewrite tree_addPage_texts.
Qed.


(** *** The loops over the pages *)

Lemma tree_okToClose_loop (pages : list Tree.SettingsPage) w :
  Tree.okToClose_loop pages w = allCanAccept w (Tree.m_pageSettings <$> pages).
Proof.
  induction pages as [|page pages IH]; [done|]. simpl.
  rewrite IH. by destruct (callCanAcceptSettings _ _).
Qed.

Lemma tree_settingsValid_loop (pages : list Tree.SettingsPage) w :
  Tree.settingsValid_loop pages true w = allCanAccept w (Tree.m_pageSettings <$> pages).
Proof.
  induction pages as [|page pages IH]; [done|]. simpl.
  rewrite IH. by destruct (callCanAcceptSettings _ _).
Qed.

Lemma tree_acceptSettings_loop (pages : list Tree.SettingsPage) w :
  Tree.acceptSettings_loop pages w = acceptAll w (Tree.m_pageSettings <$> pages).
Proof. revert w. induction pages as [|page pages IH]; intros w; [done|]. apply IH. Qed.

Lemma tree_okToClose_spec d w :
  Tree.okToClose d w = allCanAccept w (Tree.m_pageSettings <$> Tree.m_pages d).
Proof. apply tree_okToClose_loop. Qed.

Lemma tree_acceptSettings_spec d w :
  Tree.acceptSettings d w =
  if allCanAccept w (Tree.m_pageSettings <$> Tree.m_pages d)
  then (true, Tree.setApplyEnabled false d,
        acceptAll w (Tree.m_pageSettings <$> Tree.m_pages d))
  else (false, d, w).
Proof.
  unfold Tree.acceptSettings.
  rewrite tree_settingsValid_loop, tree_acceptSettings_loop.
  by destruct (allCanAccept _ _).
Qed.

Lemma tree_close_spec d w :
  Tree.close d w =
  if Tree.okToClose d w then (Tree.setVisible false d, emitClosed w) else (d, w).
Proof. unfold Tree.close, Tree.closeEvent. by destruct (Tree.okToClose d w). Qed.

(** *** The Apply button *)





Lemma tree_run_snoc events e d w :
  Tree.run (events ++ [e]) d w =
  Tree.handle e (Tree.run events d w).1 (Tree.run events d w).2.
Proof. unfold Tree.run. by rewrite foldl_app. Qed.



End TreeFacts.

(** ** The toolbar layout *)


Section MacFacts.
Context {P : Type} `{ISettingsPage P} `{Mac.Toolkit}.
Implicit Types (d : Mac.SettingsDialog) (w : World P) (page : PagePtr).
Implicit Types (m : gmap Mac.ItemPtr Mac.SettingsPage).

Lemma withSeparators_snoc widgets widget :
  widgets <> [] ->
  withSeparators (widgets ++ [widget]) =
  withSeparators widgets ++ [Mac.SeparatorWidget; Mac.PageWidget widget].
Proof.
  induction widgets as [|x [|y rest] IH]; intros Hne; [done|done|].
  change (withSeparators ((x :: y :: rest) ++ [widget]))
    with (Mac.PageWidget x :: Mac.SeparatorWidget :: withSeparators ((y :: rest) ++ [widget])).
  rewrite IH by done. done.
Qed.


Lemma withSeparators_elem widgets widget :
  widget ∈ widgets -> Mac.PageWidget widget ∈ withSeparators widgets.
Proof.
  induction widgets as [|x [|y rest] IH].
  - by intros ?%elem_of_nil.
  - intros ->%list_elem_of_singleton. by left.
  - intros [->|Hin]%elem_of_cons; [by left|].
    change (withSeparators (x :: y :: rest))
      with (Mac.PageWidget x :: Mac.SeparatorWidget :: withSeparators (y :: rest)).
    right. right. by apply IH.
Qed.

Lemma withSeparators_nil widgets : withSeparators widgets = [] -> widgets = [].
Proof. by destruct widgets. Qed.

(** *** Iterating over [m_pages] *)

Lemma elem_of_entries m k sp : (k, sp) ∈ Mac.entries m <-> m !! k = Some sp.
Proof.
  unfold Mac.entries. rewrite merge_sort_Permutation. apply elem_of_map_to_list.
Qed.

Lemma values_map_to_list m : Mac.values m ≡ₚ (map_to_list m).*2.
Proof. unfold Mac.values, Mac.entries. by rewrite merge_sort_Permutation. Qed.

Lemma elem_of_values m sp : sp ∈ Mac.values m <-> exists k, m !! k = Some sp.
Proof.
  rewrite values_map_to_list, list_elem_of_fmap. split.
  - intros ([k sp'] & -> & Hk). exists k. by apply elem_of_map_to_list.
  - intros [k Hk]. exists (k, sp). split; [done|]. by apply elem_of_map_to_list.
Qed.

Lemma values_insert_fresh m k sp :
  m !! k = None -> Mac.values (<[k := sp]> m) ≡ₚ sp :: Mac.values m.
Proof.
  intros Hk. rewrite !values_map_to_list, map_to_list_insert by done. done.
Qed.

Lemma values_delete m k sp :
  m !! k = Some sp -> Mac.values m ≡ₚ sp :: Mac.values (delete k m).
Proof.
  intros Hk. rewrite !values_map_to_list, <-(map_to_list_delete m k sp) by done. done.
Qed.

Lemma values_insert m k sp :
  Mac.values (<[k := sp]> m) ≡ₚ sp :: Mac.values (delete k m).
Proof.
  rewrite <-insert_delete_eq. apply values_insert_fresh, lookup_delete_eq.
Qed.


(** *** One turn of the constructor's loop *)



Lemma mac_addPages_snoc pages page d w :
  Mac.addPages (pages ++ [page]) d w = mac_step w (Mac.addPages pages d w) page.
Proof. unfold Mac.addPages. by rewrite foldl_app. Qed.

Lemma mac_step_cases w d page :
  let d' := mac_step w d page in
  Mac.m_currentPage d' = Mac.m_currentPage d
  /\ Mac.m_animationGroup d' = Mac.m_animationGroup d
  /\ ((exists k sp,
         Mac.m_pages d !! k = Some sp /\ Mac.m_name sp = sectionOf w page
         /\ Mac.m_toolbar d' = Mac.m_toolbar d
         /\ Mac.m_pages d' =
            <[Mac.m_toolbarItem sp := extended w page sp]>
              (<[k := extended w page sp]> (Mac.m_pages d)))
      \/ ((forall k sp, Mac.m_pages d !! k = Some sp -> Mac.m_name sp <> sectionOf w page)
          /\ Mac.m_toolbar d' =
             Mac.m_toolbar d ++
               [(Mac.itemAddress (length (Mac.m_toolbar d)),
                 {| Mac.toolbarIcon := icon (heap w page) (isDarkMode w);
                    Mac.toolbarLabel := sectionOf w page |})]
          /\ Mac.m_pages d' =
             <[Mac.itemAddress (length (Mac.m_toolbar d)) := created w page d]>
               (Mac.m_pages d))).
Proof.
  unfold mac_step, Mac.addPage.
  destruct (find _ _) as [[k sp]|] eqn:E; simpl.
  - split_and!; [done..|]. left. apply find_some in E as [Hin Hname].
    apply list_elem_of_In, elem_of_entries in Hin.
    apply bool_decide_eq_true in Hname. by exists k, sp.
  - split_and!; [done..|]. right. split_and!; [|done..].
    intros k sp Hk Hname.
    assert (In (k, sp) (Mac.entries (Mac.m_pages d))) as Hin
      by by apply list_elem_of_In, elem_of_entries.
    apply (find_none _ _ E) in Hin. by apply bool_decide_eq_false in Hin.
Qed.


(** *** What the constructor's loop keeps true *)


Lemma withPage_children widget c :
  Mac.children (withPage widget c) =
  Mac.children c ++
    (if decide (Mac.children c = []) then [] else [Mac.SeparatorWidget])
    ++ [Mac.PageWidget widget].
Proof.
  unfold withPage, Mac.count. destruct (Mac.children c) eqn:E; simpl.
  - by rewrite E.
  - rewrite E. simpl. by rewrite <-app_assoc.
Qed.

Lemma extended_children w page sp :
  Mac.m_pageSettings sp <> [] ->
  Mac.children (Mac.m_widget sp) = withSeparators (pageWidgets w (Mac.m_pageSettings sp)) ->
  Mac.children (Mac.m_widget (extended w page sp))
  = withSeparators (pageWidgets w (Mac.m_pageSettings (extended w page sp))).
Proof.
  intros Hne Hc. unfold extended.
  cbn [Mac.appendPageSettings Mac.setWidget Mac.m_widget Mac.m_pageSettings].
  rewrite withPage_children, Hc.
  unfold pageWidgets. rewrite fmap_app, list_fmap_singleton.
  assert ((λ page0, createWidget (heap w page0)) <$> Mac.m_pageSettings sp <> []) as Hne'.
  { by destruct (Mac.m_pageSettings sp). }
  rewrite withSeparators_snoc by done.
  rewrite decide_False; [done|]. by intros ?%withSeparators_nil.
Qed.

Lemma mac_grouped_found w pages page d d' k sp :
  mac_grouped w pages d ->
  Mac.m_pages d !! k = Some sp -> Mac.m_name sp = sectionOf w page ->
  Mac.m_toolbar d' = Mac.m_toolbar d ->
  Mac.m_pages d' = <[k := extended w page sp]> (Mac.m_pages d) ->
  mac_grouped w (pages ++ [page]) d'.
Proof.
  intros G Hk Hname Htb Hpg.
  destruct (mg_pages _ _ _ G k sp Hk) as (Hitem & i0 & item0 & Hi0 & Hl0).
  destruct (mg_group _ _ _ G k sp Hk) as (Hne & Hin & Hch).
  split; unfold labels; rewrite ?Htb, ?Hpg; fold (labels d).
  - apply G.
  - intros s. rewrite (mg_labels _ _ _ G). split.
    + intros (p & Hp & Hs). exists p. split; [|done]. apply elem_of_app. by left.
    + intros (p & [Hp|Hp%list_elem_of_singleton]%elem_of_app & Hs); [by exists p|].
      subst p. apply (mg_labels _ _ _ G). rewrite <-Hs, <-Hname.
      unfold labels. apply list_elem_of_fmap. exists (k, item0).
      split; [done|]. by eapply list_elem_of_lookup_2.
  - intros i k2 item Hi. destruct (mg_toolbar _ _ _ G i k2 item Hi) as (-> & sp2 & Hk2 & Hn2).
    split; [done|]. rewrite lookup_insert. case_decide as Hd.
    + rewrite <-Hd, Hk in Hk2. injection Hk2 as <-. by eexists.
    + by exists sp2.
  - intros k2 sp2. rewrite lookup_insert. case_decide as Hd.
    + intros [= <-]. subst k2. split; [done|]. by exists i0, item0.
    + apply G.
  - intros k2 sp2. rewrite lookup_insert. case_decide as Hd.
    + intros [= <-]. split_and!.
      * simpl. by destruct (Mac.m_pageSettings sp).
      * intros p. simpl.
        intros [Hp|Hp%list_elem_of_singleton]%elem_of_app.
        -- destruct (Hin p Hp). split; [|done]. apply elem_of_app. by left.
        -- subst p. split; [|done]. apply elem_of_app. right. by left.
      * by apply extended_children.
    + intros Hk2. destruct (mg_group _ _ _ G k2 sp2 Hk2) as (? & Hin2 & ?).
      split_and!; [done| |done]. intros p Hp. destruct (Hin2 p Hp).
      split; [|done]. apply elem_of_app. by left.
  - intros p [Hp|Hp%list_elem_of_singleton]%elem_of_app.
    + destruct (mg_placed _ _ _ G p Hp) as (k2 & sp2 & Hk2 & Hn2 & Hp2).
      destruct (decide (k = k2)) as [<-|Hd].
      * exists k, (extended w page sp). rewrite lookup_insert_eq.
        rewrite Hk in Hk2. injection Hk2 as <-.
        split_and!; [done..|]. simpl. apply elem_of_app. by left.
      * exists k2, sp2. by rewrite lookup_insert_ne.
    + subst p. exists k, (extended w page sp). rewrite lookup_insert_eq.
      split_and!; [done..|]. simpl. apply elem_of_app. right. by left.
  - rewrite values_insert. rewrite <-(mg_all _ _ _ G), (values_delete _ k sp Hk).
    simpl. rewrite <-!app_assoc. apply Permutation_app_head, Permutation_app_comm.
Qed.


Lemma mac_fresh_item w pages d :
  Inj (=) (=) Mac.itemAddress ->
  mac_grouped w pages d ->
  Mac.m_pages d !! Mac.itemAddress (length (Mac.m_toolbar d)) = None.
Proof.
  intros Hinj G. apply eq_None_not_Some. intros [sp Hsp].
  destruct (mg_pages _ _ _ G _ _ Hsp) as (_ & i & item & Hi & _).
  destruct (mg_toolbar _ _ _ G _ _ _ Hi) as (Heq & _).
  apply Hinj in Heq. apply lookup_lt_Some in Hi. lia.
Qed.

Lemma mac_grouped_new w pages page d d' :
  Inj (=) (=) Mac.itemAddress ->
  mac_grouped w pages d ->
  (forall k sp, Mac.m_pages d !! k = Some sp -> Mac.m_name sp <> sectionOf w page) ->
  Mac.m_toolbar d' =
    Mac.m_toolbar d ++
      [(Mac.itemAddress (length (Mac.m_toolbar d)),
        {| Mac.toolbarIcon := icon (heap w page) (isDarkMode w);
           Mac.toolbarLabel := sectionOf w page |})] ->
  Mac.m_pages d' =
    <[Mac.itemAddress (length (Mac.m_toolbar d)) := created w page d]> (Mac.m_pages d) ->
  mac_grouped w (pages ++ [page]) d'.
Proof.
  intros Hinj G Hnone Htb Hpg.
  pose proof (mac_fresh_item w pages d Hinj G) as Hfresh.
  assert (sectionOf w page ∉ labels d) as Hnew.
  { intros ([k item] & Hl & [i Hi]%list_elem_of_lookup_1)%list_elem_of_fmap.
    destruct (mg_toolbar _ _ _ G _ _ _ Hi) as (_ & sp & Hsp & Hn).
    apply (Hnone k sp Hsp). simpl in Hl. congruence. }
  assert (labels d' = labels d ++ [sectionOf w page]) as Hlabels.
  { unfold labels. by rewrite Htb, fmap_app. }
  split; rewrite ?Hlabels, ?Hpg.
  - apply NoDup_app. split_and!; [apply G| |apply NoDup_singleton].
    intros s Hs Hs'%list_elem_of_singleton. by subst.
  - intros s. rewrite elem_of_app, (mg_labels _ _ _ G), list_elem_of_singleton. split.
    + intros [(p & Hp & Hs)| ->].
      * exists p. split; [|done]. apply elem_of_app. by left.
      * exists page. split; [|done]. apply elem_of_app. right. by left.
    + intros (p & [Hp|Hp%list_elem_of_singleton]%elem_of_app & Hs).
      * left. by exists p.
      * right. by subst.
  - intros i k item. rewrite Htb. intros Hi.
    apply lookup_app_Some in Hi as [Hi|[Hlen Hi]].
    + destruct (mg_toolbar _ _ _ G _ _ _ Hi) as (-> & sp & Hsp & Hn).
      split; [done|]. exists sp. split; [|done].
      rewrite lookup_insert_ne; [done|]. intros Heq%Hinj.
      apply lookup_lt_Some in Hi. lia.
    + apply list_lookup_singleton_Some in Hi as [Hi0 [= <- <-]].
      assert (i = length (Mac.m_toolbar d)) as -> by lia.
      split; [done|]. eexists. by rewrite lookup_insert_eq.
  - intros k sp. rewrite lookup_insert. case_decide as Hd.
    + intros [= <-]. subst k. split; [done|]. rewrite Htb.
      eexists _, _.
      split; [rewrite lookup_app_r by done; by rewrite Nat.sub_diag | done].
    + intros Hsp. destruct (mg_pages _ _ _ G _ _ Hsp) as (? & i & item & Hi & ?).
      split; [done|]. exists i, item. rewrite Htb. split; [|done].
      by apply lookup_app_l_Some.
  - intros k sp. rewrite lookup_insert. case_decide as Hd.
    + intros [= <-]. split_and!; [done| |done].
      intros p Hp%list_elem_of_singleton. subst p.
      split; [|done]. apply elem_of_app. right. by left.
    + intros Hsp. destruct (mg_group _ _ _ G _ _ Hsp) as (? & Hin & ?).
      split_and!; [done| |done]. intros p Hp. destruct (Hin p Hp).
      split; [|done]. apply elem_of_app. by left.
  - intros p [Hp|Hp%list_elem_of_singleton]%elem_of_app.
    + destruct (mg_placed _ _ _ G p Hp) as (k & sp & Hsp & Hn & Hin).
      exists k, sp. split_and!; [|done..].
      rewrite lookup_insert_ne; [done|]. intros <-. congruence.
    + subst p. eexists _, _. rewrite lookup_insert_eq. split_and!; [done..|].
      by left.
  - rewrite values_insert_fresh by done. simpl.
    rewrite (mg_all _ _ _ G). apply Permutation_cons_append.
Qed.

Lemma mac_grouped_step w pages page d :
  Inj (=) (=) Mac.itemAddress ->
  mac_grouped w pages d ->
  mac_grouped w (pages ++ [page]) (mac_step w d page).
Proof.
  intros Hinj G.
  destruct (mac_step_cases w d page) as
    (_ & _ & [(k & sp & Hk & Hn & Htb & Hpg)|(Hnone & Htb & Hpg)]).
  - destruct (mg_pages _ _ _ G k sp Hk) as (Hitem & _).
    rewrite Hitem, insert_insert_eq in Hpg. by eapply mac_grouped_found.
  - by eapply mac_grouped_new.
Qed.

Lemma mac_grouped_empty w :
  mac_grouped w [] (Mac.emptyDialog w).
Proof.
  split; simpl.
  - apply NoDup_nil_2.
  - intros s. split; [by intros ?%elem_of_nil | by intros (? & ?%elem_of_nil & _)].
  - done.
  - intros k sp. by rewrite lookup_empty.
  - intros k sp. by rewrite lookup_empty.
  - by intros ? ?%elem_of_nil.
  - done.
Qed.

Lemma mac_addPages_grouped w pages :
  Inj (=) (=) Mac.itemAddress ->
  mac_grouped w pages (Mac.addPages pages (Mac.emptyDialog w) w).
Proof.
  intros Hinj. induction pages as [|page pages IH] using rev_ind.
  - apply mac_grouped_empty.
  - rewrite mac_addPages_snoc. by apply mac_grouped_step.
Qed.

Lemma mac_addPages_idle pages d w :
  Mac.m_currentPage (Mac.addPages pages d w) = Mac.m_currentPage d
  /\ Mac.m_animationGroup (Mac.addPages pages d w) = Mac.m_animationGroup d.
Proof.
  induction pages as [|page pages IH] using rev_ind; [done|].
  rewrite mac_addPages_snoc.
  destruct (mac_step_cases w (Mac.addPages pages d w) page) as (Hc & Ha & _).
  cbv zeta in Hc, Ha. rewrite Hc, Ha. apply IH.
Qed.


(** *** The loops of [acceptSettings] *)

Lemma mac_sectionsValid_loop (sections : list PagePtr) settingsValid w :
  Mac.sectionsValid_loop sections settingsValid w =
  (if allCanAccept w sections then settingsValid else false).
Proof.
  induction sections as [|page sections IH]; [done|]. simpl.
  rewrite IH. by destruct (callCanAcceptSettings _ _).
Qed.

Lemma mac_settingsValid_loop (pages : list Mac.SettingsPage) settingsValid w :
  Mac.settingsValid_loop pages settingsValid w =
  (if allCanAccept w (concat (Mac.m_pageSettings <$> pages)) then settingsValid else false).
Proof.
  revert settingsValid. induction pages as [|page pages IH]; intros v; [done|].
  simpl. rewrite IH, mac_sectionsValid_loop, allCanAccept_app.
  by destruct (allCanAccept w (Mac.m_pageSettings page)), (allCanAccept w _).
Qed.

Lemma mac_acceptSections_loop (sections : list PagePtr) w :
  Mac.acceptSections_loop sections w = acceptAll w sections.
Proof. revert w. induction sections as [|page sections IH]; intros w; [done|]. apply IH. Qed.

Lemma mac_acceptSettings_loop (pages : list Mac.SettingsPage) w :
  Mac.acceptSettings_loop pages w = acceptAll w (concat (Mac.m_pageSettings <$> pages)).
Proof.
  revert w. induction pages as [|page pages IH]; intros w; [done|].
  simpl. by rewrite IH, mac_acceptSections_loop, acceptAll_app.
Qed.

Lemma mac_acceptSettings_spec d w :
  let order := concat (Mac.m_pageSettings <$> Mac.values (Mac.m_pages d)) in
  Mac.acceptSettings d w =
  if allCanAccept w order then (true, acceptAll w order) else (false, w).
Proof.
  unfold Mac.acceptSettings.
  rewrite mac_settingsValid_loop, mac_acceptSettings_loop.
  by destruct (allCanAccept _ _).
Qed.

(** *** The constructor *)


Lemma mac_construct_Some pages w d :
  Mac.construct pages w = Some d ->
  exists key first,
    let loop := Mac.addPages pages (Mac.emptyDialog w) w in
    Mac.m_pages loop !! key = Some first
    /\ Mac.m_toolbar d = Mac.m_toolbar loop
    /\ Mac.m_pages d = <[key := shown first]> (Mac.m_pages loop)
    /\ Mac.m_currentPage d = Some key
    /\ Mac.m_animationGroup d = None
    /\ Mac.animationCalls d = [].
Proof.
  unfold Mac.construct.
  destruct (Mac.entries _) as [|[key first] rest] eqn:E; [done|].
  cbn [Mac.m_pages Mac.setMaximumWidth] in E.
  intros [= <-]. exists key, first. cbv zeta. split_and!; try done.
  - apply elem_of_entries. rewrite E. by left.
  - simpl. apply mac_addPages_idle.
  - simpl. clear E. induction pages as [|page pages IH] using rev_ind; [done|].
    rewrite mac_addPages_snoc. unfold mac_step, Mac.addPage.
    destruct (find _ _) as [[? ?]|]; simpl; exact IH.
Qed.

Lemma mac_construct_is_Some pages w :
  Inj (=) (=) Mac.itemAddress -> pages <> [] -> is_Some (Mac.construct pages w).
Proof.
  intros Hinj Hne. unfold Mac.construct.
  destruct (Mac.entries _) as [|[key first] rest] eqn:E; [|by eexists].
  cbn [Mac.m_pages Mac.setMaximumWidth] in E.
  destruct pages as [|page pages]; [done|].
  pose proof (mac_addPages_grouped w (page :: pages) Hinj) as G.
  destruct (mg_placed _ _ _ G page) as (k & sp & Hk & _); [by left|].
  apply elem_of_entries in Hk. rewrite E in Hk. by apply elem_of_nil in Hk.
Qed.

Lemma mac_grouped_shown w pages d d' key first :
  mac_grouped w pages d ->
  Mac.m_pages d !! key = Some first ->
  Mac.m_toolbar d' = Mac.m_toolbar d ->
  Mac.m_pages d' = <[key := shown first]> (Mac.m_pages d) ->
  mac_grouped w pages d'.
Proof.
  intros G Hk Htb Hpg.
  assert (forall k sp', Mac.m_pages d' !! k = Some sp' ->
            exists sp, Mac.m_pages d !! k = Some sp
              /\ Mac.m_name sp' = Mac.m_name sp
              /\ Mac.m_pageSettings sp' = Mac.m_pageSettings sp
              /\ Mac.m_toolbarItem sp' = Mac.m_toolbarItem sp
              /\ Mac.children (Mac.m_widget sp') = Mac.children (Mac.m_widget sp)) as Hback.
  { intros k sp'. rewrite Hpg, lookup_insert. case_decide as Hd.
    - intros [= <-]. subst k. by exists first.
    - intros Hsp. by exists sp'. }
  assert (forall k sp, Mac.m_pages d !! k = Some sp ->
            exists sp', Mac.m_pages d' !! k = Some sp'
              /\ Mac.m_name sp' = Mac.m_name sp
              /\ Mac.m_pageSettings sp' = Mac.m_pageSettings sp) as Hforth.
  { intros k sp Hsp. rewrite Hpg, lookup_insert. case_decide as Hd.
    - subst k. rewrite Hk in Hsp. injection Hsp as <-. by eexists.
    - by exists sp. }
  split; unfold labels; rewrite ?Htb; fold (labels d).
  - apply G.
  - apply G.
  - intros i k item Hi. destruct (mg_toolbar _ _ _ G _ _ _ Hi) as (-> & sp & Hsp & Hn).
    split; [done|]. destruct (Hforth _ _ Hsp) as (sp' & ? & ? & _).
    exists sp'. split; [done | congruence].
  - intros k sp' (sp & Hsp & Hn & _ & Hi & _)%Hback.
    rewrite Hn, Hi. by apply G.
  - intros k sp' (sp & Hsp & Hn & Hps & _ & Hc)%Hback.
    rewrite Hn, Hps, Hc. by eapply G.
  - intros page (k & sp & Hsp & Hn & Hin)%(mg_placed _ _ _ G).
    destruct (Hforth _ _ Hsp) as (sp' & ? & ? & ?).
    exists k, sp'. split_and!; [done | congruence | congruence].
  - rewrite Hpg, values_insert, <-(mg_all _ _ _ G), (values_delete _ key first Hk). done.
Qed.

Lemma mac_construct_grouped pages w d :
  Inj (=) (=) Mac.itemAddress ->
  Mac.construct pages w = Some d -> mac_grouped w pages d.
Proof.
  intros Hinj (key & first & Hk & Htb & Hpg & _)%mac_construct_Some.
  eapply mac_grouped_shown; [by apply mac_addPages_grouped|done..].
Qed.


(** *** Switching pages *)


Lemma mac_construct_wf pages w d :
  Inj (=) (=) Mac.itemAddress ->
  Mac.construct pages w = Some d -> mac_wf d.
Proof.
  intros Hinj Hd. pose proof (mac_construct_grouped _ _ _ Hinj Hd) as G.
  apply mac_construct_Some in Hd as (key & first & Hk & _ & Hpg & Hcur & Hgrp & _).
  split_and!.
  - intros k sp Hsp. by apply (mg_pages _ _ _ G).
  - intros current. rewrite Hcur, Hpg. intros [= <-]. by rewrite lookup_insert_eq.
  - intros group. by rewrite Hgrp.
Qed.


Lemma mac_activated_first d item settingsPage :
  Mac.m_pages d !! item = Some settingsPage ->
  Mac.m_currentPage d = None ->
  exists d', Mac.activated item d = Some d'
    /\ Mac.m_currentPage d' = Some item
    /\ Mac.m_pages d' = <[item := shown settingsPage]> (Mac.m_pages d)
    /\ Mac.m_animationGroup d' = Mac.m_animationGroup d
    /\ Mac.animationCalls d' = Mac.animationCalls d
    /\ Mac.dialogSize d' = Mac.containerSizeHint (Mac.m_widget settingsPage)
    /\ Mac.windowTitle d' = Mac.m_name settingsPage.
Proof.
  intros Hitem Hcur. unfold Mac.activated. rewrite Hitem, Hcur.
  eexists. split; [done|]. by split_and!.
Qed.

Lemma mac_activated_switch d item settingsPage current currentPage :
  mac_wf d ->
  Mac.m_pages d !! item = Some settingsPage ->
  Mac.m_currentPage d = Some current ->
  Mac.m_pages d !! current = Some currentPage ->
  Mac.activated item d =
  if decide (Mac.address (Mac.m_widget currentPage)
             = Mac.address (Mac.m_widget settingsPage))
  then Some d
  else
    let group := crossFade d item (Mac.m_widget currentPage) (Mac.m_widget settingsPage) in
    let d1 :=
      match Mac.m_animationGroup d with
      | Some running => Mac.logAnimationCall (Mac.GroupStopped running) d
      | None => d
      end in
    Some (Mac.setCurrentPage (Some item)
            (Mac.logAnimationCall (Mac.GroupStarted group)
               (Mac.setAnimationGroup (Some group) d1))).
Proof.
  intros (Hkeys & _ & _) Hitem Hcur Hcp. unfold Mac.activated.
  rewrite Hitem, Hcur, Hcp. simpl. rewrite (Hkeys _ _ Hcp), Hcp. simpl.
  case_decide; [done|]. by destruct (Mac.m_animationGroup d).
Qed.

Lemma mac_activated_wf d item d' :
  mac_wf d -> Mac.activated item d = Some d' -> mac_wf d'.
Proof.
  intros Hwf. destruct (Mac.m_pages d !! item) as [settingsPage|] eqn:Hitem.
  2:{ unfold Mac.activated. rewrite Hitem. by intros [= <-]. }
  destruct (Mac.m_currentPage d) as [current|] eqn:Hcur.
  - destruct Hwf as (Hkeys & Hc & Hg).
    destruct (Hc _ Hcur) as [currentPage Hcp].
    rewrite (mac_activated_switch d item settingsPage current currentPage);
      [|done..].
    case_decide; [by intros [= <-]|]. intros [= <-].
    split_and!.
    + intros k sp. simpl. destruct (Mac.m_animationGroup d); apply Hkeys.
    + intros c. simpl. intros [= <-]. destruct (Mac.m_animationGroup d); by eexists.
    + intros g. simpl. intros [= <-]. simpl.
      destruct (Mac.m_animationGroup d); by eexists.
  - destruct (mac_activated_first d item settingsPage Hitem Hcur)
      as (d1 & -> & Hc1 & Hp1 & Hg1 & _).
    intros [= <-]. destruct Hwf as (Hkeys & Hc & Hg). split_and!.
    + intros k sp. rewrite Hp1, lookup_insert. case_decide as Hd.
      * intros [= <-]. subst k. simpl. by apply Hkeys.
      * apply Hkeys.
    + intros c. rewrite Hc1, Hp1. intros [= <-]. by rewrite lookup_insert_eq.
    + intros g. rewrite Hg1, Hp1. intros Hgg%Hg. rewrite lookup_insert.
      case_decide; [by eexists | done].
Qed.

Lemma mac_activated_is_Some d item :
  mac_wf d -> is_Some (Mac.activated item d).
Proof.
  intros Hwf. destruct (Mac.m_pages d !! item) as [settingsPage|] eqn:Hitem.
  2:{ unfold Mac.activated. rewrite Hitem. by eexists. }
  destruct (Mac.m_currentPage d) as [current|] eqn:Hcur.
  - destruct Hwf as (Hkeys & Hc & Hg).
    destruct (Hc _ Hcur) as [currentPage Hcp].
    rewrite (mac_activated_switch d item settingsPage current currentPage);
      [|done..].
    case_decide; by eexists.
  - destruct (mac_activated_first d item settingsPage Hitem Hcur) as (d1 & -> & _).
    by eexists.
Qed.

(** The pieces of a page that the pointers depend on. *)
Lemma mac_wf_pages d d' :
  mac_wf d ->
  (forall k, exists f,
     Mac.m_pages d' !! k = f <$> Mac.m_pages d !! k
     /\ forall sp, Mac.m_toolbarItem (f sp) = Mac.m_toolbarItem sp) ->
  Mac.m_currentPage d' = Mac.m_currentPage d ->
  Mac.m_animationGroup d' = Mac.m_animationGroup d ->
  mac_wf d'.
Proof.
  intros (Hkeys & Hc & Hg) Hpages Hcur Hgrp. split_and!.
  - intros k sp'. destruct (Hpages k) as (f & -> & Hf).
    destruct (Mac.m_pages d !! k) as [sp|] eqn:Hk; [|done].
    intros [= <-]. rewrite Hf. by apply Hkeys.
  - intros current. rewrite Hcur. intros [sp Hsp]%Hc.
    destruct (Hpages current) as (f & -> & _). rewrite Hsp. by eexists.
  - intros group. rewrite Hgrp. intros [sp Hsp]%Hg.
    destruct (Hpages (Mac.finishedPage group)) as (f & -> & _). rewrite Hsp. by eexists.
Qed.

Lemma mac_finishAnimation_wf d animation :
  mac_wf d -> mac_wf (Mac.finishAnimation d animation)
  /\ Mac.m_animationGroup (Mac.finishAnimation d animation) = Mac.m_animationGroup d
  /\ Mac.m_currentPage (Mac.finishAnimation d animation) = Mac.m_currentPage d.
Proof.
  intros Hwf. unfold Mac.finishAnimation.
  destruct (Mac.target animation), (Mac.endValue animation);
    repeat case_decide; (split; [|done]);
    (eapply mac_wf_pages; [done| |done..]); intros k.
  1-6: exists id; split; [|done]; simpl; by destruct (Mac.m_pages d !! k).
  unfold Mac.setContainerOpacity; cbn [Mac.m_pages Mac.setPages].
  eexists; split; [apply lookup_fmap|]. intros sp. simpl. by case_decide.
Qed.

Lemma mac_finishAnimations_wf d (animations : list Mac.QPropertyAnimation) :
  mac_wf d -> mac_wf (foldl Mac.finishAnimation d animations)
  /\ Mac.m_animationGroup (foldl Mac.finishAnimation d animations) = Mac.m_animationGroup d
  /\ Mac.m_currentPage (foldl Mac.finishAnimation d animations) = Mac.m_currentPage d.
Proof.
  revert d. induction animations as [|animation animations IH]; intros d Hwf; [done|].
  simpl. destruct (mac_finishAnimation_wf d animation Hwf) as (Hwf' & <- & <-).
  by apply IH.
Qed.

Lemma mac_animationFinished_wf d :
  mac_wf d ->
  exists d', Mac.animationFinished d = Some d' /\ mac_wf d'
    /\ Mac.m_animationGroup d' = None
    /\ Mac.m_currentPage d' = Mac.m_currentPage d.
Proof.
  intros Hwf. unfold Mac.animationFinished.
  destruct (Mac.m_animationGroup d) as [group|] eqn:Hgroup.
  - destruct (mac_finishAnimations_wf d (Mac.animations group) Hwf)
      as ((Hkeys & Hc & Hg) & Hgrp & Hcur).
    rewrite Hgroup in Hgrp. destruct (Hg _ Hgrp) as [sp ->]. simpl.
    eexists. split; [done|]. split; [|done].
    split; [exact Hkeys|]. split; [exact Hc|]. by intros g.
  - eexists. split; [done|]. by rewrite Hgroup.
Qed.

Lemma mac_resizeEvent_wf s d : mac_wf d -> mac_wf (Mac.resizeEvent s d).
Proof.
  intros Hwf. eapply mac_wf_pages; [done| |done..].
  intros k. eexists. split; [apply lookup_fmap|]. done.
Qed.

Lemma mac_themeChanged_wf d w : mac_wf d -> mac_wf (Mac.themeChanged d w).
Proof.
  intros Hwf. unfold Mac.themeChanged.
  set (d0 := Mac.setStyleSheet _ d).
  assert (mac_wf d0) as Hwf0 by done.
  generalize (Mac.values (Mac.m_pages d0)). clearbody d0. clear d Hwf.
  intros pages. revert d0 Hwf0.
  induction pages as [|page pages IH]; intros d0 Hwf0; [done|].
  simpl. apply IH. by destruct (Mac.m_pageSettings page).
Qed.

Lemma mac_handle_wf e d w :
  mac_wf d -> exists d' w', Mac.handle e d w = Some (d', w') /\ mac_wf d'.
Proof.
  intros Hwf. destruct e; simpl.
  - destruct (mac_activated_is_Some d item Hwf) as [d' Hd'].
    rewrite Hd'. simpl. eexists _, _. split; [done|]. by eapply mac_activated_wf.
  - destruct (mac_animationFinished_wf d Hwf) as (d' & -> & Hwf' & _).
    simpl. by eexists _, _.
  - eexists _, _. split; [done|]. by apply mac_resizeEvent_wf.
  - eexists _, _. split; [done|]. by apply mac_themeChanged_wf.
  - by eexists _, _.
Qed.

(** Every sequence of events takes a constructed dialog through states in
    which the pointers are sound. *)
Lemma mac_run_wf events d w :
  mac_wf d -> exists d' w', Mac.run events d w = Some (d', w') /\ mac_wf d'.
Proof.
  intros Hwf. induction events as [|e events IH] using rev_ind.
  - by exists d, w.
  - destruct IH as (d1 & w1 & Hrun & Hwf1). unfold Mac.run in *.
    rewrite foldl_app, Hrun. simpl. by apply mac_handle_wf.
Qed.

Lemma mac_sizeHint_spec d :
  mac_wf d ->
  match Mac.m_currentPage d with
  | Some current =>
      exists currentPage, Mac.m_pages d !! current = Some currentPage
        /\ Mac.sizeHint d = Some (Mac.containerSizeHint (Mac.m_widget currentPage))
  | None => Mac.sizeHint d = Some Mac.baseSizeHint
  end.
Proof.
  intros (_ & Hc & _). unfold Mac.sizeHint.
  destruct (Mac.m_currentPage d) as [current|]; [|done].
  destruct (Hc _ eq_refl) as [currentPage Hcp]. exists currentPage.
  by rewrite Hcp.
Qed.

End MacFacts.

(** * The claims of the specification *)

Section Claims.
Context {P : Type} `{ISettingsPage P} `{Mac.Toolkit}.

(** C1.  Committing is rejected when a page cannot accept its values.  For
    every list of registered pages, on both layouts: when every page's
    [canAcceptSettings()] returns true, [acceptSettings()] returns true and
    invokes [acceptSettings()] on every page (on the tree-list layout in the
    order registered, on the toolbar layout in the order of the sections'
    toolbar items, each registration once); when some page's
    [canAcceptSettings()] returns false, it returns false, invokes no page's
    [acceptSettings()] and leaves the page objects as they were.  The
    toolbar constructor is undefined for an empty list and yields a dialog
    for every other. *)
Theorem acceptSettings_commits_or_rejects (pages : list PagePtr) (w0 w : World P) :
  Inj (=) (=) Mac.itemAddress ->
  (let d := Tree.construct pages w0 in
   Tree.acceptSettings d w =
   if allCanAccept w pages
   then (true, Tree.setApplyEnabled false d, acceptAll w pages)
   else (false, d, w))
  /\ (pages <> [] -> is_Some (Mac.construct pages w0))
  /\ (forall d, Mac.construct pages w0 = Some d ->
      if allCanAccept w pages
      then exists order, order ≡ₚ pages
             /\ Mac.acceptSettings d w = (true, acceptAll w order)
      else Mac.acceptSettings d w = (false, w))
  /\ (forall order, acceptCalls (acceptAll w order) = acceptCalls w ++ order).
Proof.
  intros Hinj. split_and!.
  - cbv zeta. rewrite tree_acceptSettings_spec.
    by destruct (tree_construct_fields pages w0) as (-> & _).
  - by apply mac_construct_is_Some.
  - intros d Hd. pose proof (mac_construct_grouped _ _ _ Hinj Hd) as G.
    pose proof (mac_acceptSettings_spec d w) as Hspec. cbv zeta in Hspec.
    rewrite (allCanAccept_perm w _ pages) in Hspec by apply G.
    destruct (allCanAccept w pages); [|done].
    eexists. split; [apply G | done].
  - intros order. apply acceptAll_calls.
Qed.

(** C2, as amended.  On the tree-list layout [okToClose()] returns true
    exactly when every registered page's [canAcceptSettings()] returns true;
    on the toolbar layout it returns true whatever the pages report. *)
Theorem okToClose_by_layout (pages : list PagePtr) (w0 w : World P) :
  Tree.okToClose (Tree.construct pages w0) w = allCanAccept w pages
  /\ forall d : Mac.SettingsDialog, Mac.okToClose d w = true.
Proof.
  split; [|done]. rewrite tree_okToClose_spec.
  by destruct (tree_construct_fields pages w0) as (-> & _).
Qed.

(** C3.  The close gate: on both layouts [closeEvent] accepts the event and
    emits [closed] once when [okToClose()] returns true, and otherwise
    ignores the event and emits nothing; a close request that is ignored
    leaves the dialog as it was, still visible. *)
Theorem closeEvent_gate (event : QCloseEvent)
    (dt : Tree.SettingsDialog) (dm : Mac.SettingsDialog) (w : World P) :
  Tree.closeEvent event dt w =
    (if Tree.okToClose dt w
     then ({| isAccepted := true |}, emitClosed w)
     else ({| isAccepted := false |}, w))
  /\ Mac.closeEvent event dm w =
    (if Mac.okToClose dm w
     then ({| isAccepted := true |}, emitClosed w)
     else ({| isAccepted := false |}, w))
  /\ closedEmitted (emitClosed w) = S (closedEmitted w)
  /\ Tree.close dt w =
    (if Tree.okToClose dt w then (Tree.setVisible false dt, emitClosed w)
     else (dt, w)).
Proof.
  split_and!; [| |done|apply tree_close_spec].
  - unfold Tree.closeEvent. by destruct (Tree.okToClose dt w).
  - done.
Qed.



(** C5, as amended.  OK invokes [acceptSettings()] and then asks the dialog
    to close, Apply invokes [acceptSettings()] only, and Cancel asks the
    dialog to close without invoking [acceptSettings()] on any page.  The
    dialog closes when [okToClose()] lets it: while some page cannot accept
    its values, OK and Cancel leave the dialog open and nothing is
    committed. *)
Theorem buttons_commit_and_request_close (d : Tree.SettingsDialog) (w : World P) :
  let pages := Tree.m_pageSettings <$> Tree.m_pages d in
  Tree.okClicked d w =
    (if allCanAccept w pages
     then Tree.close (Tree.setApplyEnabled false d) (acceptAll w pages)
     else (d, w))
  /\ Tree.applyClicked d w =
    (if allCanAccept w pages
     then (Tree.setApplyEnabled false d, acceptAll w pages)
     else (d, w))
  /\ Tree.cancelClicked d w =
    (if allCanAccept w pages
     then (Tree.setVisible false d, emitClosed w)
     else (d, w))
  /\ Tree.isVisible (Tree.applyClicked d w).1 = Tree.isVisible d
  /\ acceptCalls (Tree.cancelClicked d w).2 = acceptCalls w
  /\ (forall d1 w1,
        Tree.close d1 w1 =
        if allCanAccept w1 (Tree.m_pageSettings <$> Tree.m_pages d1)
        then (Tree.setVisible false d1, emitClosed w1)
        else (d1, w1)).
Proof.
  cbv zeta.
  assert (forall d1 w1,
            Tree.close d1 w1 =
            if allCanAccept w1 (Tree.m_pageSettings <$> Tree.m_pages d1)
            then (Tree.setVisible false d1, emitClosed w1)
            else (d1, w1)) as Hclose.
  { intros d1 w1. by rewrite tree_close_spec, tree_okToClose_spec. }
  unfold Tree.okClicked, Tree.applyClicked, Tree.cancelClicked.
  rewrite tree_acceptSettings_spec, (Hclose d w).
  destruct (allCanAccept _ _) eqn:E; split_and!; try done.
  rewrite Hclose. simpl. by rewrite E.
Qed.

(** C6.  Incoming pages are grouped by section.  For every list of pages,
    after construction the top-level entries (tree items, toolbar items)
    carry pairwise different names, which are exactly the [section()]
    values of the pages; every page's widget sits under the entry of the
    page's own section (in a tab of the item's tab widget, in the container
    of the item's page); and one more page whose section has an entry adds
    no entry. *)
Theorem pages_grouped_by_section (pages : list PagePtr) (w : World P) :
  Inj (=) (=) Mac.itemAddress ->
  (let d := Tree.construct pages w in
   NoDup (texts d)
   /\ (forall s, s ∈ texts d <-> exists page, page ∈ pages /\ sectionOf w page = s)
   /\ (forall page, page ∈ pages ->
         exists item, item ∈ Tree.m_treeWidget d
           /\ Tree.text item = sectionOf w page
           /\ (createWidget (heap w page), category (heap w page))
                ∈ Tree.tabs (Tree.userData item))
   /\ (forall page, sectionOf w page ∈ texts d ->
         texts (Tree.construct (pages ++ [page]) w) = texts d))
  /\ (let d := Mac.addPages pages (Mac.emptyDialog w) w in
      forall page, sectionOf w page ∈ labels d ->
        labels (Mac.addPages (pages ++ [page]) (Mac.emptyDialog w) w) = labels d)
  /\ (forall d, Mac.construct pages w = Some d ->
      NoDup (labels d)
      /\ (forall s, s ∈ labels d <-> exists page, page ∈ pages /\ sectionOf w page = s)
      /\ (forall page, page ∈ pages ->
            exists key toolbarItem settingsPage,
              (key, toolbarItem) ∈ Mac.m_toolbar d
              /\ Mac.toolbarLabel toolbarItem = sectionOf w page
              /\ Mac.m_pages d !! key = Some settingsPage
              /\ Mac.m_name settingsPage = sectionOf w page
              /\ Mac.PageWidget (createWidget (heap w page))
                   ∈ Mac.children (Mac.m_widget settingsPage))).
Proof.
  intros Hinj. split_and!.
  - cbv zeta. destruct (tree_construct_grouped w pages) as (Hnd & Hin & Hpl).
    split_and!; [done..|]. intros page Hp.
    rewrite tree_construct_snoc_texts. by rewrite decide_True.
  - cbv zeta. intros page Hp.
    pose proof (mac_addPages_grouped w pages Hinj) as G.
    rewrite mac_addPages_snoc.
    destruct (mac_step_cases w (Mac.addPages pages (Mac.emptyDialog w) w) page)
      as (_ & _ & [(k & sp & _ & _ & Htb & _)|(Hnone & _)]).
    + unfold labels. by rewrite Htb.
    + apply list_elem_of_fmap in Hp as ([k item] & Hl & [i Hi]%list_elem_of_lookup_1).
      destruct (mg_toolbar _ _ _ G _ _ _ Hi) as (_ & sp & Hsp & Hn).
      destruct (Hnone k sp Hsp). simpl in Hl. congruence.
  - intros d Hd. pose proof (mac_construct_grouped _ _ _ Hinj Hd) as G.
    split_and!; [apply G..|]. intros page Hp.
    destruct (mg_placed _ _ _ G page Hp) as (k & sp & Hsp & Hn & Hin).
    destruct (mg_pages _ _ _ G k sp Hsp) as (_ & i & item & Hi & Hl).
    destruct (mg_group _ _ _ G k sp Hsp) as (_ & _ & Hch).
    exists k, item, sp. split_and!; [by eapply list_elem_of_lookup_2|congruence|done..|].
    rewrite Hch. apply withSeparators_elem. unfold pageWidgets.
    by apply (list_elem_of_fmap_2 (fun page => createWidget (heap w page))).
Qed.


(** C7, as amended.  Page switching on the toolbar layout.  When a toolbar
    item is activated and no page is current, its page becomes current, its
    container is made fully opaque, and no animation group is stopped or
    started.  When the container of its page is the current page's
    container, nothing changes.  Otherwise a running animation group is
    stopped and a new group is started that fades the outgoing container to
    transparent and the incoming one to opaque while it takes the dialog's
    size, minimum size and maximum size to the dialog's maximum width and
    the height of the incoming container's size hint; the current page is
    the activated one at once, while the new group is still the running
    one.  The dialog is any one whose pointers are sound ([mac_wf]), which
    the constructor establishes ([mac_construct_wf]) and every event keeps
    ([mac_run_wf]). *)
Theorem activation_cross_fade (d : Mac.SettingsDialog) (item : Mac.ItemPtr)
    (settingsPage : Mac.SettingsPage) :
  mac_wf d ->
  Mac.m_pages d !! item = Some settingsPage ->
  match Mac.m_currentPage d with
  | None =>
      exists d', Mac.activated item d = Some d'
        /\ Mac.m_currentPage d' = Some item
        /\ (exists shownPage, Mac.m_pages d' !! item = Some shownPage
              /\ Mac.opacity (Mac.m_widget shownPage) = 1%Qc)
        /\ Mac.m_animationGroup d' = Mac.m_animationGroup d
        /\ Mac.animationCalls d' = Mac.animationCalls d
  | Some current =>
      exists currentPage, Mac.m_pages d !! current = Some currentPage
        /\ if decide (Mac.address (Mac.m_widget currentPage)
                      = Mac.address (Mac.m_widget settingsPage))
           then Mac.activated item d = Some d
           else
             exists d' group, Mac.activated item d = Some d'
               /\ group = crossFade d item (Mac.m_widget currentPage)
                                    (Mac.m_widget settingsPage)
               /\ Mac.animationCalls d' =
                    Mac.animationCalls d
                    ++ match Mac.m_animationGroup d with
                       | Some running => [Mac.GroupStopped running]
                       | None => []
                       end
                    ++ [Mac.GroupStarted group]
               /\ Mac.m_animationGroup d' = Some group
               /\ Mac.m_currentPage d' = Some item
               /\ Mac.m_pages d' = Mac.m_pages d
  end.
Proof.
  intros Hwf Hitem. destruct (Mac.m_currentPage d) as [current|] eqn:Hcur.
  - destruct Hwf as (Hkeys & Hc & Hg).
    destruct (Hc _ Hcur) as [currentPage Hcp]. exists currentPage. split; [done|].
    rewrite (mac_activated_switch d item settingsPage current currentPage);
      [|done..].
    case_decide; [done|]. eexists _, _. split; [reflexivity|].
    split; [reflexivity|]. destruct (Mac.m_animationGroup d); simpl.
    + split_and!; try done. by rewrite <-app_assoc.
    + by split_and!.
  - destruct (mac_activated_first d item settingsPage Hitem Hcur)
      as (d' & Hd' & Hc' & Hp' & Hg' & Ha' & _).
    exists d'. split_and!; try done.
    exists (shown settingsPage). by rewrite Hp', lookup_insert_eq.
Qed.



(** C10.  [sizeHint()] follows the current page.  On both layouts, when a
    current page is set [sizeHint()] returns the size hint of that page's
    widget, and when none is set it returns the base widget's size hint.  On
    the toolbar layout the page of an activated item, once current, is the
    one whose container's size hint is returned.  The toolbar dialog is any
    one whose pointers are sound ([mac_wf]). *)
Theorem sizeHint_follows_current_page
    (widgetSizeHint : QWidgetPtr -> QSize) (treeBaseSizeHint : QSize)
    (dt : Tree.SettingsDialog) (dm : Mac.SettingsDialog) :
  mac_wf dm ->
  Tree.sizeHint widgetSizeHint treeBaseSizeHint dt =
    match Tree.m_currentPage dt with
    | Some currentPage => widgetSizeHint (Tree.m_widget currentPage)
    | None => treeBaseSizeHint
    end
  /\ match Mac.m_currentPage dm with
     | Some current =>
         exists currentPage, Mac.m_pages dm !! current = Some currentPage
           /\ Mac.sizeHint dm = Some (Mac.containerSizeHint (Mac.m_widget currentPage))
     | None => Mac.sizeHint dm = Some Mac.baseSizeHint
     end
  /\ (forall item settingsPage dm',
        Mac.m_pages dm !! item = Some settingsPage ->
        Mac.activated item dm = Some dm' ->
        Mac.m_currentPage dm' = Some item ->
        Mac.sizeHint dm' = Some (Mac.containerSizeHint (Mac.m_widget settingsPage))).
Proof.
  intros Hwf. split_and!; [done|by apply mac_sizeHint_spec|].
  intros item settingsPage dm' Hitem Hact Hcur'.
  unfold Mac.sizeHint. rewrite Hcur'.
  destruct (Mac.m_currentPage dm) as [current|] eqn:Hcur.
  - destruct Hwf as (Hkeys & Hc & Hg). destruct (Hc _ Hcur) as [currentPage Hcp].
    rewrite (mac_activated_switch dm item settingsPage current currentPage) in Hact;
      [|done..].
    case_decide.
    + injection Hact as <-. rewrite Hcur in Hcur'. injection Hcur' as ->.
      by rewrite Hitem.
    + injection Hact as <-. simpl.
      destruct (Mac.m_animationGroup dm); simpl; by rewrite Hitem.
  - destruct (mac_activated_first dm item settingsPage Hitem Hcur)
      as (d1 & Hd1 & _ & Hp1 & _).
    rewrite Hd1 in Hact. injection Hact as <-.
    by rewrite Hp1, lookup_insert_eq.
Qed.

End Claims.

(** ** The claims at concrete inputs *)

Example replace_leftmost :
  QString.replace (QString.fromLatin1 "ab") (QString.fromLatin1 "x")
    (QString.fromLatin1 "aabab-ab") = QString.fromLatin1 "axx-x".
Proof. reflexivity. Qed.

Example replace_empty_pattern :
  QString.replace (QString.fromLatin1 "") (QString.fromLatin1 "X")
    (QString.fromLatin1 "abc") = QString.fromLatin1 "XaXbXcX".
Proof. reflexivity. Qed.

Example tree_sample_grouping :
  let d := Tree.construct [0; 1; 2]%nat (sampleWorld samplePages) in
  texts d = ["General"; "Net"]%string
  /\ (fun item => Tree.tabs (Tree.userData item)) <$> Tree.m_treeWidget d
     = [[(5%nat, "a"); (3%nat, "c")]; [(2%nat, "b")]]%string.
Proof. by vm_compute. Qed.

Example mac_sample_grouping :
  labels sampleMacDialog = ["General"; "Net"]%string
  /\ (fun page => Mac.children (Mac.m_widget page)) <$> Mac.values (Mac.m_pages sampleMacDialog)
     = [[Mac.PageWidget 5%nat; Mac.SeparatorWidget; Mac.PageWidget 3%nat];
        [Mac.PageWidget 2%nat]]
  /\ Mac.m_currentPage sampleMacDialog = Some 0%nat
  /\ Mac.m_maximumWidth sampleMacDialog = 500.
Proof. by vm_compute. Qed.

Example acceptSettings_rejects_sample :
  let w := sampleWorld invalidPages in
  Tree.acceptSettings (Tree.construct [0%nat] w) w = (false, Tree.construct [0%nat] w, w)
  /\ (d ← Mac.construct [0%nat] w; Some (Mac.acceptSettings d w).1) = Some false
  /\ (d ← Mac.construct [0%nat] w; Some (acceptCalls (Mac.acceptSettings d w).2)) = Some [].
Proof. by vm_compute. Qed.

Lemma sampleToolkit_inj : Inj (=) (=) (@Mac.itemAddress sampleToolkit).
Proof. intros x y Hxy. exact Hxy. Defined.

Lemma sampleMacDialog_constructed :
  Mac.construct [0; 1; 2]%nat (sampleWorld samplePages) = Some sampleMacDialog.
Proof. by vm_compute. Qed.

Lemma sampleMacDialog_wf : mac_wf sampleMacDialog.
Proof.
  eapply mac_construct_wf; [apply sampleToolkit_inj | apply sampleMacDialog_constructed].
Defined.

Lemma acceptSettings_commits_or_rejects_witness :
  let w := sampleWorld samplePages in
  let d := Tree.construct [0; 1; 2]%nat w in
  Tree.acceptSettings d w = (true, Tree.setApplyEnabled false d, acceptAll w [0; 1; 2]%nat)
  /\ exists order, order ≡ₚ [0; 1; 2]%nat
       /\ Mac.acceptSettings sampleMacDialog w = (true, acceptAll w order).
Proof.
  cbv zeta.
  destruct (acceptSettings_commits_or_rejects [0; 1; 2]%nat
              (sampleWorld samplePages) (sampleWorld samplePages) sampleToolkit_inj)
    as (Htree & _ & Hmac & _).
  split; [exact Htree|].
  exact (Hmac sampleMacDialog sampleMacDialog_constructed).
Defined.

(** C2 as stated fails on the toolbar layout: the only page cannot accept
    its values, and [okToClose()] returns true. *)
Lemma okToClose_on_toolbar_ignores_pages :
  let w := sampleWorld invalidPages in
  exists d, Mac.construct [0%nat] w = Some d
    /\ Mac.okToClose d w = true
    /\ canAcceptSettings (heap w 0%nat) = false.
Proof. cbv zeta. eexists. split; [by vm_compute|]. done. Qed.


(** C5 as stated fails while a page cannot accept its values: Cancel and OK
    leave the dialog open, and OK commits nothing. *)
Lemma cancel_and_ok_are_vetoed :
  let w := sampleWorld invalidPages in
  let d := Tree.show (Tree.construct [0%nat] w) in
  Tree.isVisible d = true
  /\ Tree.isVisible (Tree.cancelClicked d w).1 = true
  /\ Tree.isVisible (Tree.okClicked d w).1 = true
  /\ acceptCalls (Tree.okClicked d w).2 = [].
Proof. by vm_compute. Qed.

Lemma pages_grouped_by_section_witness :
  let w := sampleWorld samplePages in
  NoDup (texts (Tree.construct [0; 1; 2]%nat w))
  /\ NoDup (labels sampleMacDialog)
  /\ exists key toolbarItem settingsPage,
       (key, toolbarItem) ∈ Mac.m_toolbar sampleMacDialog
       /\ Mac.toolbarLabel toolbarItem = sectionOf w 2%nat
       /\ Mac.m_pages sampleMacDialog !! key = Some settingsPage
       /\ Mac.m_name settingsPage = sectionOf w 2%nat
       /\ Mac.PageWidget (createWidget (heap w 2%nat))
            ∈ Mac.children (Mac.m_widget settingsPage).
Proof.
  cbv zeta.
  destruct (pages_grouped_by_section [0; 1; 2]%nat (sampleWorld samplePages)
              sampleToolkit_inj) as ((Hnd & _) & _ & Hmac).
  destruct (Hmac sampleMacDialog sampleMacDialog_constructed) as (Hnd' & _ & Hplaced).
  split; [exact Hnd|]. split; [exact Hnd'|].
  apply Hplaced. apply (bool_decide_unpack _). vm_compute. exact I.
Defined.

(** C7 as stated fails: the switch to the narrower section ends the size
    animations at the dialog's maximum width, 500, while the incoming
    section's container asks for 200 by 50 and has the size 0 by 0. *)
Lemma activation_keeps_maximum_width :
  exists d' group incoming,
    Mac.activated 1%nat sampleMacDialog = Some d'
    /\ Mac.m_animationGroup d' = Some group
    /\ sizeAnimationEnds group =
         [Mac.SizeValue (mkQSize 500 50); Mac.SizeValue (mkQSize 500 50);
          Mac.SizeValue (mkQSize 500 50)]
    /\ Mac.m_pages sampleMacDialog !! 1%nat = Some incoming
    /\ Mac.containerSizeHint (Mac.m_widget incoming) = mkQSize 200 50
    /\ Mac.size (Mac.m_widget incoming) = mkQSize 0 0.
Proof.
  eexists _, _, _. split; [vm_compute; reflexivity|].
  split; [vm_compute; reflexivity|]. split; [vm_compute; reflexivity|].
  split; [vm_compute; reflexivity|]. split; vm_compute; reflexivity.
Qed.

Lemma activation_cross_fade_witness :
  exists incoming current d',
    Mac.m_pages sampleMacDialog !! 1%nat = Some incoming
    /\ Mac.m_pages sampleMacDialog !! 0%nat = Some current
    /\ Mac.activated 1%nat sampleMacDialog = Some d'
    /\ Mac.m_animationGroup d' =
         Some (crossFade sampleMacDialog 1%nat (Mac.m_widget current) (Mac.m_widget incoming))
    /\ Mac.m_currentPage d' = Some 1%nat.
Proof.
  assert (exists incoming, Mac.m_pages sampleMacDialog !! 1%nat = Some incoming)
    as [incoming Hincoming] by (eexists; vm_compute; reflexivity).
  pose proof (activation_cross_fade sampleMacDialog 1%nat incoming
                sampleMacDialog_wf Hincoming) as Hthm.
  change (Mac.m_currentPage sampleMacDialog) with (Some 0%nat) in Hthm.
  destruct Hthm as (current & Hcurrent & Hthm).
  exists incoming, current.
  destruct (decide (Mac.address (Mac.m_widget current)
                    = Mac.address (Mac.m_widget incoming))) as [Heq|Hne].
  - exfalso. vm_compute in Hincoming, Hcurrent.
    injection Hincoming as <-. injection Hcurrent as <-. discriminate Heq.
  - destruct Hthm as (d' & group & Hact & -> & _ & Hgroup & Hcur & _).
    exists d'. split; [exact Hincoming|]. split; [exact Hcurrent|].
    split; [exact Hact|]. split; [exact Hgroup | exact Hcur].
Defined.




Lemma sizeHint_follows_current_page_witness :
  exists currentPage,
    Mac.m_pages sampleMacDialog !! 0%nat = Some currentPage
    /\ Mac.sizeHint sampleMacDialog
       = Some (Mac.containerSizeHint (Mac.m_widget currentPage)).
Proof.
  exact (proj1 (proj2 (sizeHint_follows_current_page
                         (fun _ => mkQSize 0 0) (mkQSize 640 480)
                         (Tree.construct [0; 1; 2]%nat (sampleWorld samplePages))
                         sampleMacDialog sampleMacDialog_wf))).
Defined.

(** * Further properties of the code *)

(** ** The separator's line *)

(** X1.  [SeparatorWidget::paintEvent] draws one horizontal line that keeps
    25 pixels from the left and from the right edge of the widget, in the
    row at the middle of the widget (the upper of the two middle rows when
    the height is even).  The line runs from left to right exactly when the
    widget is at least 51 pixels wide; on a narrower widget its end lies
    left of its start. *)
Theorem separator_line_geometry (width height : Z) :
  0 <= width -> 1 <= height ->
  let line := Separator.paintEvent width height in
  Separator.y1 line = Separator.y2 line
  /\ Separator.x1 line - Separator.left (Separator.rect width height) = 25
  /\ Separator.right (Separator.rect width height) - Separator.x2 line = 25
  /\ (Separator.x1 line <= Separator.x2 line <-> 51 <= width)
  /\ 0 <= Separator.y1 line <= height - 1
  /\ (height - 1) - Separator.y1 line - Separator.y1 line ∈ [0; 1].
Proof.
  intros Hw Hh. cbv zeta. unfold Separator.paintEvent, Separator.center,
    Separator.rect, Separator.LineMargin. cbn [Separator.y1 Separator.y2
    Separator.x1 Separator.x2 Separator.left Separator.right Separator.top
    Separator.bottom fst snd].
  rewrite Z.add_0_l.
  pose proof (Z.quot_rem' (height - 1) 2) as Hqr.
  pose proof (Z.rem_bound_pos (height - 1) 2) as Hrem.
  assert (Z.rem (height - 1) 2 = 0 \/ Z.rem (height - 1) 2 = 1) as Hcases by lia.
  split_and!; try lia.
  destruct Hcases as [H0|H1].
  - replace (height - 1 - (height - 1) ÷ 2 - (height - 1) ÷ 2) with 0 by lia. by left.
  - replace (height - 1 - (height - 1) ÷ 2 - (height - 1) ÷ 2) with 1 by lia.
    right. by left.
Qed.

(** ** The style sheets *)

Section StyleSheetMore.
Import QString.

Lemma replace_delete_sublist_len (b : QString) n (s : QString) :
  b <> [] -> (length s <= n)%nat -> replace b [] s `sublist_of` s.
Proof.
  intros Hb. revert s. induction n as [|n IH]; intros s Hn.
  - destruct s; [|simpl in Hn; lia]. by rewrite replace_nil.
  - destruct s as [|c s]; [by rewrite replace_nil|]. simpl in Hn.
    destruct (startsWith (c :: s) b) eqn:Hm.
    + destruct b as [|b0 b']; [done|]. rewrite replace_match by done. simpl.
      apply sublist_cons. etrans; [apply IH|apply sublist_drop].
      rewrite length_drop. lia.
    + rewrite replace_skip by done. apply sublist_skip, IH. lia.
Qed.

Lemma replace_delete_sublist (b s : QString) :
  b <> [] -> replace b [] s `sublist_of` s.
Proof. intros Hb. by apply (replace_delete_sublist_len b (length s)). Qed.

Lemma replace_delete_shorter (b s : QString) :
  b <> [] -> contains s b = true -> (length (replace b [] s) < length s)%nat.
Proof.
  intros Hb. induction s as [|c s IH].
  - simpl. destruct b; [done|]. by rewrite orb_false_r.
  - destruct (startsWith (c :: s) b) eqn:Hm.
    + intros _. destruct b as [|b0 b']; [done|]. rewrite replace_match by done.
      simpl. pose proof (sublist_length _ _
        (replace_delete_sublist (b0 :: b') (drop (length b') s) Hb)) as Hl.
      rewrite length_drop in Hl. lia.
    + rewrite contains_cons, Hm. simpl. intros Hc.
      rewrite replace_skip by done. simpl. apply IH in Hc. lia.
Qed.

Lemma replace_longer_len (b a : QString) n (s : QString) :
  b <> [] -> (length b <= length a)%nat -> (length s <= n)%nat ->
  (length s <= length (replace b a s))%nat.
Proof.
  intros Hb Hba. revert s. induction n as [|n IH]; intros s Hn.
  - destruct s; [|simpl in Hn; lia]. simpl. lia.
  - destruct s as [|c s]; [simpl; lia|]. simpl in Hn.
    destruct (startsWith (c :: s) b) eqn:Hm.
    + destruct b as [|b0 b']; [done|]. rewrite replace_match by done.
      rewrite length_app.
      assert (length (drop (length b') s) <= length (replace (b0 :: b') a (drop (length b') s)))%nat
        as Hd by (apply IH; rewrite length_drop; lia).
      rewrite length_drop in Hd.
      apply startsWith_prefix, prefix_length in Hm. simpl in *. lia.
    + rewrite replace_skip by done. simpl. specialize (IH s). lia.
Qed.

(** X2.  In light mode [updateStyleSheet] only takes characters out: its
    result is the input with some characters left out, in the same order.
    In dark mode it never makes a style sheet shorter. *)
Theorem updateStyleSheet_light_deletes_dark_grows (styleSheet : QString) :
  updateStyleSheet styleSheet false `sublist_of` styleSheet
  /\ (length styleSheet <= length (updateStyleSheet styleSheet true))%nat.
Proof.
  unfold updateStyleSheet. split.
  - etrans; by apply replace_delete_sublist.
  - assert (forall s : QString,
              length s <= length (replace backgroundColour darkBackground s))%nat as H1.
    { intros s. apply (replace_longer_len _ _ (length s)); [done| |done].
      vm_compute. lia. }
    assert (forall s : QString,
              length s <= length (replace baseBackgroundColour darkBaseBackground s))%nat as H2.
    { intros s. apply (replace_longer_len _ _ (length s)); [done| |done].
      vm_compute. lia. }
    etrans; [apply H1 | apply H2].
Qed.

(** X3.  In either mode the style sheets that [updateStyleSheet] returns
    unchanged are exactly those that hold neither placeholder. *)
Theorem updateStyleSheet_fixed_points (styleSheet : QString) (isDarkMode : bool) :
  updateStyleSheet styleSheet isDarkMode = styleSheet
  <-> contains styleSheet backgroundColour = false
      /\ contains styleSheet baseBackgroundColour = false.
Proof.
  split; [|intros [H1 H2]; by apply updateStyleSheet_fixed].
  destruct isDarkMode.
  - intros Heq. rewrite <-Heq. apply updateStyleSheet_dark_clean.
  - unfold updateStyleSheet. intros Heq.
    destruct (contains styleSheet backgroundColour) eqn:H1.
    + exfalso. apply (replace_delete_shorter backgroundColour) in H1; [|done].
      pose proof (sublist_length _ _
        (replace_delete_sublist baseBackgroundColour
           (replace backgroundColour (fromLatin1 "") styleSheet) ltac:(done))) as Hl.
      apply (f_equal length) in Heq. change (fromLatin1 "") with (@nil ascii) in *. lia.
    + split; [done|].
      rewrite (replace_absent backgroundColour) in Heq by done.
      destruct (contains styleSheet baseBackgroundColour) eqn:H2; [|done].
      exfalso. apply (replace_delete_shorter baseBackgroundColour) in H2; [|done].
      apply (f_equal length) in Heq. change (fromLatin1 "") with (@nil ascii) in *. lia.
Qed.

End StyleSheetMore.

(** ** The tree-list layout, further *)

Section TreeMore.
Context {P : Type} `{ISettingsPage P}.
Implicit Types (d : Tree.SettingsDialog) (w : World P) (page : PagePtr).

Lemma firstOccurrences_elem (l : list string) x :
  x ∈ firstOccurrences l <-> x ∈ l.
Proof.
  induction l as [|y l IH]; [done|]. simpl.
  rewrite !elem_of_cons, list_elem_of_filter, IH.
  destruct (decide (x = y)); subst; tauto.
Qed.

Lemma firstOccurrences_snoc (l : list string) x :
  firstOccurrences (l ++ [x]) =
  if decide (x ∈ firstOccurrences l) then firstOccurrences l
  else firstOccurrences l ++ [x].
Proof.
  induction l as [|y l IH].
  - cbn [app firstOccurrences]. rewrite decide_False; [done|]. by intros ?%elem_of_nil.
  - cbn [app firstOccurrences]. rewrite IH. destruct (decide (x = y)) as [->|Hne].
    + rewrite (decide_True (P := y ∈ y :: _)) by by left.
      case_decide; [done|].
      rewrite filter_app, filter_cons, decide_False by naive_solver.
      by rewrite filter_nil, app_nil_r.
    + destruct (decide (x ∈ firstOccurrences l)) as [Hin|Hnin].
      * rewrite decide_True; [done|]. right. by apply list_elem_of_filter.
      * rewrite decide_False.
        -- rewrite filter_app, filter_cons, decide_True by done.
           by rewrite filter_nil.
        -- intros [?|[_ ?]%list_elem_of_filter]%elem_of_cons; done.
Qed.

Lemma tree_addPage_record page d w :
  (Tree.addPage page d w).1 = treePage w page.
Proof.
  unfold Tree.addPage. by destruct (list_find _ _) as [[i item]|].
Qed.

Lemma tree_addPages_records pages d w :
  Tree.m_pages (Tree.addPages pages d w) = Tree.m_pages d ++ (treePage w <$> pages).
Proof.
  induction pages as [|page pages IH] using rev_ind.
  - simpl. by rewrite app_nil_r.
  - rewrite tree_addPages_snoc. cbv zeta. cbn [Tree.m_pages Tree.setPages].
    rewrite tree_addPage_record.
    match goal with |- context [Tree.addPage page ?d2 w] =>
      destruct (tree_addPage_fields page d2 w) as (-> & _) end.
    cbn [Tree.m_pages Tree.setConnections].
    by rewrite IH, fmap_app, app_assoc.
Qed.

(** X4.  The tree-list constructor keeps one [SettingsPage] for every page
    it is given, in the order given (a page given twice is kept twice): each
    holds the page's section, widget, address, light-mode icon and
    description.  It connects the [settingsChanged] signal of each of them,
    and leaves the dialog hidden, with the Apply button disabled and no
    current page. *)
Theorem tree_constructor_records_pages (pages : list PagePtr) (w : World P) :
  let d := Tree.construct pages w in
  Tree.m_pages d = treePage w <$> pages
  /\ Tree.settingsChangedConnections d = pages
  /\ Tree.isVisible d = false
  /\ Tree.m_applyButton d = false
  /\ Tree.m_currentPage d = None
  /\ Tree.styleSheet d = updateStyleSheet ThemeStylesheet (isDarkMode w).
Proof.
  cbv zeta. destruct (tree_construct_fields pages w) as (_ & -> & -> & -> & ->).
  split_and!; try done.
  - unfold Tree.construct. by rewrite tree_addPages_records.
  - unfold Tree.construct. generalize dependent pages.
    intros pages. induction pages as [|page pages IH] using rev_ind; [done|].
    rewrite tree_addPages_snoc. cbv zeta. unfold Tree.addPage.
    destruct (list_find _ _) as [[i item]|]; simpl; exact IH.
Qed.

Lemma tree_construct_texts (pages : list PagePtr) (w : World P) :
  texts (Tree.construct pages w) = firstOccurrences (sectionOf w <$> pages).
Proof.
  induction pages as [|page pages IH] using rev_ind; [done|].
  rewrite tree_construct_snoc_texts, fmap_app, list_fmap_singleton.
  by rewrite firstOccurrences_snoc, IH.
Qed.

(** X5.  The tree's top-level items stand in the order in which their
    sections first appear in the list of pages. *)
Theorem tree_items_in_order_of_first_appearance (pages : list PagePtr) (w : World P) :
  texts (Tree.construct pages w) = firstOccurrences (sectionOf w <$> pages).
Proof.
  induction pages as [|page pages IH] using rev_ind; [done|].
  rewrite tree_construct_snoc_texts, fmap_app, list_fmap_singleton.
  rewrite firstOccurrences_snoc, <-IH.
  by destruct (decide (sectionOf w page ∈ texts (Tree.construct pages w))).
Qed.

Lemma tree_addPage_new page d w :
  sectionOf w page ∉ texts d ->
  Tree.m_treeWidget (Tree.addPage page d w).2 =
  Tree.m_treeWidget d ++
    [ {| Tree.text := sectionOf w page;
         Tree.itemIcon := icon (heap w page) (isDarkMode w);
         Tree.toolTip := description (heap w page);
         Tree.userData :=
           {| Tree.tabs := [tabOf w page];
              Tree.tabStyleSheet := updateStyleSheet ThemeSubStylesheet (isDarkMode w) |};
         Tree.itemPage := page |} ].
Proof.
  intros Hnew. unfold Tree.addPage.
  destruct (list_find _ _) as [[i item]|] eqn:E; simpl.
  - apply list_find_Some in E as (Hi & Ht & _). destruct Hnew.
    unfold sectionOf. rewrite Ht. apply list_elem_of_fmap_2.
    by eapply list_elem_of_lookup_2.
  - rewrite alter_app_r_alt by done. by rewrite Nat.sub_diag.
Qed.

Lemma pagesOfSection_snoc w s pages page :
  pagesOfSection w s (pages ++ [page]) =
  if decide (sectionOf w page = s) then pagesOfSection w s pages ++ [page]
  else pagesOfSection w s pages.
Proof.
  unfold pagesOfSection. rewrite filter_app, filter_cons, filter_nil.
  case_decide; [done|]. by rewrite app_nil_r.
Qed.

Lemma pagesOfSection_nil w s pages :
  (forall page, page ∈ pages -> sectionOf w page <> s) ->
  pagesOfSection w s pages = [].
Proof.
  intros Hno. unfold pagesOfSection. induction pages as [|page pages IH]; [done|].
  rewrite filter_cons, decide_False.
  - apply IH. intros p Hp. apply Hno. by right.
  - apply Hno. by left.
Qed.

Lemma head_snoc_Some {A} (l : list A) x y :
  head l = Some x -> head (l ++ [y]) = Some x.
Proof. by destruct l. Qed.

Lemma tree_items_ok_addPage w pages page d :
  tree_grouped w pages d -> tree_items_ok w pages d ->
  tree_items_ok w (pages ++ [page]) (Tree.addPage page d w).2.
Proof.
  intros (Hnd & Hsec & _) Hok item'.
  destruct (decide (sectionOf w page ∈ texts d)) as [Hin|Hnew].
  - destruct (tree_addPage_cases page d w) as
      [(i & item & Hi & Ht & ->)|(Hnew & _)]; [|done].
    intros [j Hj]%list_elem_of_lookup_1.
    destruct (decide (i = j)) as [->|Hne].
    + rewrite list_lookup_alter_eq, Hi in Hj. injection Hj as <-.
      destruct (Hok item) as (Htabs & Hhead & Hicon & Htip & Hstyle);
        [by eapply list_elem_of_lookup_2|].
      cbn [Tree.addTab Tree.text Tree.tabs Tree.userData Tree.itemPage
           Tree.itemIcon Tree.toolTip Tree.tabStyleSheet].
      rewrite pagesOfSection_snoc, decide_True by done.
      rewrite fmap_app, list_fmap_singleton, Htabs.
      split_and!; try done. by apply head_snoc_Some.
    + rewrite list_lookup_alter_ne in Hj by done.
      destruct (Hok item') as (Htabs & Hhead & Hicon & Htip & Hstyle);
        [by eapply list_elem_of_lookup_2|].
      rewrite pagesOfSection_snoc, decide_False; [done|].
      intros Heq. apply Hne.
      eapply (NoDup_lookup (texts d)); [done| |]; unfold texts;
        rewrite list_lookup_fmap.
      * by rewrite Hi.
      * rewrite Hj. simpl. f_equal. by rewrite <-Heq, Ht.
  - rewrite tree_addPage_new by done.
    intros [Hold| ->%list_elem_of_singleton]%elem_of_app.
    + destruct (Hok item') as (Htabs & Hhead & Hicon & Htip & Hstyle); [done|].
      rewrite pagesOfSection_snoc, decide_False; [done|].
      intros Heq. apply Hnew. rewrite Heq. by apply list_elem_of_fmap_2.
    + cbn [Tree.text Tree.tabs Tree.userData Tree.itemPage
           Tree.itemIcon Tree.toolTip Tree.tabStyleSheet].
      rewrite pagesOfSection_snoc, decide_True by done.
      rewrite pagesOfSection_nil; [done|].
      intros p Hp Heq. apply Hnew, Hsec. by exists p.
Qed.

Lemma tree_items_ok_tree w pages d d' :
  Tree.m_treeWidget d' = Tree.m_treeWidget d ->
  tree_items_ok w pages d -> tree_items_ok w pages d'.
Proof. unfold tree_items_ok. by intros ->. Qed.

Lemma tree_construct_items_ok w pages :
  tree_items_ok w pages (Tree.construct pages w).
Proof.
  induction pages as [|page pages IH] using rev_ind.
  - by intros item ?%elem_of_nil.
  - unfold Tree.construct. rewrite tree_addPages_snoc. cbv zeta.
    eapply tree_items_ok_tree; [done|].
    apply tree_items_ok_addPage.
    + eapply tree_grouped_tree; [|apply tree_construct_grouped]. done.
    + eapply tree_items_ok_tree; [|exact IH]. done.
Qed.

(** X6.  After construction, the tab widget of every tree item holds one tab
    for each page of the item's section, in the order of the pages, showing
    the page's widget under the page's category; the item's icon and tool tip
    are those of the first page of its section, and so is the page whose icon
    the item takes at a change of theme. *)
Theorem tree_item_holds_its_section (pages : list PagePtr) (w : World P)
    (item : Tree.QTreeWidgetItem) :
  item ∈ Tree.m_treeWidget (Tree.construct pages w) ->
  Tree.tabs (Tree.userData item)
    = tabOf w <$> pagesOfSection w (Tree.text item) pages
  /\ exists first,
       head (pagesOfSection w (Tree.text item) pages) = Some first
       /\ Tree.itemPage item = first
       /\ Tree.itemIcon item = icon (heap w first) (isDarkMode w)
       /\ Tree.toolTip item = description (heap w first).
Proof.
  intros Hitem.
  destruct (tree_construct_items_ok w pages item Hitem)
    as (Htabs & Hhead & Hicon & Htip & _).
  split; [done|]. by exists (Tree.itemPage item).
Qed.

Lemma tree_settingsChanged_structure page (connections : list PagePtr) d :
  treeStructure
    (foldl (fun d connected =>
              if decide (connected = page) then Tree.setApplyEnabled true d else d)
           d connections)
  = treeStructure d.
Proof.
  revert d. induction connections as [|c connections IH]; intros d; [done|].
  simpl. rewrite IH. by case_decide.
Qed.

Lemma tree_close_structure d w :
  treeStructure (Tree.close d w).1 = treeStructure d.
Proof. rewrite tree_close_spec. by destruct (Tree.okToClose d w). Qed.

Lemma tree_themeChanged_structure d w :
  treeStructure (Tree.themeChanged d w) = treeStructure d.
Proof.
  unfold treeStructure, Tree.themeChanged.
  cbn [Tree.m_pages Tree.settingsChangedConnections Tree.m_currentPage
       Tree.m_stackedWidget Tree.m_treeWidget Tree.setTreeWidget Tree.setStyleSheet].
  f_equal. rewrite <-list_fmap_compose. by apply list_fmap_ext.
Qed.

Lemma tree_handle_structure e d w :
  treeStructure (Tree.handle e d w).1 = treeStructure d.
Proof.
  destruct e; cbn [Tree.handle fst].
  - done.
  - apply tree_settingsChanged_structure.
  - unfold Tree.okClicked. rewrite tree_acceptSettings_spec.
    destruct (allCanAccept _ _); by rewrite tree_close_structure.
  - unfold Tree.applyClicked. rewrite tree_acceptSettings_spec.
    by destruct (allCanAccept _ _).
  - apply tree_close_structure.
  - apply tree_close_structure.
  - apply tree_themeChanged_structure.
Qed.

Lemma tree_run_structure events d w :
  treeStructure (Tree.run events d w).1 = treeStructure d.
Proof.
  induction events as [|e events IH] using rev_ind; [done|].
  by rewrite tree_run_snoc, tree_handle_structure.
Qed.

(** X7.  Nothing that happens to a tree-list dialog after its construction
    (page signals, button clicks, close requests, changes of theme, being
    shown) changes which pages it holds, which signals are connected, what is
    in the stack, or the tree's items with their texts, tabs, tool tips and
    pages: events change only the Apply button, the visibility, the icons and
    the style sheets. *)
Theorem tree_events_keep_structure (events : list Tree.Event)
    (d : Tree.SettingsDialog) (w : World P) :
  let d' := (Tree.run events d w).1 in
  Tree.m_pages d' = Tree.m_pages d
  /\ Tree.settingsChangedConnections d' = Tree.settingsChangedConnections d
  /\ Tree.m_currentPage d' = Tree.m_currentPage d
  /\ Tree.m_stackedWidget d' = Tree.m_stackedWidget d
  /\ itemStructure <$> Tree.m_treeWidget d' = itemStructure <$> Tree.m_treeWidget d.
Proof.
  cbv zeta. pose proof (tree_run_structure events d w) as Hs.
  unfold treeStructure in Hs. injection Hs as -> -> -> -> ->. done.
Qed.

(** X8.  On the tree-list layout the dialog's size hint never follows a
    page: the constructor sets no current page and no handler sets one, so
    after any sequence of events [sizeHint()] is the base widget's size
    hint. *)
Theorem tree_sizeHint_is_base (widgetSizeHint : QWidgetPtr -> QSize)
    (baseSizeHint : QSize) (pages : list PagePtr) (w0 w : World P)
    (events : list Tree.Event) :
  Tree.sizeHint widgetSizeHint baseSizeHint
    (Tree.run events (Tree.construct pages w0) w).1 = baseSizeHint.
Proof.
  pose proof (tree_run_structure events (Tree.construct pages w0) w) as Hs.
  unfold treeStructure in Hs. injection Hs as _ _ Hc _ _.
  unfold Tree.sizeHint. rewrite Hc.
  by destruct (tree_construct_fields pages w0) as (_ & _ & _ & -> & _).
Qed.

(** X9.  A change of theme, whenever it comes, gives the dialog and every
    tab widget their style sheets for the new mode, and every tree item the
    icon, for the new mode, of the first page of the item's section (of the
    page object as it then is); the page objects are not touched. *)
Theorem tree_theme_change_restyles (pages : list PagePtr) (w0 w : World P)
    (events : list Tree.Event) (dark : bool) :
  let before := Tree.run events (Tree.construct pages w0) w in
  let after := Tree.handle (Tree.ThemeChanged dark) before.1 before.2 in
  Tree.styleSheet after.1 = updateStyleSheet ThemeStylesheet dark
  /\ heap after.2 = heap before.2
  /\ acceptCalls after.2 = acceptCalls before.2
  /\ texts after.1 = texts (Tree.construct pages w0)
  /\ forall item, item ∈ Tree.m_treeWidget after.1 ->
       Tree.tabStyleSheet (Tree.userData item)
         = updateStyleSheet ThemeSubStylesheet dark
       /\ exists first,
            head (pagesOfSection w0 (Tree.text item) pages) = Some first
            /\ Tree.itemIcon item = icon (heap before.2 first) dark.
Proof.
  cbv zeta.
  pose proof (tree_run_structure events (Tree.construct pages w0) w) as Hs.
  unfold treeStructure in Hs. injection Hs as _ _ _ _ Htree.
  set (d := (Tree.run events (Tree.construct pages w0) w).1) in *.
  set (w1 := (Tree.run events (Tree.construct pages w0) w).2).
  cbn [Tree.handle fst snd heap acceptCalls].
  split_and!; try done.
  - unfold texts, Tree.themeChanged.
    cbn [Tree.m_treeWidget Tree.setTreeWidget].
    rewrite <-list_fmap_compose.
    transitivity ((fun s => s.1.1.1) <$> (itemStructure <$> Tree.m_treeWidget d)).
    + rewrite <-list_fmap_compose. by apply list_fmap_ext.
    + rewrite Htree, <-list_fmap_compose. by apply list_fmap_ext.
  - intros item. unfold Tree.themeChanged.
    cbn [Tree.m_treeWidget Tree.setTreeWidget Tree.setStyleSheet].
    intros (old & -> & Hold)%list_elem_of_fmap.
    cbn [Tree.tabStyleSheet Tree.userData Tree.text Tree.itemIcon isDarkMode heap].
    split; [done|].
    assert (itemStructure old ∈ itemStructure <$> Tree.m_treeWidget (Tree.construct pages w0))
      as (item0 & Heq & Hin0)%list_elem_of_fmap.
    { rewrite <-Htree. by apply list_elem_of_fmap_2. }
    destruct (tree_construct_items_ok w0 pages item0 Hin0) as (_ & Hhead & _).
    unfold itemStructure in Heq. injection Heq as Ht _ _ Hp.
    exists (Tree.itemPage old). split; [|done]. by rewrite Ht, Hp.
Qed.

Lemma listWidth_spec (boundingWidth : string -> Z) (items : list Tree.QTreeWidgetItem) :
  let listWidth :=
    foldl (fun listWidth item =>
             let width := boundingWidth (Tree.text item) in
             if width >? listWidth then width else listWidth) 0 items in
  0 <= listWidth
  /\ (forall item, item ∈ items -> boundingWidth (Tree.text item) <= listWidth)
  /\ (listWidth = 0
      \/ exists item, item ∈ items /\ listWidth = boundingWidth (Tree.text item)).
Proof.
  cbv zeta. induction items as [|item items IH] using rev_ind.
  - simpl. split_and!; [lia| |by left]. by intros item ?%elem_of_nil.
  - rewrite foldl_app. cbn [foldl]. destruct IH as (Hpos & Hall & Hsome).
    match goal with |- context [?a >? ?b] => destruct (Z.gtb_spec a b) as [Hgt|Hle] end.
    + split_and!; [lia| |].
      * intros it [Hit|Hit%list_elem_of_singleton]%elem_of_app.
        -- specialize (Hall it Hit). lia.
        -- subst it. lia.
      * right. exists item. split; [|done]. apply elem_of_app. right. by left.
    + split_and!; [lia| |].
      * intros it [Hit|Hit%list_elem_of_singleton]%elem_of_app.
        -- by apply Hall.
        -- by subst it.
      * destruct Hsome as [?|(it & Hit & ?)]; [by left|].
        right. exists it. split; [|done]. apply elem_of_app. by left.
Qed.

(** X10.  The tree is given a fixed width that fits every section's name:
    its minimum and maximum width are both the width of the widest section
    name (or 0 when none is wider) plus twice the icon size of 32, as long as
    the widths of the names leave room for that sum in an [int]. *)
Theorem tree_width_fits_sections (boundingWidth : string -> Z)
    (pages : list PagePtr) (w : World P) :
  (forall s, - 2 ^ 31 <= boundingWidth s <= 2 ^ 31 - 65) ->
  let treeWidth := treeWidgetWidth boundingWidth (Tree.construct pages w) in
  (forall page, page ∈ pages -> boundingWidth (sectionOf w page) + 64 <= treeWidth)
  /\ 64 <= treeWidth <= 2 ^ 31 - 1
  /\ (treeWidth = 64
      \/ exists page, page ∈ pages /\ treeWidth = boundingWidth (sectionOf w page) + 64).
Proof.
  intros Hrange. unfold treeWidgetWidth, listWidth, SettingsIconSize.
  pose proof (listWidth_spec boundingWidth (Tree.m_treeWidget (Tree.construct pages w)))
    as Hspec.
  cbv zeta in *. destruct Hspec as (Hpos & Hall & Hsome).
  destruct (tree_construct_grouped w pages) as (_ & Hsec & _).
  split_and!.
  - intros page Hp.
    assert (sectionOf w page ∈ texts (Tree.construct pages w)) as Hin
      by (apply Hsec; by exists page).
    apply list_elem_of_fmap in Hin as (item & -> & Hitem).
    specialize (Hall item Hitem). lia.
  - lia.
  - destruct Hsome as [->|(item & Hitem & Hw)]; [lia|].
    pose proof (Hrange (Tree.text item)). lia.
  - destruct Hsome as [Hz|(item & Hitem & Hw)]; [left; lia|]. right.
    assert (Tree.text item ∈ texts (Tree.construct pages w)) as Hin
      by by apply list_elem_of_fmap_2.
    apply Hsec in Hin as (page & Hp & Hs). exists page. split; [done|].
    rewrite Hw, Hs. lia.
Qed.

Lemma tree_addPage_stack page d w :
  exists tabWidget,
    Tree.m_stackedWidget (Tree.addPage page d w).2
      = Tree.stackAddWidget tabWidget (Tree.m_stackedWidget d)
    /\ (((tabWidget < length (Tree.m_treeWidget d))%nat
         /\ length (Tree.m_treeWidget (Tree.addPage page d w).2)
            = length (Tree.m_treeWidget d))
        \/ (tabWidget = length (Tree.m_treeWidget d)
            /\ length (Tree.m_treeWidget (Tree.addPage page d w).2)
               = S (length (Tree.m_treeWidget d)))).
Proof.
  unfold Tree.addPage. destruct (list_find _ _) as [[i item]|] eqn:E; simpl.
  - apply list_find_Some in E as (Hi & _). exists i. split; [done|]. left.
    split; [by eapply lookup_lt_Some|]. by rewrite length_alter.
  - eexists. split; [done|]. right. split; [done|].
    rewrite length_alter, length_app. simpl. lia.
Qed.

Lemma tree_stack_step page d w :
  NoDup (Tree.m_stackedWidget d) ->
  (forall i, i ∈ Tree.m_stackedWidget d <-> (i < length (Tree.m_treeWidget d))%nat) ->
  let d' := (Tree.addPage page d w).2 in
  NoDup (Tree.m_stackedWidget d')
  /\ (forall i, i ∈ Tree.m_stackedWidget d' <-> (i < length (Tree.m_treeWidget d'))%nat).
Proof.
  intros Hnd Hin. cbv zeta.
  destruct (tree_addPage_stack page d w) as (t & -> & Hcase).
  unfold Tree.stackAddWidget. split.
  - apply NoDup_app. split_and!.
    + by apply NoDup_filter.
    + intros i [Hne _]%list_elem_of_filter ->%list_elem_of_singleton. done.
    + apply NoDup_singleton.
  - intros i. rewrite elem_of_app, list_elem_of_filter, list_elem_of_singleton, Hin.
    destruct Hcase as [[Ht Hl]|[Ht Hl]]; rewrite Hl; lia.
Qed.

(** X11.  [addPage] adds the section's tab widget to the stack once for
    every page of the section; all the same, after construction the stack
    holds the tab widget of every tree item exactly once. *)
Theorem tree_stack_holds_each_tab_widget_once (pages : list PagePtr) (w : World P) :
  let d := Tree.construct pages w in
  NoDup (Tree.m_stackedWidget d)
  /\ Tree.m_stackedWidget d ≡ₚ seq 0 (length (Tree.m_treeWidget d))
  /\ length (Tree.m_stackedWidget d) = length (firstOccurrences (sectionOf w <$> pages)).
Proof.
  cbv zeta.
  assert (NoDup (Tree.m_stackedWidget (Tree.construct pages w))
          /\ (forall i, i ∈ Tree.m_stackedWidget (Tree.construct pages w)
                 <-> (i < length (Tree.m_treeWidget (Tree.construct pages w)))%nat))
    as [Hnd Hin].
  { induction pages as [|page pages IH] using rev_ind.
    - split; [apply NoDup_nil_2|]. intros i. simpl. split; [by intros ?%elem_of_nil | lia].
    - unfold Tree.construct. rewrite tree_addPages_snoc. cbv zeta.
      destruct IH as [Hnd Hin].
      apply (tree_stack_step page
               (Tree.setConnections _ (Tree.addPages pages _ w)) w Hnd Hin). }
  assert (Tree.m_stackedWidget (Tree.construct pages w)
          ≡ₚ seq 0 (length (Tree.m_treeWidget (Tree.construct pages w)))) as Hperm.
  { apply NoDup_Permutation; [done|apply NoDup_seq|].
    intros i. rewrite Hin, elem_of_seq. lia. }
  split_and!; [done..|].
  rewrite Hperm, length_seq.
  induction pages as [|page pages IH] using rev_ind; [done|].
  pose proof (tree_construct_snoc_texts w pages page) as Ht.
  assert (forall ps, length (Tree.m_treeWidget (Tree.construct ps w))
                     = length (texts (Tree.construct ps w))) as Hlen
    by (intros ps; unfold texts; by rewrite length_fmap).
  rewrite Hlen, Ht, fmap_app, list_fmap_singleton, firstOccurrences_snoc.
  rewrite tree_construct_texts. by case_decide.
Qed.

End TreeMore.

(** ** What a commit does to the page objects *)

Section CommitMore.
Context {P : Type} `{ISettingsPage P} `{Mac.Toolkit}.
Implicit Types (w : World P) (page : PagePtr).

Lemma acceptAll_cons w page (pages : list PagePtr) :
  acceptAll w (page :: pages) = acceptAll (callAcceptSettings page w) pages.
Proof. done. Qed.

Lemma acceptAll_heap (pages : list PagePtr) w q :
  heap (acceptAll w pages) q
  = Nat.iter (length (filter (fun page => page = q) pages)) acceptSettings (heap w q).
Proof.
  revert w. induction pages as [|page pages IH]; intros w; [done|].
  rewrite acceptAll_cons, IH, filter_cons. cbn [callAcceptSettings heap].
  destruct (decide (q = page)) as [->|Hne].
  - rewrite decide_True by done. cbn [length]. by rewrite Nat.iter_succ_r.
  - by rewrite decide_False by done.
Qed.

Lemma acceptAll_world (pages : list PagePtr) w :
  closedEmitted (acceptAll w pages) = closedEmitted w
  /\ isDarkMode (acceptAll w pages) = isDarkMode w.
Proof.
  revert w. induction pages as [|page pages IH]; intros w; [done|].
  rewrite acceptAll_cons. by destruct (IH (callAcceptSettings page w)) as [-> ->].
Qed.

Lemma filter_eq_absent (pages : list PagePtr) q :
  q ∉ pages -> filter (fun page => page = q) pages = [].
Proof.
  induction pages as [|page pages IH]; [done|].
  intros Hq. rewrite filter_cons, decide_False.
  - apply IH. intros Hin. apply Hq. by right.
  - intros ->. apply Hq. by left.
Qed.

(** X12.  A commit that succeeds applies [acceptSettings()] to every
    registered page object once for each time the page was registered, and
    touches nothing else: a page object that is not registered is left as it
    was, no [closed] notification is emitted and the theme is not changed.
    The toolbar layout visits the pages in another order than the tree-list
    layout and leaves the same page objects. *)
Theorem commit_updates_registered_pages (pages : list PagePtr) (w0 w : World P) :
  Inj (=) (=) Mac.itemAddress ->
  allCanAccept w pages = true ->
  let times q := length (filter (fun page => page = q) pages) in
  let committed q := Nat.iter (times q) acceptSettings (heap w q) in
  (let w' := (Tree.acceptSettings (Tree.construct pages w0) w).2 in
   (forall q, heap w' q = committed q)
   /\ closedEmitted w' = closedEmitted w /\ isDarkMode w' = isDarkMode w)
  /\ (forall d, Mac.construct pages w0 = Some d ->
      let w' := (Mac.acceptSettings d w).2 in
      (forall q, heap w' q = committed q)
      /\ closedEmitted w' = closedEmitted w /\ isDarkMode w' = isDarkMode w)
  /\ (forall q, q ∉ pages -> committed q = heap w q)
  /\ (forall q, NoDup pages -> q ∈ pages -> committed q = acceptSettings (heap w q)).
Proof.
  intros Hinj Hall. cbv zeta. split; [|split; [|split]].
  - rewrite tree_acceptSettings_spec.
    destruct (tree_construct_fields pages w0) as (-> & _). rewrite Hall.
    cbn [snd]. split; [intros q; apply acceptAll_heap | apply acceptAll_world].
  - intros d Hd. pose proof (mac_construct_grouped _ _ _ Hinj Hd) as G.
    pose proof (mac_acceptSettings_spec d w) as Hspec. cbv zeta in Hspec.
    rewrite Hspec, (allCanAccept_perm w _ pages), Hall by apply G.
    cbn [snd]. split; [|apply acceptAll_world].
    intros q. rewrite acceptAll_heap. f_equal.
    apply Permutation_length, (filter_Permutation (fun page => page = q)), G.
  - intros q Hq. by rewrite filter_eq_absent.
  - intros q Hnd Hq.
    assert (length (filter (fun page => page = q) pages) = 1%nat) as ->; [|done].
    clear Hall. induction Hnd as [|page pages Hnotin Hnd IH]; [by apply elem_of_nil in Hq|].
    rewrite filter_cons. apply elem_of_cons in Hq as [->|Hq].
    + rewrite decide_True by done. by rewrite filter_eq_absent.
    + rewrite decide_False; [by apply IH|]. by intros ->.
Qed.

End CommitMore.

(** ** The toolbar layout, further *)

Section MacMore.
Context {P : Type} `{ISettingsPage P} `{Mac.Toolkit}.
Implicit Types (d : Mac.SettingsDialog) (w : World P) (page : PagePtr).
Implicit Types (m : gmap Mac.ItemPtr Mac.SettingsPage).

Lemma mac_step_containers w d page :
  ((exists k sp, Mac.m_pages d !! k = Some sp /\ Mac.m_name sp = sectionOf w page) ->
     Mac.containersCreated (mac_step w d page) = Mac.containersCreated d)
  /\ ((forall k sp, Mac.m_pages d !! k = Some sp -> Mac.m_name sp <> sectionOf w page) ->
     Mac.containersCreated (mac_step w d page) = S (Mac.containersCreated d))
  /\ Mac.m_maximumWidth (mac_step w d page) = Mac.m_maximumWidth d.
Proof.
  unfold mac_step, Mac.addPage.
  destruct (find _ _) as [[k sp]|] eqn:E; simpl.
  - split_and!; [done| |done]. intros Hnone.
    apply find_some in E as [Hin Hname].
    apply list_elem_of_In, elem_of_entries in Hin.
    apply bool_decide_eq_true in Hname. by destruct (Hnone k sp Hin).
  - split_and!; [|done..]. intros (k & sp & Hk & Hname).
    assert (In (k, sp) (Mac.entries (Mac.m_pages d))) as Hin
      by by apply list_elem_of_In, elem_of_entries.
    apply (find_none _ _ E) in Hin. by apply bool_decide_eq_false in Hin.
Qed.

Lemma mac_names_distinct w pages d k1 k2 sp1 sp2 :
  mac_grouped w pages d ->
  Mac.m_pages d !! k1 = Some sp1 -> Mac.m_pages d !! k2 = Some sp2 ->
  Mac.m_name sp1 = Mac.m_name sp2 -> k1 = k2.
Proof.
  intros G Hsp1 Hsp2 Hn.
  destruct (mg_pages _ _ _ G _ _ Hsp1) as (_ & i1 & item1 & Hi1 & Hl1).
  destruct (mg_pages _ _ _ G _ _ Hsp2) as (_ & i2 & item2 & Hi2 & Hl2).
  assert (i1 = i2) as ->.
  { eapply (NoDup_lookup (labels d)); [apply G| |]; unfold labels;
      rewrite list_lookup_fmap.
    - by rewrite Hi1.
    - rewrite Hi2. simpl. f_equal. congruence. }
  congruence.
Qed.

Lemma mac_label_known w pages d k sp :
  mac_grouped w pages d ->
  Mac.m_pages d !! k = Some sp -> Mac.m_name sp ∈ labels d.
Proof.
  intros G Hk. destruct (mg_pages _ _ _ G _ _ Hk) as (_ & i & item & Hi & Hl).
  rewrite <-Hl. unfold labels.
  apply (list_elem_of_fmap_2 (fun item => Mac.toolbarLabel item.2) _ (k, item)).
  by eapply list_elem_of_lookup_2.
Qed.

Lemma mac_sections_found w pages page d d' k sp :
  mac_grouped w pages d -> mac_sections w pages d ->
  Mac.m_pages d !! k = Some sp -> Mac.m_name sp = sectionOf w page ->
  Mac.m_toolbar d' = Mac.m_toolbar d ->
  Mac.m_pages d' = <[k := extended w page sp]> (Mac.m_pages d) ->
  Mac.containersCreated d' = Mac.containersCreated d ->
  mac_sections w (pages ++ [page]) d'.
Proof.
  intros G S Hk Hn Htb Hpg Hcc.
  assert (labels d' = labels d) as Hlabels by (unfold labels; by rewrite Htb).
  split.
  - rewrite Hlabels, fmap_app, list_fmap_singleton, firstOccurrences_snoc.
    rewrite <-(ms_labels _ _ _ S), decide_True; [done|].
    rewrite <-Hn. by eapply mac_label_known.
  - intros item. rewrite Htb. intros Hitem.
    destruct (ms_icons _ _ _ S item Hitem) as (first & Hhead & Hicon).
    exists first. split; [|done]. rewrite pagesOfSection_snoc.
    case_decide; [by apply head_snoc_Some | done].
  - intros k' sp'. rewrite Hpg, lookup_insert. case_decide as Hd.
    + intros [= <-]. destruct (ms_settings _ _ _ S _ _ Hk) as (Hps & first & Hhead & Hi & Hdesc).
      unfold extended.
      cbn [Mac.appendPageSettings Mac.setWidget Mac.m_pageSettings Mac.m_name
           Mac.m_icon Mac.m_description].
      rewrite pagesOfSection_snoc, decide_True by done. rewrite <-Hps.
      split; [done|]. exists first. split; [by apply head_snoc_Some | done].
    + intros Hk'. destruct (ms_settings _ _ _ S _ _ Hk') as (Hps & Hfirst).
      split; [|done]. rewrite pagesOfSection_snoc, decide_False; [done|].
      intros Heq. apply Hd. eapply (mac_names_distinct w pages d); [done..|congruence].
  - intros k' sp'. rewrite Hpg, Hcc, lookup_insert. case_decide.
    + intros [= <-]. unfold extended, withPage. cbn. case_decide; cbn;
        by apply (ms_address _ _ _ S k sp).
    + apply S.
  - assert (Mac.address (Mac.m_widget (extended w page sp)) = Mac.address (Mac.m_widget sp))
      as Haddr.
    { unfold extended, withPage. cbn. by case_decide. }
    intros k1 k2 sp1 sp2. rewrite Hpg, !lookup_insert.
    repeat case_decide; subst.
    + done.
    + intros [= <-] Hsp2. rewrite Haddr. intros Ha.
      by apply (ms_distinct _ _ _ S k1 k2 sp sp2).
    + intros Hsp1 [= <-]. rewrite Haddr. intros Ha.
      by apply (ms_distinct _ _ _ S k1 k2 sp1 sp).
    + apply S.
Qed.

Lemma mac_sections_new w pages page d d' :
  Inj (=) (=) Mac.itemAddress ->
  mac_grouped w pages d -> mac_sections w pages d ->
  (forall k sp, Mac.m_pages d !! k = Some sp -> Mac.m_name sp <> sectionOf w page) ->
  Mac.m_toolbar d' =
    Mac.m_toolbar d ++
      [(Mac.itemAddress (length (Mac.m_toolbar d)),
        {| Mac.toolbarIcon := icon (heap w page) (isDarkMode w);
           Mac.toolbarLabel := sectionOf w page |})] ->
  Mac.m_pages d' =
    <[Mac.itemAddress (length (Mac.m_toolbar d)) := created w page d]> (Mac.m_pages d) ->
  Mac.containersCreated d' = S (Mac.containersCreated d) ->
  mac_sections w (pages ++ [page]) d'.
Proof.
  intros Hinj G S Hnone Htb Hpg Hcc.
  assert (forall p, p ∈ pages -> sectionOf w p <> sectionOf w page) as Hother.
  { intros p Hp Heq. destruct (mg_placed _ _ _ G p Hp) as (k & sp & Hsp & Hn & _).
    apply (Hnone k sp Hsp). congruence. }
  assert (sectionOf w page ∉ labels d) as Hnew.
  { intros (p & Hp & Hs)%(mg_labels _ _ _ G). by apply (Hother p). }
  assert (labels d' = labels d ++ [sectionOf w page]) as Hlabels.
  { unfold labels. by rewrite Htb, fmap_app. }
  assert (Mac.address (Mac.m_widget (created w page d)) = Mac.containersCreated d)
    as Haddr by done.
  split.
  - rewrite Hlabels, fmap_app, list_fmap_singleton, firstOccurrences_snoc.
    by rewrite <-(ms_labels _ _ _ S), decide_False.
  - intros item. rewrite Htb.
    intros [Hitem| ->%list_elem_of_singleton]%elem_of_app.
    + destruct (ms_icons _ _ _ S item Hitem) as (first & Hhead & Hicon).
      exists first. split; [|done]. rewrite pagesOfSection_snoc, decide_False; [done|].
      intros Heq. apply Hnew. rewrite Heq. unfold labels.
      by apply (list_elem_of_fmap_2 (fun item => Mac.toolbarLabel item.2)).
    + cbn [snd Mac.toolbarLabel Mac.toolbarIcon]. exists page.
      rewrite pagesOfSection_snoc, decide_True by done.
      by rewrite pagesOfSection_nil.
  - intros k sp. rewrite Hpg, lookup_insert. case_decide.
    + intros [= <-]. cbn [created Mac.m_pageSettings Mac.m_name Mac.m_icon Mac.m_description].
      rewrite pagesOfSection_snoc, decide_True by done.
      rewrite pagesOfSection_nil by done. split; [done|]. by exists page.
    + intros Hk. destruct (ms_settings _ _ _ S _ _ Hk) as (Hps & Hfirst).
      split; [|done]. rewrite pagesOfSection_snoc, decide_False; [done|].
      intros Heq. by apply (Hnone k sp).
  - intros k sp. rewrite Hpg, Hcc, lookup_insert. case_decide.
    + intros [= <-]. rewrite Haddr. lia.
    + intros Hk. pose proof (ms_address _ _ _ S _ _ Hk). lia.
  - intros k1 k2 sp1 sp2. rewrite Hpg, !lookup_insert.
    repeat case_decide; subst.
    + done.
    + intros [= <-] Hsp2. rewrite Haddr. intros Ha.
      pose proof (ms_address _ _ _ S _ _ Hsp2). lia.
    + intros Hsp1 [= <-]. rewrite Haddr. intros Ha.
      pose proof (ms_address _ _ _ S _ _ Hsp1). lia.
    + apply S.
Qed.

Lemma mac_sections_step w pages page d :
  Inj (=) (=) Mac.itemAddress ->
  mac_grouped w pages d -> mac_sections w pages d ->
  mac_sections w (pages ++ [page]) (mac_step w d page).
Proof.
  intros Hinj G S.
  destruct (mac_step_containers w d page) as (Hsame & Hnext & _).
  destruct (mac_step_cases w d page) as
    (_ & _ & [(k & sp & Hk & Hn & Htb & Hpg)|(Hnone & Htb & Hpg)]).
  - destruct (mg_pages _ _ _ G k sp Hk) as (Hitem & _).
    rewrite Hitem, insert_insert_eq in Hpg.
    eapply mac_sections_found; [done..|]. apply Hsame. by exists k, sp.
  - eapply mac_sections_new; [done..|]. by apply Hnext.
Qed.

Lemma mac_sections_empty w : mac_sections w [] (Mac.emptyDialog w).
Proof.
  split; simpl.
  - done.
  - by intros item ?%elem_of_nil.
  - intros k sp. by rewrite lookup_empty.
  - intros k sp. by rewrite lookup_empty.
  - intros k1 k2 sp1 sp2 Hsp1. simpl in Hsp1. by rewrite lookup_empty in Hsp1.
Qed.

Lemma mac_addPages_sections w pages :
  Inj (=) (=) Mac.itemAddress ->
  mac_sections w pages (Mac.addPages pages (Mac.emptyDialog w) w).
Proof.
  intros Hinj. induction pages as [|page pages IH] using rev_ind.
  - apply mac_sections_empty.
  - rewrite mac_addPages_snoc.
    apply mac_sections_step; [done| |done]. by apply mac_addPages_grouped.
Qed.

Lemma mac_hidden_step w d page :
  mac_hidden d -> mac_hidden (mac_step w d page).
Proof.
  intros Hh.
  assert (forall widget c, Mac.opacity (withPage widget c) = Mac.opacity c
                        /\ Mac.size (withPage widget c) = Mac.size c) as Hwp.
  { intros widget c. unfold withPage. by case_decide. }
  destruct (mac_step_cases w d page) as
    (_ & _ & [(k & sp & Hk & Hn & Htb & Hpg)|(Hnone & Htb & Hpg)]);
    intros k' sp'; rewrite Hpg.
  - assert (Mac.opacity (Mac.m_widget (extended w page sp)) = 0%Qc
            /\ Mac.size (Mac.m_widget (extended w page sp)) = mkQSize 0 0) as Hext.
    { unfold extended. cbn [Mac.appendPageSettings Mac.setWidget Mac.m_widget].
      destruct (Hwp (createWidget (heap w page)) (Mac.m_widget sp)) as [-> ->].
      by apply (Hh k sp). }
    rewrite !lookup_insert. repeat case_decide; try (by intros [= <-]). apply Hh.
  - rewrite lookup_insert. case_decide; [|apply Hh]. intros [= <-].
    cbn [created Mac.m_widget].
    by destruct (Hwp (createWidget (heap w page))
                   (Mac.newTransparentWidget (Mac.containersCreated d) 0)) as [-> ->].
Qed.

Lemma mac_addPages_hidden w pages :
  mac_hidden (Mac.addPages pages (Mac.emptyDialog w) w).
Proof.
  induction pages as [|page pages IH] using rev_ind.
  - intros k sp. simpl. by rewrite lookup_empty.
  - rewrite mac_addPages_snoc. by apply mac_hidden_step.
Qed.

Lemma mac_construct_shape pages w d :
  Mac.construct pages w = Some d ->
  exists key first rest,
    let loop := Mac.addPages pages (Mac.emptyDialog w) w in
    let hint := Mac.containerSizeHint (Mac.m_widget first) in
    Mac.entries (Mac.m_pages loop) = (key, first) :: rest
    /\ Mac.m_toolbar d = Mac.m_toolbar loop
    /\ Mac.m_pages d = <[key := shown first]> (Mac.m_pages loop)
    /\ Mac.containersCreated d = Mac.containersCreated loop
    /\ Mac.m_maximumWidth d =
         width (foldl (fun size sp =>
                         mkQSize (Z.max (width (Mac.containerSizeHint (Mac.m_widget sp)))
                                        (width size))
                                 (Z.max (height (Mac.containerSizeHint (Mac.m_widget sp)))
                                        (height size)))
                      (mkQSize Mac.DefaultMinimumWidth 0) (Mac.values (Mac.m_pages loop)))
    /\ Mac.minimumSize d = mkQSize (Mac.m_maximumWidth d) (height hint)
    /\ Mac.maximumSize d = mkQSize (Mac.m_maximumWidth d) (height hint)
    /\ Mac.dialogSize d = mkQSize (Mac.m_maximumWidth d) (Z.max 0 (height hint))
    /\ Mac.windowTitle d = Mac.m_name first
    /\ Mac.m_currentPage d = Some key.
Proof.
  unfold Mac.construct.
  destruct (Mac.entries _) as [|[key first] rest] eqn:E; [done|].
  cbn [Mac.m_pages Mac.setMaximumWidth] in E.
  intros [= <-]. exists key, first, rest. cbv zeta. split_and!; try done.
  cbn. f_equal. destruct (Z.gtb_spec (height (Mac.containerSizeHint (Mac.m_widget first))) 0); lia.
Qed.

Lemma mac_widest (sections : list Mac.SettingsPage) (start : QSize) :
  let size :=
    foldl (fun size sp =>
             mkQSize (Z.max (width (Mac.containerSizeHint (Mac.m_widget sp))) (width size))
                     (Z.max (height (Mac.containerSizeHint (Mac.m_widget sp))) (height size)))
          start sections in
  width start <= width size
  /\ (forall sp, sp ∈ sections ->
        width (Mac.containerSizeHint (Mac.m_widget sp)) <= width size)
  /\ (width size = width start
      \/ exists sp, sp ∈ sections
           /\ width size = width (Mac.containerSizeHint (Mac.m_widget sp))).
Proof.
  cbv zeta. induction sections as [|section sections IH] using rev_ind.
  - simpl. split_and!; [lia| |by left]. by intros sp ?%elem_of_nil.
  - rewrite foldl_app. cbn [foldl width]. destruct IH as (Hstart & Hall & Hsome).
    split_and!.
    + lia.
    + intros p [Hp|Hp%list_elem_of_singleton]%elem_of_app.
      * specialize (Hall p Hp). lia.
      * subst p. lia.
    + match goal with |- Z.max ?a ?b = _ \/ _ => destruct (Z.max_spec a b) as [[_ ->]|[_ ->]] end.
      * destruct Hsome as [?|(p & Hp & ?)]; [by left|].
        right. exists p. split; [|done]. apply elem_of_app. by left.
      * right. exists section. split; [|done]. apply elem_of_app. right. by left.
Qed.

Lemma keyLe_transitive : Transitive Mac.keyLe.
Proof. intros a b c. unfold Mac.keyLe. lia. Qed.

Lemma keyLe_total : Total Mac.keyLe.
Proof. intros a b. unfold Mac.keyLe. lia. Qed.

Lemma mac_entries_least m key first rest k :
  Mac.entries m = (key, first) :: rest -> is_Some (m !! k) -> (key <= k)%nat.
Proof.
  intros E [sp Hk].
  pose proof (@StronglySorted_merge_sort _ Mac.keyLe _ keyLe_transitive keyLe_total
                (map_to_list m)) as Hsorted.
  fold (Mac.entries m) in Hsorted. rewrite E in Hsorted.
  apply StronglySorted_inv in Hsorted as [_ Hall].
  apply elem_of_entries in Hk. rewrite E in Hk.
  apply elem_of_cons in Hk as [[= -> ->]|Hk]; [done|].
  rewrite Forall_forall in Hall. apply (Hall (k, sp) Hk).
Qed.

Lemma mac_sections_shown w pages d d' key first :
  mac_sections w pages d ->
  Mac.m_pages d !! key = Some first ->
  Mac.m_toolbar d' = Mac.m_toolbar d ->
  Mac.m_pages d' = <[key := shown first]> (Mac.m_pages d) ->
  Mac.containersCreated d' = Mac.containersCreated d ->
  mac_sections w pages d'.
Proof.
  intros S Hk Htb Hpg Hcc.
  assert (forall k sp, Mac.m_pages d' !! k = Some sp ->
            exists sp0, Mac.m_pages d !! k = Some sp0
              /\ pageStructure sp = pageStructure sp0) as Hold.
  { intros k sp. rewrite Hpg, lookup_insert. case_decide.
    - intros [= <-]. subst k. by exists first.
    - intros Hsp. by exists sp. }
  split.
  - unfold labels. rewrite Htb. apply S.
  - rewrite Htb. apply S.
  - intros k sp (sp0 & Hsp0 & Heq)%Hold. injection Heq as -> _ _ -> _ -> ->.
    by apply (ms_settings _ _ _ S k).
  - intros k sp (sp0 & Hsp0 & Heq)%Hold. injection Heq as _ -> _ _ _ _ _.
    rewrite Hcc. by apply (ms_address _ _ _ S k).
  - intros k1 k2 sp1 sp2 (sp01 & Hsp01 & Heq1)%Hold (sp02 & Hsp02 & Heq2)%Hold.
    injection Heq1 as _ -> _ _ _ _ _. injection Heq2 as _ -> _ _ _ _ _.
    by apply (ms_distinct _ _ _ S).
Qed.

Lemma mac_construct_sections pages w d :
  Inj (=) (=) Mac.itemAddress ->
  Mac.construct pages w = Some d -> mac_sections w pages d.
Proof.
  intros Hinj (key & first & rest & E & Htb & Hpg & Hcc & _)%mac_construct_shape.
  eapply mac_sections_shown; [by apply mac_addPages_sections| |done..].
  apply elem_of_entries. rewrite E. by left.
Qed.

(** X13.  The toolbar constructor's result in closed form.  The toolbar's
    items carry the sections in the order in which they first appear in the
    list of pages, the item at position [i] being the [i]-th one that the
    toolbar allocated; the item's entry in [m_pages] holds the pages of the
    section in the order given, and the icon and description of the first of
    them, whose icon the toolbar item shows; its container holds their
    widgets with separators between them.  Every entry of [m_pages] belongs
    to a toolbar item, and no two entries share a container. *)
Theorem toolbar_constructor_closed_form (pages : list PagePtr) (w : World P)
    (d : Mac.SettingsDialog) :
  Inj (=) (=) Mac.itemAddress ->
  Mac.construct pages w = Some d ->
  labels d = firstOccurrences (sectionOf w <$> pages)
  /\ (forall i k item, Mac.m_toolbar d !! i = Some (k, item) ->
        let members := pagesOfSection w (Mac.toolbarLabel item) pages in
        k = Mac.itemAddress i
        /\ exists settingsPage first,
             Mac.m_pages d !! k = Some settingsPage
             /\ head members = Some first
             /\ Mac.m_name settingsPage = Mac.toolbarLabel item
             /\ Mac.m_pageSettings settingsPage = members
             /\ Mac.m_toolbarItem settingsPage = k
             /\ Mac.m_icon settingsPage = icon (heap w first) (isDarkMode w)
             /\ Mac.m_description settingsPage = description (heap w first)
             /\ Mac.toolbarIcon item = icon (heap w first) (isDarkMode w)
             /\ Mac.children (Mac.m_widget settingsPage)
                = withSeparators (pageWidgets w members))
  /\ (forall k, is_Some (Mac.m_pages d !! k) ->
        exists i item, Mac.m_toolbar d !! i = Some (k, item))
  /\ mac_distinct d.
Proof.
  intros Hinj Hd.
  pose proof (mac_construct_grouped _ _ _ Hinj Hd) as G.
  pose proof (mac_construct_sections _ _ _ Hinj Hd) as S.
  split_and!.
  - apply S.
  - intros i k item Hi. cbv zeta.
    destruct (mg_toolbar _ _ _ G _ _ _ Hi) as (-> & sp & Hsp & Hn).
    split; [done|].
    destruct (ms_settings _ _ _ S _ _ Hsp) as (Hps & first & Hhead & Hicon & Hdesc).
    destruct (ms_icons _ _ _ S (Mac.itemAddress i, item)) as (first' & Hhead' & Hicon');
      [by eapply list_elem_of_lookup_2|].
    cbn [snd] in Hhead', Hicon'.
    destruct (mg_group _ _ _ G _ _ Hsp) as (_ & _ & Hch).
    destruct (mg_pages _ _ _ G _ _ Hsp) as (Hitem & _).
    rewrite Hn in Hps. rewrite Hps in Hhead, Hch.
    assert (first' = first) as -> by congruence.
    exists sp, first. by split_and!.
  - intros k [sp Hsp].
    destruct (mg_pages _ _ _ G _ _ Hsp) as (_ & i & item & Hi & _). by exists i, item.
  - apply S.
Qed.

(** X14.  The widths that the toolbar constructor settles on.  The maximum
    width is the largest width that a section's container asks for and at
    least the default minimum width of 300: no container asks for more.  The
    dialog's minimum and maximum size are both that width by the height that
    the first section's container asks for, so the window cannot be resized
    by hand, and the window is placed with that size (with height 0 when the
    container asks for a negative height). *)
Theorem toolbar_constructor_geometry (pages : list PagePtr) (w : World P)
    (d : Mac.SettingsDialog) :
  Mac.construct pages w = Some d ->
  Mac.DefaultMinimumWidth <= Mac.m_maximumWidth d
  /\ (forall k sp, Mac.m_pages d !! k = Some sp ->
        width (Mac.containerSizeHint (Mac.m_widget sp)) <= Mac.m_maximumWidth d)
  /\ (Mac.m_maximumWidth d = Mac.DefaultMinimumWidth
      \/ exists k sp, Mac.m_pages d !! k = Some sp
           /\ Mac.m_maximumWidth d = width (Mac.containerSizeHint (Mac.m_widget sp)))
  /\ exists current currentPage,
       Mac.m_currentPage d = Some current
       /\ Mac.m_pages d !! current = Some currentPage
       /\ let hint := Mac.containerSizeHint (Mac.m_widget currentPage) in
          Mac.minimumSize d = mkQSize (Mac.m_maximumWidth d) (height hint)
          /\ Mac.maximumSize d = Mac.minimumSize d
          /\ Mac.dialogSize d = mkQSize (Mac.m_maximumWidth d) (Z.max 0 (height hint)).
Proof.
  intros (key & first & rest & E & Htb & Hpg & Hcc & Hmw & Hmin & Hmax & Hsize & _ & Hcur)
    %mac_construct_shape.
  cbv zeta in *.
  assert (Mac.m_pages (Mac.addPages pages (Mac.emptyDialog w) w) !! key = Some first) as Hk.
  { apply elem_of_entries. rewrite E. by left. }
  assert (forall k sp, Mac.m_pages d !! k = Some sp ->
            exists sp0, Mac.m_pages (Mac.addPages pages (Mac.emptyDialog w) w) !! k = Some sp0
              /\ Mac.containerSizeHint (Mac.m_widget sp)
                 = Mac.containerSizeHint (Mac.m_widget sp0)) as Hold.
  { intros k sp. rewrite Hpg, lookup_insert. case_decide.
    - intros [= <-]. subst k. by exists first.
    - intros Hsp. by exists sp. }
  destruct (mac_widest (Mac.values (Mac.m_pages (Mac.addPages pages (Mac.emptyDialog w) w)))
              (mkQSize Mac.DefaultMinimumWidth 0)) as (Hstart & Hall & Hsome).
  rewrite <-Hmw in Hstart, Hall, Hsome. split_and!.
  - exact Hstart.
  - intros k sp (sp0 & Hsp0 & ->)%Hold. apply Hall, elem_of_values. by exists k.
  - destruct Hsome as [?|(sp0 & [k Hsp0]%elem_of_values & Hw)]; [by left|]. right.
    destruct (decide (k = key)) as [->|Hne].
    + exists key, (shown first). rewrite Hpg, lookup_insert_eq. split; [done|].
      rewrite Hw. assert (sp0 = first) as -> by congruence. done.
    + exists k, sp0. by rewrite Hpg, lookup_insert_ne.
  - exists key, (shown first). rewrite Hpg, lookup_insert_eq.
    split_and!; [done..| |congruence|]; done.
Qed.

(** X15.  The page on which the toolbar dialog opens.  The constructor makes
    current the entry of [m_pages] with the least key, that is the section
    whose toolbar item has the lowest address: its container is opaque and
    every other container transparent, the window's title is its name, no
    animation runs, and [sizeHint()] is what its container asks for. *)
Theorem toolbar_opens_on_least_item (pages : list PagePtr) (w : World P)
    (d : Mac.SettingsDialog) :
  Mac.construct pages w = Some d ->
  exists current currentPage,
    Mac.m_currentPage d = Some current
    /\ Mac.m_pages d !! current = Some currentPage
    /\ (forall k, is_Some (Mac.m_pages d !! k) -> (current <= k)%nat)
    /\ Mac.opacity (Mac.m_widget currentPage) = 1%Qc
    /\ (forall k sp, Mac.m_pages d !! k = Some sp -> k <> current ->
          Mac.opacity (Mac.m_widget sp) = 0%Qc)
    /\ Mac.windowTitle d = Mac.m_name currentPage
    /\ Mac.m_animationGroup d = None
    /\ Mac.sizeHint d = Some (Mac.containerSizeHint (Mac.m_widget currentPage)).
Proof.
  intros Hd.
  destruct (mac_construct_Some _ _ _ Hd) as (_ & _ & _ & _ & _ & _ & Hgrp & _).
  destruct (mac_construct_shape _ _ _ Hd)
    as (key & first & rest & E & Htb & Hpg & Hcc & _ & _ & _ & _ & Htitle & Hcur).
  cbv zeta in *.
  exists key, (shown first). rewrite Hpg, lookup_insert_eq. split_and!; try done.
  - intros k. rewrite lookup_insert. case_decide; [subst; lia|].
    by apply mac_entries_least with first rest.
  - intros k sp Hsp Hne. rewrite lookup_insert_ne in Hsp by done.
    by apply (mac_addPages_hidden w pages k sp).
  - unfold Mac.sizeHint. by rewrite Hcur, Hpg, lookup_insert_eq.
Qed.

Lemma mac_construct_least pages w d :
  Mac.construct pages w = Some d ->
  exists key first,
    Mac.m_currentPage d = Some key
    /\ Mac.m_pages d !! key = Some (shown first)
    /\ Mac.windowTitle d = Mac.m_name first
    /\ forall k, is_Some (Mac.m_pages d !! k) -> (key <= k)%nat.
Proof.
  intros (key & first & rest & E & Htb & Hpg & Hcc & _ & _ & _ & _ & Htitle & Hcur)
    %mac_construct_shape.
  cbv zeta in *. exists key, first. rewrite Hpg, lookup_insert_eq. split_and!; try done.
  intros k. rewrite lookup_insert. case_decide; [subst; lia|].
  by apply mac_entries_least with first rest.
Qed.

(** X16.  When the toolbar hands out its items at increasing addresses, the
    dialog opens on the section of the first page it was given. *)
Theorem toolbar_opens_on_first_section (page : PagePtr) (pages : list PagePtr)
    (w : World P) (d : Mac.SettingsDialog) :
  (forall i j, (i < j)%nat -> (Mac.itemAddress i < Mac.itemAddress j)%nat) ->
  Mac.construct (page :: pages) w = Some d ->
  Mac.m_currentPage d = Some (Mac.itemAddress 0)
  /\ Mac.windowTitle d = sectionOf w page
  /\ exists currentPage,
       Mac.m_pages d !! Mac.itemAddress 0 = Some currentPage
       /\ Mac.m_name currentPage = sectionOf w page
       /\ head (Mac.m_pageSettings currentPage) = Some page.
Proof.
  intros Hmono Hd.
  assert (Inj (=) (=) Mac.itemAddress) as Hinj.
  { intros i j Hij. destruct (Nat.lt_trichotomy i j) as [Hlt|[?|Hlt]]; [|done|];
      apply Hmono in Hlt; lia. }
  pose proof (mac_construct_grouped _ _ _ Hinj Hd) as G.
  pose proof (mac_construct_sections _ _ _ Hinj Hd) as Hsec.
  destruct (mac_construct_least _ _ _ Hd) as (key & first & Hcur & Hkey & Htitle & Hleast).
  pose proof (ms_labels _ _ _ Hsec) as Hlabels. unfold labels in Hlabels.
  destruct (Mac.m_toolbar d) as [|[k0 item0] toolbar] eqn:Etb; [done|].
  cbn in Hlabels. injection Hlabels as Hl0 _.
  destruct (mg_toolbar _ _ _ G 0%nat k0 item0) as (-> & sp0 & Hsp0 & Hn0);
    [by rewrite Etb|].
  destruct (mg_pages _ _ _ G _ _ Hkey) as (_ & i & item & Hi & _).
  destruct (mg_toolbar _ _ _ G _ _ _ Hi) as (Hki & _).
  assert (i = 0%nat) as ->.
  { destruct i as [|i]; [done|].
    pose proof (Hmono 0%nat (S i) ltac:(lia)).
    pose proof (Hleast (Mac.itemAddress 0) ltac:(by eexists)). lia. }
  subst key. rewrite Hkey in Hsp0. injection Hsp0 as <-.
  destruct (ms_settings _ _ _ Hsec _ _ Hkey) as (Hps & _).
  rewrite Hn0, Hl0 in Hps.
  cbn [shown Mac.setWidget Mac.m_name] in Hn0.
  split_and!; [done|congruence|].
  exists (shown first). split; [done|]. split; [cbn; congruence|].
  rewrite Hps. unfold pagesOfSection. rewrite filter_cons, decide_True; done.
Qed.

(** *** What the events keep *)

Lemma mac_setIcon_labels item (newIcon : QIcon) (toolbar : list (Mac.ItemPtr * Mac.MacToolbarItem)) :
  (fun entry : Mac.ItemPtr * Mac.MacToolbarItem => (entry.1, Mac.toolbarLabel entry.2))
    <$> Mac.setIcon item newIcon toolbar
  = (fun entry => (entry.1, Mac.toolbarLabel entry.2)) <$> toolbar.
Proof.
  unfold Mac.setIcon. rewrite <-list_fmap_compose. apply list_fmap_ext.
  intros i entry _. simpl. by case_decide.
Qed.

Lemma mac_themeChanged_keeps d w :
  let d' := Mac.themeChanged d w in
  macStructure d' = macStructure d
  /\ Mac.m_pages d' = Mac.m_pages d
  /\ Mac.m_currentPage d' = Mac.m_currentPage d
  /\ Mac.m_animationGroup d' = Mac.m_animationGroup d
  /\ Mac.styleSheet d' = updateStyleSheet ThemeStylesheet (isDarkMode w).
Proof.
  cbv zeta. unfold Mac.themeChanged.
  set (d0 := Mac.setStyleSheet _ d).
  assert (macStructure d0 = macStructure d
          /\ Mac.m_pages d0 = Mac.m_pages d
          /\ Mac.m_currentPage d0 = Mac.m_currentPage d
          /\ Mac.m_animationGroup d0 = Mac.m_animationGroup d
          /\ Mac.styleSheet d0 = updateStyleSheet ThemeStylesheet (isDarkMode w)) as Hstart
    by done.
  generalize (Mac.values (Mac.m_pages d0)). clearbody d0.
  intros sections. revert d0 Hstart.
  induction sections as [|sp sections IH]; intros d0 Hstart; [done|].
  simpl. apply IH. destruct (Mac.m_pageSettings sp) as [|first rest]; [done|].
  destruct Hstart as (Hs & Hp & Hc & Hg & Hss). split_and!; try done.
  rewrite <-Hs. unfold macStructure.
  cbn [Mac.m_toolbar Mac.setToolbar Mac.m_pages Mac.m_maximumWidth Mac.containersCreated].
  by rewrite mac_setIcon_labels.
Qed.

Lemma mac_resizeEvent_keeps size d :
  macStructure (Mac.resizeEvent size d) = macStructure d.
Proof.
  unfold macStructure, Mac.resizeEvent.
  cbn [Mac.m_toolbar Mac.setPages Mac.m_pages Mac.m_maximumWidth Mac.containersCreated].
  f_equal. f_equal. f_equal. rewrite <-map_fmap_compose. by apply map_fmap_ext.
Qed.

Lemma mac_finishAnimation_keeps d animation :
  macStructure (Mac.finishAnimation d animation) = macStructure d.
Proof.
  unfold Mac.finishAnimation.
  destruct (Mac.target animation), (Mac.endValue animation);
    repeat case_decide; try done.
  unfold macStructure, Mac.setContainerOpacity.
  cbn [Mac.m_toolbar Mac.setPages Mac.m_pages Mac.m_maximumWidth Mac.containersCreated].
  f_equal. f_equal. f_equal. rewrite <-map_fmap_compose. apply map_fmap_ext.
  intros k sp _. simpl. by case_decide.
Qed.

Lemma mac_finishAnimations_keeps d (animations : list Mac.QPropertyAnimation) :
  macStructure (foldl Mac.finishAnimation d animations) = macStructure d.
Proof.
  revert d. induction animations as [|animation animations IH]; intros d; [done|].
  simpl. by rewrite IH, mac_finishAnimation_keeps.
Qed.

Lemma mac_animationFinished_keeps d d' :
  Mac.animationFinished d = Some d' -> macStructure d' = macStructure d.
Proof.
  unfold Mac.animationFinished. destruct (Mac.m_animationGroup d) as [group|].
  - destruct (_ !! _) as [sp|]; simpl; [|done]. intros [= <-].
    by rewrite <-(mac_finishAnimations_keeps d (Mac.animations group)).
  - by intros [= <-].
Qed.

Lemma mac_activated_keeps item d d' :
  Mac.activated item d = Some d' ->
  macStructure d' = macStructure d
  /\ (is_Some (Mac.m_currentPage d) -> is_Some (Mac.m_currentPage d')).
Proof.
  unfold Mac.activated.
  destruct (Mac.m_pages d !! item) as [sp|] eqn:Hsp; [|by intros [= <-]].
  destruct (Mac.m_currentPage d) as [current|] eqn:Hcur.
  - destruct (Mac.m_pages d !! current) as [cp|]; simpl; [|done].
    destruct (Mac.m_pages d !! Mac.m_toolbarItem cp) as [ce|]; simpl; [|done].
    case_decide; intros [= <-]; [split; [done|by rewrite Hcur]|].
    split; [by destruct (Mac.m_animationGroup d) | by eexists].
  - intros [= <-]. split; [|by eexists]. unfold macStructure.
    cbn [Mac.m_toolbar Mac.setPages Mac.m_pages Mac.m_maximumWidth Mac.containersCreated
         Mac.setWindowTitle Mac.resize Mac.setCurrentPage].
    f_equal. f_equal. f_equal. rewrite fmap_insert. apply insert_id.
    by rewrite lookup_fmap, Hsp.
Qed.

Lemma mac_handle_keeps e d w d' w' :
  Mac.handle e d w = Some (d', w') ->
  macStructure d' = macStructure d
  /\ (is_Some (Mac.m_currentPage d) -> is_Some (Mac.m_currentPage d'))
  /\ heap w' = heap w /\ acceptCalls w' = acceptCalls w.
Proof.
  destruct e; cbn [Mac.handle].
  - destruct (Mac.activated item d) as [d1|] eqn:E; simpl; [|done]. intros [= <- <-].
    by destruct (mac_activated_keeps _ _ _ E).
  - destruct (Mac.animationFinished d) as [d1|] eqn:E; simpl; [|done]. intros [= <- <-].
    split_and!; try done; [by apply mac_animationFinished_keeps|].
    unfold Mac.animationFinished in E. destruct (Mac.m_animationGroup d) as [group|].
    + destruct (_ !! _) as [sp|]; simpl in E; [|done]. injection E as <-.
      cbn [Mac.m_currentPage Mac.setWindowTitle Mac.setAnimationGroup].
      clear. generalize (Mac.animations group). intros animations. revert d.
      induction animations as [|animation animations IH]; intros d; [done|].
      simpl. intros Hc. apply IH. unfold Mac.finishAnimation.
      destruct (Mac.target animation), (Mac.endValue animation);
        repeat case_decide; done.
    + by injection E as <-.
  - intros [= <- <-]. split_and!; try done. apply mac_resizeEvent_keeps.
  - intros [= <- <-]. destruct (mac_themeChanged_keeps d
      {| heap := heap w; acceptCalls := acceptCalls w;
         closedEmitted := closedEmitted w; isDarkMode := isDarkMode0 |})
      as (Hs & _ & Hc & _).
    split_and!; try done. by rewrite Hc.
  - intros [= <- <-]. done.
Qed.

Lemma mac_run_snoc events e d w :
  Mac.run (events ++ [e]) d w = (s ← Mac.run events d w; Mac.handle e s.1 s.2).
Proof. unfold Mac.run. by rewrite foldl_app. Qed.

Lemma mac_run_keeps events d w d' w' :
  Mac.run events d w = Some (d', w') ->
  macStructure d' = macStructure d
  /\ (is_Some (Mac.m_currentPage d) -> is_Some (Mac.m_currentPage d'))
  /\ heap w' = heap w /\ acceptCalls w' = acceptCalls w.
Proof.
  revert d' w'. induction events as [|e events IH] using rev_ind; intros d' w'.
  - by intros [= <- <-].
  - rewrite mac_run_snoc. destruct (Mac.run events d w) as [[d1 w1]|]; simpl; [|done].
    intros (Hs & Hc & Hh & Ha)%mac_handle_keeps.
    destruct (IH d1 w1 eq_refl) as (Hs1 & Hc1 & Hh1 & Ha1).
    split_and!; [congruence|tauto|congruence..].
Qed.

Lemma mac_structure_lookup d d' k sp' :
  macStructure d' = macStructure d ->
  Mac.m_pages d' !! k = Some sp' ->
  exists sp, Mac.m_pages d !! k = Some sp /\ pageStructure sp' = pageStructure sp.
Proof.
  intros Hs Hk. unfold macStructure in Hs. injection Hs as _ Hp _ _.
  assert ((pageStructure <$> Mac.m_pages d) !! k = Some (pageStructure sp')) as Hl.
  { by rewrite <-Hp, lookup_fmap, Hk. }
  rewrite lookup_fmap in Hl. destruct (Mac.m_pages d !! k) as [sp|]; [|done].
  exists sp. split; [done|]. simpl in Hl. congruence.
Qed.


Lemma mac_structure_labels d d' :
  macStructure d' = macStructure d -> labels d' = labels d.
Proof.
  intros Hs. unfold macStructure in Hs. injection Hs as Htb _ _ _.
  unfold labels.
  transitivity ((fun entry : Mac.ItemPtr * string => entry.2)
                  <$> ((fun item : Mac.ItemPtr * Mac.MacToolbarItem =>
                          (item.1, Mac.toolbarLabel item.2)) <$> Mac.m_toolbar d')).
  - rewrite <-list_fmap_compose. by apply list_fmap_ext.
  - rewrite Htb, <-list_fmap_compose. by apply list_fmap_ext.
Qed.

(** X17.  Nothing that happens to a toolbar dialog after its construction
    (activations, animations coming to their end, resizing, changes of
    theme, close requests) changes the toolbar's items and their labels, the
    sections with their names, pages, containers and the containers'
    children, or the maximum width; and no event touches a page object or
    calls [acceptSettings()] on one.  Events change only opacities, sizes,
    icons, the title, the style sheet and which page is current. *)
Theorem toolbar_events_keep_structure (events : list Mac.Event)
    (d d' : Mac.SettingsDialog) (w w' : World P) :
  Mac.run events d w = Some (d', w') ->
  labels d' = labels d
  /\ (Mac.m_toolbar d').*1 = (Mac.m_toolbar d).*1
  /\ Mac.m_maximumWidth d' = Mac.m_maximumWidth d
  /\ (forall k, pageStructure <$> Mac.m_pages d' !! k
               = pageStructure <$> Mac.m_pages d !! k)
  /\ heap w' = heap w
  /\ acceptCalls w' = acceptCalls w.
Proof.
  intros (Hs & _ & Hh & Ha)%mac_run_keeps.
  split_and!; try done.
  - by apply mac_structure_labels.
  - unfold macStructure in Hs. injection Hs as Htb _ _ _.
    transitivity ((fun entry : Mac.ItemPtr * string => entry.1)
                    <$> ((fun item : Mac.ItemPtr * Mac.MacToolbarItem =>
                            (item.1, Mac.toolbarLabel item.2)) <$> Mac.m_toolbar d')).
    + rewrite <-list_fmap_compose. by apply list_fmap_ext.
    + rewrite Htb, <-list_fmap_compose. by apply list_fmap_ext.
  - unfold macStructure in Hs. by injection Hs as _ _ ->.
  - intros k. unfold macStructure in Hs. injection Hs as _ Hp _ _.
    by rewrite <-!lookup_fmap, Hp.
Qed.

(** X18.  A toolbar dialog constructed from at least one page goes through
    every sequence of events without dereferencing a pointer that is null or
    dangling, and at every moment it has a current page, which is one of its
    sections: [sizeHint()] is always what the current section's container
    asks for, never the base widget's size hint. *)
Theorem toolbar_events_are_safe (pages : list PagePtr) (w0 : World P) :
  Inj (=) (=) Mac.itemAddress ->
  pages <> [] ->
  exists d, Mac.construct pages w0 = Some d
    /\ forall events w,
         exists d' w' current currentPage,
           Mac.run events d w = Some (d', w')
           /\ Mac.m_currentPage d' = Some current
           /\ Mac.m_pages d' !! current = Some currentPage
           /\ Mac.m_name currentPage ∈ sectionOf w0 <$> pages
           /\ Mac.sizeHint d' = Some (Mac.containerSizeHint (Mac.m_widget currentPage)).
Proof.
  intros Hinj Hne. destruct (mac_construct_is_Some pages w0 Hinj Hne) as [d Hd].
  exists d. split; [done|]. intros events w.
  pose proof (mac_construct_wf _ _ _ Hinj Hd) as Hwf.
  pose proof (mac_construct_grouped _ _ _ Hinj Hd) as G.
  destruct (mac_run_wf events d w Hwf) as (d' & w' & Hrun & Hwf').
  destruct (mac_run_keeps _ _ _ _ _ Hrun) as (Hs & Hcur & _).
  destruct (mac_construct_least _ _ _ Hd) as (key & first & Hkey & _).
  destruct Hcur as [current Hcurrent]; [by rewrite Hkey|].
  pose proof (mac_sizeHint_spec d' Hwf') as Hhint. rewrite Hcurrent in Hhint.
  destruct Hhint as (currentPage & Hcp & Hhint).
  exists d', w', current, currentPage. split_and!; try done.
  destruct (mac_structure_lookup _ _ _ _ Hs Hcp) as (sp & Hsp & Heq).
  unfold pageStructure in Heq. injection Heq as -> _ _ _ _ _ _.
  pose proof (mac_label_known _ _ _ _ _ G Hsp) as Hl.
  apply (mg_labels _ _ _ G) in Hl as (page & Hp & <-).
  by apply list_elem_of_fmap_2.
Qed.

(** *** A change of theme *)

Lemma mac_themeChanged_toolbar d w :
  Mac.m_toolbar (Mac.themeChanged d w) =
  foldl (fun toolbar sp =>
           match Mac.m_pageSettings sp with
           | [] => toolbar
           | first :: _ =>
               Mac.setIcon (Mac.m_toolbarItem sp) (icon (heap w first) (isDarkMode w)) toolbar
           end)
        (Mac.m_toolbar d) (Mac.values (Mac.m_pages d)).
Proof.
  unfold Mac.themeChanged.
  set (d0 := Mac.setStyleSheet _ d).
  change (Mac.m_toolbar d) with (Mac.m_toolbar d0).
  change (Mac.m_pages d) with (Mac.m_pages d0).
  generalize (Mac.values (Mac.m_pages d0)). clearbody d0.
  intros sections. revert d0.
  induction sections as [|sp sections IH]; intros d0; [done|].
  simpl. rewrite IH. by destruct (Mac.m_pageSettings sp).
Qed.

Lemma mac_themed_entry w (sections : list Mac.SettingsPage)
    (toolbar : list (Mac.ItemPtr * Mac.MacToolbarItem)) entry' :
  entry' ∈ foldl (fun toolbar sp =>
                    match Mac.m_pageSettings sp with
                    | [] => toolbar
                    | first :: _ =>
                        Mac.setIcon (Mac.m_toolbarItem sp)
                                    (icon (heap w first) (isDarkMode w)) toolbar
                    end) toolbar sections ->
  exists entry, entry ∈ toolbar
    /\ entry'.1 = entry.1
    /\ Mac.toolbarLabel entry'.2 = Mac.toolbarLabel entry.2
    /\ ((exists sp first, sp ∈ sections /\ Mac.m_toolbarItem sp = entry.1
           /\ head (Mac.m_pageSettings sp) = Some first
           /\ Mac.toolbarIcon entry'.2 = icon (heap w first) (isDarkMode w))
        \/ ((forall sp, sp ∈ sections -> Mac.m_toolbarItem sp = entry.1 ->
                Mac.m_pageSettings sp = [])
            /\ entry' = entry)).
Proof.
  revert entry'. induction sections as [|sp sections IH] using rev_ind; intros entry'.
  - simpl. intros Hin. exists entry'. split_and!; try done. right.
    split; [|done]. by intros sp ?%elem_of_nil.
  - rewrite foldl_app. cbn [foldl].
    destruct (Mac.m_pageSettings sp) as [|first rest] eqn:Hps.
    + intros (entry & Hin & Hk & Hl & Hcase)%IH. exists entry. split_and!; try done.
      destruct Hcase as [(sp0 & first0 & Hsp0 & ?)|[Hnone ->]].
      * left. exists sp0, first0. split; [|done]. apply elem_of_app. by left.
      * right. split; [|done].
        intros sp' [Hsp'|Hsp'%list_elem_of_singleton]%elem_of_app Hkey;
          [by apply Hnone | by subst sp'].
    + unfold Mac.setIcon at 1. intros (e1 & -> & He1)%list_elem_of_fmap.
      destruct (IH e1 He1) as (entry & Hin & Hk & Hl & Hcase).
      exists entry. case_decide as Hd.
      * cbn [fst snd Mac.toolbarLabel Mac.toolbarIcon]. split_and!; try done.
        left. exists sp, first. rewrite Hps. split_and!; try done; [|congruence].
        apply elem_of_app. right. by left.
      * split_and!; try done.
        destruct Hcase as [(sp0 & first0 & Hsp0 & ?)|[Hnone ->]].
        -- left. exists sp0, first0. split; [|done]. apply elem_of_app. by left.
        -- right. split; [|done].
           intros sp' [Hsp'|Hsp'%list_elem_of_singleton]%elem_of_app Hkey;
             [by apply Hnone | subst sp'; by destruct Hd].
Qed.

(** X19.  A change of theme on the toolbar layout, whenever it comes, gives
    the dialog its style sheet for the new mode and every toolbar item the
    icon, for the new mode, of the first page of the item's section (of the
    page object as it then is); it changes no label, no section and no page
    object. *)
Theorem toolbar_theme_change_resets_icons (pages : list PagePtr) (w0 w w1 : World P)
    (d0 d : Mac.SettingsDialog) (events : list Mac.Event) (dark : bool) :
  Inj (=) (=) Mac.itemAddress ->
  Mac.construct pages w0 = Some d0 ->
  Mac.run events d0 w = Some (d, w1) ->
  exists d' w',
    Mac.handle (Mac.ThemeChanged dark) d w1 = Some (d', w')
    /\ Mac.styleSheet d' = updateStyleSheet ThemeStylesheet dark
    /\ Mac.m_pages d' = Mac.m_pages d
    /\ labels d' = labels d0
    /\ heap w' = heap w1
    /\ forall item, item ∈ Mac.m_toolbar d' ->
         exists first,
           head (pagesOfSection w0 (Mac.toolbarLabel item.2) pages) = Some first
           /\ Mac.toolbarIcon item.2 = icon (heap w1 first) dark.
Proof.
  intros Hinj Hd0 Hrun.
  pose proof (mac_construct_wf _ _ _ Hinj Hd0) as Hwf0.
  pose proof (mac_construct_grouped _ _ _ Hinj Hd0) as G.
  pose proof (mac_construct_sections _ _ _ Hinj Hd0) as Hsec.
  destruct (mac_run_wf events d0 w Hwf0) as (d1 & w2 & Hrun' & Hwf).
  rewrite Hrun in Hrun'. injection Hrun' as <- <-.
  destruct (mac_run_keeps _ _ _ _ _ Hrun) as (Hs & _).
  cbn [Mac.handle]. eexists _, _. split; [reflexivity|].
  set (w' := {| heap := heap w1; acceptCalls := acceptCalls w1;
                closedEmitted := closedEmitted w1; isDarkMode := dark |}).
  destruct (mac_themeChanged_keeps d w') as (Hs' & Hp' & _ & _ & Hss).
  split_and!; try done.
  - rewrite <-(mac_structure_labels _ _ Hs). by apply mac_structure_labels.
  - intros item. rewrite mac_themeChanged_toolbar.
    intros (entry & Hin & Hk & Hl & Hcase)%mac_themed_entry.
    assert (exists entry0, entry0 ∈ Mac.m_toolbar d0 /\ entry0.1 = entry.1
              /\ Mac.toolbarLabel entry0.2 = Mac.toolbarLabel entry.2)
      as (entry0 & Hin0 & Hk0 & Hl0).
    { unfold macStructure in Hs. injection Hs as Htb _ _ _.
      assert ((entry.1, Mac.toolbarLabel entry.2)
                ∈ (fun item : Mac.ItemPtr * Mac.MacToolbarItem =>
                     (item.1, Mac.toolbarLabel item.2)) <$> Mac.m_toolbar d0)
        as (entry0 & Heq & Hin0)%list_elem_of_fmap.
      { rewrite <-Htb.
        by apply (list_elem_of_fmap_2
                    (fun item : Mac.ItemPtr * Mac.MacToolbarItem =>
                       (item.1, Mac.toolbarLabel item.2))). }
      exists entry0. injection Heq as -> ->. done. }
    destruct entry0 as [k0 item0]. cbn [fst snd] in Hk0, Hl0.
    apply list_elem_of_lookup_1 in Hin0 as [i Hi].
    destruct (mg_toolbar _ _ _ G _ _ _ Hi) as (_ & sp0 & Hsp0 & Hn0).
    destruct (ms_settings _ _ _ Hsec _ _ Hsp0) as (Hps0 & first0 & Hhead0 & _).
    destruct (mg_pages _ _ _ G _ _ Hsp0) as (Hitem0 & _).
    assert (exists sp, Mac.m_pages d !! k0 = Some sp
              /\ pageStructure sp0 = pageStructure sp) as (sp & Hsp & Heq).
    { apply (mac_structure_lookup d d0 k0 sp0 (eq_sym Hs) Hsp0). }
    exists first0. rewrite Hl, <-Hl0, <-Hn0, <-Hps0. split; [done|].
    destruct Hcase as [(sp' & first & [k' Hsp']%elem_of_values & Hkey & Hhead & Hicon)
                      |[Hnone _]].
    + destruct Hwf as (Hkeys & _). rewrite (Hkeys _ _ Hsp') in Hkey. subst k'.
      rewrite <-Hk0, Hsp in Hsp'. injection Hsp' as <-.
      unfold pageStructure in Heq. injection Heq as _ _ _ Hps _ _ _.
      rewrite <-Hps, Hhead0 in Hhead. injection Hhead as <-. exact Hicon.
    + assert (Mac.m_pageSettings sp = []) as Hempty.
      { apply Hnone; [apply elem_of_values; by exists k0|].
        unfold pageStructure in Heq. injection Heq as _ _ _ _ Hitem _ _. congruence. }
      unfold pageStructure in Heq. injection Heq as _ _ _ Hps _ _ _.
      rewrite Hps, Hempty in Hhead0. done.
Qed.

(** *** A switch that runs to its end *)


Lemma mac_finishAnimations_width d (animations : list Mac.QPropertyAnimation) :
  Mac.m_maximumWidth (foldl Mac.finishAnimation d animations) = Mac.m_maximumWidth d.
Proof.
  pose proof (mac_finishAnimations_keeps d animations) as Hs.
  unfold macStructure in Hs. by injection Hs as _ _ ->.
Qed.


End MacMore.

(** ** The further properties on concrete inputs *)

Lemma separator_line_geometry_witness :
  let line := Separator.paintEvent 40 7 in
  Separator.y1 line = Separator.y2 line
  /\ Separator.x1 line - Separator.left (Separator.rect 40 7) = 25
  /\ Separator.right (Separator.rect 40 7) - Separator.x2 line = 25
  /\ (Separator.x1 line <= Separator.x2 line <-> 51 <= 40)
  /\ 0 <= Separator.y1 line <= 7 - 1
  /\ (7 - 1) - Separator.y1 line - Separator.y1 line ∈ [0; 1].
Proof. apply (separator_line_geometry 40 7); lia. Defined.

Lemma tree_item_holds_its_section_witness :
  let w := sampleWorld samplePages in
  let item :=
    {| Tree.text := "General"; Tree.itemIcon := 0%nat; Tree.toolTip := "General";
       Tree.userData :=
         {| Tree.tabs := [(5%nat, "a"%string); (3%nat, "c"%string)];
            Tree.tabStyleSheet := updateStyleSheet ThemeSubStylesheet false |};
       Tree.itemPage := 0%nat |} in
  item ∈ Tree.m_treeWidget (Tree.construct [0; 1; 2]%nat w)
  /\ Tree.tabs (Tree.userData item)
     = tabOf w <$> pagesOfSection w (Tree.text item) [0; 1; 2]%nat
  /\ exists first,
       head (pagesOfSection w (Tree.text item) [0; 1; 2]%nat) = Some first
       /\ Tree.itemPage item = first
       /\ Tree.itemIcon item = icon (heap w first) (isDarkMode w)
       /\ Tree.toolTip item = description (heap w first).
Proof.
  cbv zeta.
  match goal with |- ?item ∈ ?tree /\ _ =>
    assert (Hin : item ∈ tree) by (vm_compute; left)
  end.
  split; [exact Hin|].
  exact (tree_item_holds_its_section [0; 1; 2]%nat (sampleWorld samplePages) _ Hin).
Defined.

Lemma commit_updates_registered_pages_witness :
  let w := sampleWorld samplePages in
  let committed q :=
    Nat.iter (length (filter (fun page => page = q) [0; 1; 2]%nat))
             acceptSettings (heap w q) in
  allCanAccept w [0; 1; 2]%nat = true
  /\ heap (Tree.acceptSettings (Tree.construct [0; 1; 2]%nat w) w).2 1%nat = committed 1%nat
  /\ heap (Mac.acceptSettings sampleMacDialog w).2 1%nat = committed 1%nat.
Proof.
  cbv zeta.
  assert (Hall : allCanAccept (sampleWorld samplePages) [0; 1; 2]%nat = true)
    by reflexivity.
  split; [exact Hall|].
  destruct (commit_updates_registered_pages [0; 1; 2]%nat
              (sampleWorld samplePages) (sampleWorld samplePages)
              sampleToolkit_inj Hall) as ((Htree & _) & Hmac & _).
  destruct (Hmac sampleMacDialog sampleMacDialog_constructed) as (Hm & _).
  split; [exact (Htree 1%nat) | exact (Hm 1%nat)].
Defined.

Lemma toolbar_constructor_closed_form_witness :
  let w := sampleWorld samplePages in
  Mac.construct [0; 1; 2]%nat w = Some sampleMacDialog
  /\ labels sampleMacDialog = firstOccurrences (sectionOf w <$> [0; 1; 2]%nat)
  /\ mac_distinct sampleMacDialog.
Proof.
  cbv zeta. split; [exact sampleMacDialog_constructed|].
  destruct (toolbar_constructor_closed_form [0; 1; 2]%nat (sampleWorld samplePages)
              sampleMacDialog sampleToolkit_inj sampleMacDialog_constructed)
    as (Hlabels & _ & _ & Hdistinct).
  split; [exact Hlabels | exact Hdistinct].
Defined.

Lemma toolbar_constructor_geometry_witness :
  Mac.construct [0; 1; 2]%nat (sampleWorld samplePages) = Some sampleMacDialog
  /\ Mac.DefaultMinimumWidth <= Mac.m_maximumWidth sampleMacDialog
  /\ forall k sp, Mac.m_pages sampleMacDialog !! k = Some sp ->
       width (Mac.containerSizeHint (Mac.m_widget sp)) <= Mac.m_maximumWidth sampleMacDialog.
Proof.
  split; [exact sampleMacDialog_constructed|].
  destruct (toolbar_constructor_geometry [0; 1; 2]%nat (sampleWorld samplePages)
              sampleMacDialog sampleMacDialog_constructed)
    as (Hmin & Hall & _).
  split; [exact Hmin | exact Hall].
Defined.

Lemma toolbar_opens_on_least_item_witness :
  exists current currentPage,
    Mac.m_currentPage sampleMacDialog = Some current
    /\ Mac.m_pages sampleMacDialog !! current = Some currentPage
    /\ (forall k, is_Some (Mac.m_pages sampleMacDialog !! k) -> (current <= k)%nat)
    /\ Mac.opacity (Mac.m_widget currentPage) = 1%Qc
    /\ (forall k sp, Mac.m_pages sampleMacDialog !! k = Some sp -> k <> current ->
          Mac.opacity (Mac.m_widget sp) = 0%Qc)
    /\ Mac.windowTitle sampleMacDialog = Mac.m_name currentPage
    /\ Mac.m_animationGroup sampleMacDialog = None
    /\ Mac.sizeHint sampleMacDialog
       = Some (Mac.containerSizeHint (Mac.m_widget currentPage)).
Proof.
  exact (toolbar_opens_on_least_item [0; 1; 2]%nat (sampleWorld samplePages)
           sampleMacDialog sampleMacDialog_constructed).
Defined.

Lemma toolbar_opens_on_first_section_witness :
  let w := sampleWorld samplePages in
  Mac.construct [0; 1; 2]%nat w = Some sampleMacDialog
  /\ Mac.m_currentPage sampleMacDialog = Some (Mac.itemAddress 0)
  /\ Mac.windowTitle sampleMacDialog = sectionOf w 0%nat.
Proof.
  cbv zeta. split; [exact sampleMacDialog_constructed|].
  assert (Hmono : forall i j, (i < j)%nat ->
            (@Mac.itemAddress sampleToolkit i < @Mac.itemAddress sampleToolkit j)%nat)
    by (intros i j Hij; exact Hij).
  destruct (toolbar_opens_on_first_section 0%nat [1; 2]%nat (sampleWorld samplePages)
              sampleMacDialog Hmono sampleMacDialog_constructed)
    as (Hcurrent & Htitle & _).
  split; [exact Hcurrent | exact Htitle].
Defined.

Lemma toolbar_events_keep_structure_witness :
  let w := sampleWorld samplePages in
  exists d' w',
    Mac.run [Mac.Activated 1%nat; Mac.AnimationFinished] sampleMacDialog w = Some (d', w')
    /\ labels d' = labels sampleMacDialog
    /\ acceptCalls w' = acceptCalls w.
Proof.
  cbv zeta.
  destruct (mac_run_wf [Mac.Activated 1%nat; Mac.AnimationFinished] sampleMacDialog
              (sampleWorld samplePages) sampleMacDialog_wf) as (d' & w' & Hrun & _).
  exists d', w'. split; [exact Hrun|].
  destruct (toolbar_events_keep_structure _ _ _ _ _ Hrun) as (Hlabels & _ & _ & _ & _ & Hcalls).
  split; [exact Hlabels | exact Hcalls].
Defined.

Lemma toolbar_events_are_safe_witness :
  let w0 := sampleWorld samplePages in
  exists d, Mac.construct [0; 1; 2]%nat w0 = Some d
    /\ forall events w,
         exists d' w' current currentPage,
           Mac.run events d w = Some (d', w')
           /\ Mac.m_currentPage d' = Some current
           /\ Mac.m_pages d' !! current = Some currentPage
           /\ Mac.m_name currentPage ∈ sectionOf w0 <$> [0; 1; 2]%nat
           /\ Mac.sizeHint d' = Some (Mac.containerSizeHint (Mac.m_widget currentPage)).
Proof.
  cbv zeta.
  assert (Hne : [0; 1; 2]%nat <> []) by discriminate.
  exact (toolbar_events_are_safe [0; 1; 2]%nat (sampleWorld samplePages)
           sampleToolkit_inj Hne).
Defined.

Lemma toolbar_theme_change_resets_icons_witness :
  let w := sampleWorld samplePages in
  exists d' w',
    Mac.handle (Mac.ThemeChanged true) sampleMacDialog w = Some (d', w')
    /\ Mac.styleSheet d' = updateStyleSheet ThemeStylesheet true
    /\ Mac.m_pages d' = Mac.m_pages sampleMacDialog
    /\ labels d' = labels sampleMacDialog
    /\ heap w' = heap w
    /\ forall item, item ∈ Mac.m_toolbar d' ->
         exists first,
           head (pagesOfSection w (Mac.toolbarLabel item.2) [0; 1; 2]%nat) = Some first
           /\ Mac.toolbarIcon item.2 = icon (heap w first) true.
Proof.
  cbv zeta.
  exact (toolbar_theme_change_resets_icons [0; 1; 2]%nat
           (sampleWorld samplePages) (sampleWorld samplePages) (sampleWorld samplePages)
           sampleMacDialog sampleMacDialog [] true
           sampleToolkit_inj sampleMacDialog_constructed eq_refl).
Defined.


Lemma tree_width_fits_sections_witness :
  let boundingWidth (s : string) := 7 * Z.of_nat (String.length s) in
  let w := sampleWorld samplePages in
  boundingWidth "General" + 64
    <= treeWidgetWidth (fun s => Z.min (boundingWidth s) 1000) (Tree.construct [0; 1; 2]%nat w).
Proof.
  cbv zeta.
  assert (Hrange : forall s, - 2 ^ 31 <= Z.min (7 * Z.of_nat (String.length s)) 1000
                             <= 2 ^ 31 - 65) by (intros s; lia).
  destruct (tree_width_fits_sections _ [0; 1; 2]%nat (sampleWorld samplePages) Hrange)
    as (Hfits & _).
  assert (Hin : 0%nat ∈ [0; 1; 2]%nat) by left.
  exact (Hfits 0%nat Hin).
Defined.
